(** * mergesort: a shallow embedding of the external sort of package [mergesort]

    The development follows the Go source of the package: the helpers of the
    standard library that the package calls ([bufio], [strings], [strconv],
    [fmt], [unicode/utf8], [sort]) are modelled first, then the key encoder
    [makeCompositeKeyFn], the [merge] coroutine and the entry point [Sort],
    and last the program [main] of the demonstration that calls [Sort].

    Conventions.
    - A Go [string] is a sequence of bytes: [gostring := list ascii].
    - [int] and [int64] are 64 bits wide; they are modelled by [Z] and the
      lengths of strings by [nat].  No length or offset of a file that exists
      reaches 2^63, so the wrap-around is not written out.
    - [halt] ends the process through [log.Fatalln]: fault [Halt].  A failed
      slice index ends it through a runtime panic: fault [Panic].
    - The files are a [world]: the named files, and the files [keys_*] of the
      temporary directory.  [Sort] takes a world and returns the world it
      leaves with the outcome of the run.
    - [Sort] and the coroutine [merge] talk through two channels.  The
      coroutine runs one task at a time, in the order the tasks are sent, and
      [Sort] waits for the end of a round before it lists the key files; the
      model runs each task when it is sent.  The order in which
      [filepath.Glob] lists the key files depends on their random names: it
      is a parameter of the model.
    - Loops that are not structural take fuel; the fuel given is shown to be
      enough. *)

From Stdlib Require Import Ascii String.
From Stdlib Require Import List ZArith NArith Lia Bool.
From Stdlib Require Import Permutation Sorted.
Import ListNotations.

(** ** Bytes and strings *)

Definition byte := ascii.
Definition gostring := list byte.

Definition NL : byte := "010"%char.
Definition CR : byte := "013"%char.
Definition SP : byte := " "%char.
Definition TAB : byte := "009"%char.
Definition COMMA : byte := ","%char.

(** [_asciiGS = fmt.Sprintf("%c", 29)]: the one-byte group separator. *)
Definition _asciiGS : byte := "029"%char.

Definition str (s : string) : gostring := list_ascii_of_string s.

Definition code (c : byte) : N := N_of_ascii c.

Definition byteEq (a b : byte) : bool := (code a =? code b)%N.

(** Go compares strings byte by byte; a proper prefix is the smaller one. *)
Fixpoint compareStr (a b : gostring) : comparison :=
  match a, b with
  | [], [] => Eq
  | [], _ :: _ => Lt
  | _ :: _, [] => Gt
  | x :: a', y :: b' =>
      match (code x ?= code y)%N with
      | Eq => compareStr a' b'
      | c => c
      end
  end.

(** [a < b], [a > b], [a <= b], [a == b] on Go strings. *)
Definition ltStr (a b : gostring) : bool :=
  match compareStr a b with Lt => true | _ => false end.
Definition gtStr (a b : gostring) : bool := ltStr b a.
Definition leStr (a b : gostring) : bool := negb (ltStr b a).
Definition eqStr (a b : gostring) : bool :=
  match compareStr a b with Eq => true | _ => false end.

Definition isEmpty (s : gostring) : bool :=
  match s with [] => true | _ => false end.

(** ** Outcomes of fallible code *)

Inductive fault : Type :=
| Halt (msg : string)      (* halt(msg): log.Fatalln, the process exits *)
| Panic                    (* runtime panic: index out of range *)
| Diverged                 (* a loop of the model ran out of fuel *)
| Unmodelled.              (* outside the part of fmt that is modelled *)

Inductive outcome (A : Type) : Type :=
| Ok (a : A)
| Fail (f : fault).

Arguments Ok {A} a.
Arguments Fail {A} f.

Definition bind {A B} (m : outcome A) (k : A -> outcome B) : outcome B :=
  match m with
  | Ok a => k a
  | Fail f => Fail f
  end.

Notation "x <- m ;; k" := (bind m (fun x => k))
  (at level 61, m at next level, right associativity).

(** [l[i]] for an [int] index: a panic outside [0 <= i < len(l)]. *)
Definition index {A} (l : list A) (i : Z) : outcome A :=
  if (i <? 0)%Z then Fail Panic
  else match nth_error l (Z.to_nat i) with
       | Some x => Ok x
       | None => Fail Panic
       end.

(** ** bufio.Reader *)

(** [readString]: [reader.ReadString('\n')].  A reader is the bytes not yet
    read.  The result is the record up to and including the first newline, the
    flag [err == io.EOF] (set when the input ends before a newline is found)
    and the reader after the call.  Other read errors halt; they are not
    modelled. *)
Fixpoint readString (reader : gostring) : gostring * bool * gostring :=
  match reader with
  | [] => ([], true, [])
  | c :: rest =>
      if byteEq c NL then ([c], false, rest)
      else let '(record, eof, rest') := readString rest in
           (c :: record, eof, rest')
  end.

(** The loop [for err != io.EOF { record, err = readString(reader); ... }]:
    the successive reads, the last of which carries [io.EOF]. *)
Fixpoint readsFuel (fuel : nat) (reader : gostring) : list (gostring * bool) :=
  match fuel with
  | O => []
  | S fuel' =>
      let '(record, eof, rest) := readString reader in
      (record, eof) :: (if eof then [] else readsFuel fuel' rest)
  end.

Definition reads (reader : gostring) : list (gostring * bool) :=
  readsFuel (S (length reader)) reader.

(** ** strings *)

Module strings.

(** [strings.TrimLeft], [TrimRight] and [Trim] for a cutset of ASCII bytes. *)
Fixpoint TrimLeft (cut : byte -> bool) (s : gostring) : gostring :=
  match s with
  | [] => []
  | c :: s' => if cut c then TrimLeft cut s' else s
  end.

Definition TrimRight (cut : byte -> bool) (s : gostring) : gostring :=
  rev (TrimLeft cut (rev s)).

Definition Trim (cut : byte -> bool) (s : gostring) : gostring :=
  TrimRight cut (TrimLeft cut s).

Fixpoint HasPrefix (s prefix : gostring) {struct prefix} : bool :=
  match prefix, s with
  | [], _ => true
  | _ :: _, [] => false
  | p :: prefix', c :: s' => byteEq c p && HasPrefix s' prefix'
  end.

(** [strings.Split(s, sep)] for a separator that is not empty: the pieces of
    [s] between the leftmost occurrences of [sep] that do not overlap.  [skip]
    counts the bytes of a matched separator still to be passed, [cur] is the
    piece being read.  (With an empty separator Go splits after each UTF-8
    sequence; that case is not used below.) *)
Fixpoint splitFrom (sep : gostring) (skip : nat) (cur s : gostring)
  : list gostring :=
  match s with
  | [] => [cur]
  | c :: s' =>
      match skip with
      | S k => splitFrom sep k cur s'
      | O => if HasPrefix s sep
             then cur :: splitFrom sep (length sep - 1) [] s'
             else splitFrom sep O (cur ++ [c]) s'
      end
  end.

Definition Split (s sep : gostring) : list gostring := splitFrom sep 0 [] s.

(** [strings.Join(a, sep)] *)
Fixpoint Join (a : list gostring) (sep : gostring) : gostring :=
  match a with
  | [] => []
  | [x] => x
  | x :: rest => x ++ sep ++ Join rest sep
  end.

End strings.
Import strings.

(** The cutsets [" \r\n"] and [" "] of the calls in [Sort] and [seekFile]. *)
Definition blank (c : byte) : bool :=
  byteEq c SP || byteEq c CR || byteEq c NL.

Definition isSpace (c : byte) : bool := byteEq c SP.

(** ** unicode/utf8 *)

Definition inRange (lo hi c : N) : bool := ((lo <=? c) && (c <=? hi))%N.

Module utf8.

(** The table [first] of package utf8 with [acceptRanges]: for a lead byte the
    length of its sequence and the range accepted for the second byte; [None]
    for the bytes marked [xx] and for ASCII. *)
Definition first (c : N) : option (nat * (N * N)) :=
  (if c <? 0xC2 then None
   else if c <=? 0xDF then Some (2%nat, (0x80, 0xBF))
   else if c =? 0xE0 then Some (3%nat, (0xA0, 0xBF))
   else if c <=? 0xEC then Some (3%nat, (0x80, 0xBF))
   else if c =? 0xED then Some (3%nat, (0x80, 0x9F))
   else if c <=? 0xEF then Some (3%nat, (0x80, 0xBF))
   else if c =? 0xF0 then Some (4%nat, (0x90, 0xBF))
   else if c <=? 0xF3 then Some (4%nat, (0x80, 0xBF))
   else if c =? 0xF4 then Some (4%nat, (0x80, 0x8F))
   else None)%N.

Definition contByte (c : byte) : bool := inRange 0x80%N 0xBF%N (code c).

(** The number of bytes [utf8.RuneCountInString] passes at the head of a
    string that is not empty. *)
Definition runeSize (s : gostring) : nat :=
  match s with
  | [] => 1
  | c :: rest =>
      if (code c <? 0x80)%N then 1
      else match first (code c) with
           | None => 1
           | Some (size, (lo, hi)) =>
               if length s <? size then 1
               else match rest with
                    | c1 :: rest1 =>
                        if negb (inRange lo hi (code c1)) then 1
                        else if size =? 2 then 2
                        else match rest1 with
                             | c2 :: rest2 =>
                                 if negb (contByte c2) then 1
                                 else if size =? 3 then 3
                                 else match rest2 with
                                      | c3 :: _ =>
                                          if negb (contByte c3) then 1 else 4
                                      | [] => 1
                                      end
                             | [] => 1
                             end
                    | [] => 1
                    end
           end
  end.

Fixpoint runeCountFuel (fuel : nat) (s : gostring) : nat :=
  match fuel with
  | O => 0
  | S fuel' =>
      match s with
      | [] => 0
      | _ => S (runeCountFuel fuel' (skipn (runeSize s) s))
      end
  end.

Definition RuneCountInString (s : gostring) : nat :=
  runeCountFuel (length s) s.

End utf8.
Import utf8.

(** ** strconv *)

Module strconv.

Definition digitChar (d : Z) : byte := ascii_of_N (48 + Z.to_N d).

Fixpoint utoaFuel (fuel : nat) (n : Z) (acc : gostring) : gostring :=
  match fuel with
  | O => acc
  | S fuel' =>
      let acc' := digitChar (n mod 10) :: acc in
      if (n / 10 =? 0)%Z then acc' else utoaFuel fuel' (n / 10) acc'
  end.

(** The decimal digits of [n >= 0]. *)
Definition utoa (n : Z) : gostring :=
  utoaFuel (S (Z.to_nat (Z.log2 n))) n [].

(** [strconv.FormatInt(n, 10)], also what [%v] prints for an [int64]. *)
Definition FormatInt (n : Z) : gostring :=
  if (n <? 0)%Z then "-"%char :: utoa (- n) else utoa n.

Definition digitVal (c : byte) : option Z :=
  if inRange 48 57 (code c) then Some (Z.of_N (code c) - 48)%Z else None.

Fixpoint parseDigits (s : gostring) (acc : Z) : option Z :=
  match s with
  | [] => Some acc
  | c :: s' =>
      match digitVal c with
      | Some d => parseDigits s' (10 * acc + d)%Z
      | None => None
      end
  end.

(** [strconv.ParseInt(s, 10, 64)]: an optional sign, then one digit at least
    and digits only; [None] is a syntax or a range error. *)
Definition ParseInt (s : gostring) : option Z :=
  match s with
  | [] => None
  | c :: s' =>
      let '(neg, ds) :=
        if byteEq c "+"%char then (false, s')
        else if byteEq c "-"%char then (true, s')
        else (false, s) in
      match ds with
      | [] => None
      | _ =>
          match parseDigits ds 0 with
          | None => None
          | Some n =>
              let v := if neg then (- n)%Z else n in
              if ((- 2 ^ 63 <=? v) && (v <=? 2 ^ 63 - 1))%Z
              then Some v else None
          end
      end
  end.

(** [strconv.Atoi] where [int] is 64 bits wide. *)
Definition Atoi (s : gostring) : option Z := ParseInt s.

End strconv.
Import strconv.

(** ** fmt *)

Module fmt.

(** [fmt.Sprintf("%Ns", s)]: [s] right-justified with spaces to [N] runes. *)
Definition padString (width : nat) (s : gostring) : gostring :=
  repeat SP (width - RuneCountInString s) ++ s.

(** [fmt.Sprintf("%Nv", n)] for an [int64], where the format was made by
    [fmt.Sprintf("%%%dv", N)]: right-justified to width [N]; a negative [N]
    puts the flag [-] in the format, which left-justifies to width [-N]. *)
Definition padInt (width : Z) (n : Z) : gostring :=
  let digits := FormatInt n in
  let padding := repeat SP (Z.abs_nat width - length digits) in
  if (width <? 0)%Z then digits ++ padding else padding ++ digits.

End fmt.
Import fmt.

(** ** Composite keys *)

(** [keyParams]: [FORMAT] holds the width [N] of the format ["%Ns"] that
    [Sort] builds for the column. *)
Record keyParams : Type := { COLIDX : Z; FORMAT : nat }.

Fixpoint keyFields (fields : list gostring) (keySpecs : list keyParams)
  (key : gostring) : outcome gostring :=
  match keySpecs with
  | [] => Ok key
  | v :: rest =>
      f <- index fields (COLIDX v) ;;
      keyFields fields rest (key ++ padString (FORMAT v) f)
  end.

(** [makeCompositeKeyFn]: the closure it returns. *)
Definition makeCompositeKeyFn (fieldSep : gostring) (sortSpecs : list keyParams)
  (seekLen : Z) : gostring -> Z -> outcome gostring :=
  let sep := fieldSep in
  let keySpecs := sortSpecs in
  fun record recordStart =>
    let fields := Split record sep in
    key <- keyFields fields keySpecs [] ;;
    Ok (key ++ [_asciiGS] ++ padInt seekLen recordStart).

(** ** The merge coroutine *)

(** [fmt.Fprintln(fh, v)] for each key of a sorted batch: a run file. *)
Definition writeKeys (keys : list gostring) : gostring :=
  concat (map (fun v => v ++ [NL]) keys).

(** The variables of one merge task.  [key1] and [key2] are declared outside
    the job loop of the coroutine and live on from one task to the next. *)
Record mergeState : Type := {
  key1 : gostring; errKeys1 : bool; reader1 : gostring;
  key2 : gostring; errKeys2 : bool; reader2 : gostring;
  writer : gostring
}.

(** [(key1 != "" || errKeys1 != io.EOF) && (key2 != "" || errKeys2 != io.EOF)] *)
Definition mergeCond (m : mergeState) : bool :=
  (negb (isEmpty (key1 m)) || negb (errKeys1 m)) &&
  (negb (isEmpty (key2 m)) || negb (errKeys2 m)).

(** One turn of the loop that processes the two key files. *)
Definition mergeStep (sortAsc : bool) (m : mergeState) : mergeState :=
  let '(k1, e1, r1) :=
    if isEmpty (key1 m) then readString (reader1 m)
    else (key1 m, errKeys1 m, reader1 m) in
  let '(k2, e2, r2) :=
    if isEmpty (key2 m) then readString (reader2 m)
    else (key2 m, errKeys2 m, reader2 m) in
  let first1 := if sortAsc then ltStr k1 k2 else gtStr k1 k2 in
  if first1
  then {| key1 := []; errKeys1 := e1; reader1 := r1;
          key2 := k2; errKeys2 := e2; reader2 := r2;
          writer := writer m ++ k1 |}
  else {| key1 := k1; errKeys1 := e1; reader1 := r1;
          key2 := []; errKeys2 := e2; reader2 := r2;
          writer := writer m ++ k2 |}.

Fixpoint mergeLoop (fuel : nat) (sortAsc : bool) (m : mergeState)
  : outcome mergeState :=
  match fuel with
  | O => if mergeCond m then Fail Diverged else Ok m
  | S fuel' =>
      if mergeCond m then mergeLoop fuel' sortAsc (mergeStep sortAsc m)
      else Ok m
  end.

(** [if key != "" { Fprint(writer, key) }; for err != io.EOF { key, err =
    readString(reader); Fprint(writer, key) }]: the key left in [key] and the
    bytes written. *)
Definition drain (key : gostring) (err : bool) (reader out : gostring)
  : gostring * gostring :=
  let out := if isEmpty key then out else out ++ key in
  if err then (key, out)
  else let rds := map fst (reads reader) in
       (last rds key, out ++ concat rds).

(** [Save the remaining keys, if any, for the next pass]: what follows the
    loop.  The result is the file written and the values left in [key1] and
    [key2]. *)
Definition mergeRest (m : mergeState) : gostring * (gostring * gostring) :=
  if negb (isEmpty (key1 m)) || negb (errKeys1 m)
  then let '(k1, out) := drain (key1 m) (errKeys1 m) (reader1 m) (writer m) in
       (out, (k1, key2 m))
  else let '(k2, out) := drain (key2 m) (errKeys2 m) (reader2 m) (writer m) in
       (out, (key1 m, k2)).

(** The case [tasks := <-chan4tasks] of the job loop: the two key files are
    merged into a new temporary file.  [keys12] are the values of [key1] and
    [key2] when the task starts. *)
Definition mergeTask (sortAsc : bool) (keys12 : gostring * gostring)
  (sourceKeys1 sourceKeys2 : gostring)
  : outcome (gostring * (gostring * gostring)) :=
  let init := {| key1 := fst keys12; errKeys1 := false; reader1 := sourceKeys1;
                 key2 := snd keys12; errKeys2 := false; reader2 := sourceKeys2;
                 writer := [] |} in
  m <- mergeLoop (length sourceKeys1 + length sourceKeys2 + 3) sortAsc init ;;
  Ok (mergeRest m).

(** The coroutine takes the tasks of a round one at a time: the pairs
    [todo[0], todo[1]], [todo[2], todo[3]], ... are merged, a last odd file is
    left as it is. *)
Fixpoint mergePairs (sortAsc : bool) (keys12 : gostring * gostring)
  (todo : list gostring) : outcome (list gostring * (gostring * gostring)) :=
  match todo with
  | f1 :: f2 :: rest =>
      r <- mergeTask sortAsc keys12 f1 f2 ;;
      rs <- mergePairs sortAsc (snd r) rest ;;
      Ok (fst r :: fst rs, snd rs)
  | _ => Ok (todo, keys12)
  end.

(** ** In-memory sort of a batch *)

(** [keys.Less(i, j)], and [sort.Reverse(keys).Less(i, j)] when descending. *)
Definition less (sortAsc : bool) (a b : gostring) : bool :=
  if sortAsc then ltStr a b else ltStr b a.

Fixpoint insertKey (sortAsc : bool) (k : gostring) (l : list gostring)
  : list gostring :=
  match l with
  | [] => [k]
  | x :: l' => if less sortAsc k x then k :: l else x :: insertKey sortAsc k l'
  end.

(** [keys.Sort()] or [sort.Sort(sort.Reverse(keys[:]))], by the contract of
    package sort: the keys in order.  (The order of equal strings cannot be
    told, so the arrangement is unique.) *)
Fixpoint sortKeys (sortAsc : bool) (keys : list gostring) : list gostring :=
  match keys with
  | [] => []
  | k :: rest => insertKey sortAsc k (sortKeys sortAsc rest)
  end.

(** ** bufio.Scanner *)

Module bufio.

(** [bufio.MaxScanTokenSize]: a line that does not fit the buffer of the
    scanner, together with its newline, ends the scan. *)
Definition maxTokenSize : Z := 65536.

Definition dropCR (data : gostring) : gostring :=
  match rev data with
  | c :: rest => if byteEq c CR then rev rest else data
  | [] => data
  end.

(** The texts that [for scanner.Scan() { ... scanner.Text() ... }] goes
    through, with the split function [bufio.ScanLines]. *)
Fixpoint scanFuel (fuel : nat) (data : gostring) : list gostring :=
  match fuel with
  | O => []
  | S fuel' =>
      match data with
      | [] => []
      | _ =>
          let '(line, eof, rest) := readString data in
          let token := if eof then line else removelast line in
          if (maxTokenSize <=? Z.of_nat (length token))%Z then []
          else dropCR token :: scanFuel fuel' rest
      end
  end.

Definition scanLines (data : gostring) : list gostring :=
  scanFuel (length data) data.

End bufio.
Import bufio.

(** ** The entry point *)

(** The files the sort can see: the named files and the files [keys_*] of the
    temporary directory, which have random names and are kept by content. *)
Record world : Type := {
  files : gostring -> option gostring;
  tempDir : list gostring
}.

Definition createFile (w : world) (file content : gostring) : world :=
  {| files := fun p => if eqStr p file then Some content else files w p;
     tempDir := tempDir w |}.

Definition setTempDir (w : world) (dir : list gostring) : world :=
  {| files := files w; tempDir := dir |}.

(** [for k, v := range fields { widths[k] = math.Max(widths[k], len(v)) }] *)
Fixpoint growWidths (widths : list nat) (fields : list gostring)
  : outcome (list nat) :=
  match fields, widths with
  | [], _ => Ok widths
  | _ :: _, [] => Fail Panic
  | v :: fields', w :: widths' =>
      ws <- growWidths widths' fields' ;;
      Ok (Nat.max w (length v) :: ws)
  end.

(** The pre-pass over the records that gets the field widths. *)
Fixpoint fieldWidths (sep : gostring) (rds : list (gostring * bool))
  (widths : list nat) : outcome (list nat) :=
  match rds with
  | [] => Ok widths
  | (record, _) :: rest =>
      ws <- growWidths widths (Split (Trim blank record) sep) ;;
      fieldWidths sep rest ws
  end.

(** The field formats of the composite keys.  [%v] prints the float64 width
    as a plain integer below 10^6 only; wider columns are not modelled. *)
Fixpoint makeKeySpecs (widths : list nat) (cols : list gostring)
  : outcome (list keyParams) :=
  match cols with
  | [] => Ok []
  | v :: rest =>
      match Atoi v with
      | None =>
          Fail (Halt "the specification of the sort columns is syntactically incorrect")
      | Some n =>
          let colIdx := (n - 1)%Z in
          w <- index widths colIdx ;;
          if (1000000 <=? Z.of_nat w)%Z then Fail Unmodelled
          else specs <- makeKeySpecs widths rest ;;
               Ok ({| COLIDX := colIdx; FORMAT := w |} :: specs)
      end
  end.

(** The variables of the pass that creates the files of composite keys.
    [merged] are the other files [keys_*] of the temporary directory, [todo]
    the key files created and not yet sent to the coroutine, [keys12] the
    variables [key1] and [key2] of the coroutine. *)
Record keyPass : Type := {
  keys : list gostring;
  recordStart : Z;
  todo : list gostring;
  merged : list gostring;
  keys12 : gostring * gostring
}.

(** One turn of the pass, for the record just read.  A task sent on
    [chan4tasks] is run at once: the coroutine takes the tasks in the order
    they are sent, and the files of the temporary directory at the end of a
    round are the same under every schedule. *)
Definition keyStep (compositeKeyFn : gostring -> Z -> outcome gostring)
  (sortAsc : bool) (keysPerSort : Z) (st : keyPass) (record : gostring)
  (eof : bool) : keyPass * outcome unit :=
  let recordLen := length record in
  let record := Trim blank record in
  match (if 0 <? length record
         then k <- compositeKeyFn record (recordStart st) ;; Ok (keys st ++ [k])
         else Ok (keys st)) with
  | Ok keys' =>
      let start' := (recordStart st + Z.of_nat recordLen)%Z in
      if (0 <? length keys') &&
         ((Z.of_nat (length keys') =? keysPerSort)%Z || eof)
      then
        let tempFile := writeKeys (sortKeys sortAsc keys') in
        let todo' := todo st ++ [tempFile] in
        match todo' with
        | [f1; f2] =>
            match mergeTask sortAsc (keys12 st) f1 f2 with
            | Ok (out, k12) =>
                ({| keys := []; recordStart := start'; todo := [];
                    merged := merged st ++ [out]; keys12 := k12 |}, Ok tt)
            | Fail f =>
                ({| keys := []; recordStart := start'; todo := todo';
                    merged := merged st; keys12 := keys12 st |}, Fail f)
            end
        | _ =>
            ({| keys := []; recordStart := start'; todo := todo';
                merged := merged st; keys12 := keys12 st |}, Ok tt)
        end
      else
        ({| keys := keys'; recordStart := start'; todo := todo st;
            merged := merged st; keys12 := keys12 st |}, Ok tt)
  | Fail f => (st, Fail f)
  end.

Fixpoint keyLoop (compositeKeyFn : gostring -> Z -> outcome gostring)
  (sortAsc : bool) (keysPerSort : Z) (rds : list (gostring * bool))
  (st : keyPass) : keyPass * outcome unit :=
  match rds with
  | [] => (st, Ok tt)
  | (record, eof) :: rest =>
      match keyStep compositeKeyFn sortAsc keysPerSort st record eof with
      | (st', Ok _) => keyLoop compositeKeyFn sortAsc keysPerSort rest st'
      | failed => failed
      end
  end.

(** [seekFile]: the offset to seek to. *)
Definition seekFile (offsetStr : gostring) : outcome Z :=
  match ParseInt (TrimLeft isSpace offsetStr) with
  | None => Fail (Halt "strconv.ParseInt")
  | Some offset => if (offset <? 0)%Z then Fail (Halt "fh.Seek") else Ok offset
  end.

(** The loop that reads the sorted keys and writes the data records: the
    records written, one for each [fmt.Fprint(fhOut, record)]. *)
Fixpoint materialize (source : gostring) (texts : list gostring)
  (written : list gostring) : list gostring * outcome unit :=
  match texts with
  | [] => (written, Ok tt)
  | text :: rest =>
      match (f <- index (Split text [_asciiGS]) 1 ;; seekFile f) with
      | Ok offset =>
          let '(record, _, _) := readString (skipn (Z.to_nat offset) source) in
          materialize source rest (written ++ [record])
      | Fail f => (written, Fail f)
      end
  end.

Section Passes.

(** [filepath.Glob(pattern4merged)]: the files [keys_*] of the temporary
    directory in the order of their names, which [ioutil.TempFile] draws at
    random; the order of the n-th listing is a parameter. *)
Variable glob : nat -> list gostring -> list gostring.

(** The rounds after the first pass: list the key files, merge them two by
    two, until at most one is listed. *)
Fixpoint passes (fuel round : nat) (sortAsc : bool)
  (keys12 : gostring * gostring) (dir : list gostring)
  : outcome (list gostring) :=
  let todo := glob round dir in
  if length todo <=? 1 then Ok todo
  else match fuel with
       | O => Fail Diverged
       | S fuel' =>
           r <- mergePairs sortAsc keys12 todo ;;
           passes fuel' (S round) sortAsc (snd r) (fst r)
       end.

(** [Sort].  The message of a halt is kept without the name of the caller
    that [halt] puts before it; failures of the file system other than a
    missing source are not modelled. *)
Definition Sort (w : world) (inFile outFile : gostring) (sortAsc : bool)
  (usingFields sep : gostring) (keysPerSort : Z) (verbose : bool)
  : world * outcome unit :=
  if isEmpty inFile then (w, Fail (Halt "the input file was not specified"))
  else if isEmpty outFile
  then (w, Fail (Halt "the output file was not specified"))
  else if isEmpty usingFields
  then (w, Fail (Halt "the index fields columns were not specified"))
  else if (keysPerSort =? 0)%Z
  then (w, Fail (Halt "the number of keys for in-place sorting was not specified"))
  else
  match files w inFile with
  | None => (w, Fail (Halt "the input file cannot be located or is empty"))
  | Some source =>
  if length source =? 0
  then (w, Fail (Halt "the input file cannot be located or is empty"))
  else
  let '(record, _, _) := readString source in
  let numFields := length (Split record sep) in
  match (widths <- fieldWidths sep (reads source) (repeat 0 numFields) ;;
         makeKeySpecs widths (Split usingFields [COMMA])) with
  | Ok keySpecs =>
    let seekLen := Z.of_nat (length (FormatInt (Z.of_nat (length source)))) in
    let compositeKeyFn := makeCompositeKeyFn sep keySpecs seekLen in
    let start := {| keys := []; recordStart := 0%Z; todo := [];
                    merged := tempDir w; keys12 := ([], []) |} in
    match keyLoop compositeKeyFn sortAsc keysPerSort (reads source) start with
    | (st, Ok _) =>
      let dir := merged st ++ todo st in
      match passes (length dir) 0 sortAsc (keys12 st) dir with
      | Ok [] => (setTempDir w dir, Fail Panic)
      | Ok (sortedKeysFile :: others) =>
          let w1 := createFile (setTempDir w (sortedKeysFile :: others))
                               outFile [] in
          let source1 := if eqStr inFile outFile then [] else source in
          let '(written, r) := materialize source1 (scanLines sortedKeysFile) [] in
          match r with
          | Ok _ => (createFile (setTempDir w others) outFile (concat written), r)
          | _ => (createFile w1 outFile (concat written), r)
          end
      | Fail f => (setTempDir w dir, Fail f)
      end
    | (st, failed) => (setTempDir w (merged st ++ todo st), failed)
    end
  | Fail f => (w, Fail f)
  end
  end.

End Passes.

(** ** The demonstration program *)

Module demo.

Definition inFile : gostring := str "demo.in".
Definition outFile : gostring := str "demo.out".
Definition numFields : nat := 5.
Definition numRecords : nat := 100.
Definition fieldWidth : nat := 5.
Definition sep : gostring := [TAB].
Definition keysPerSort : Z := 10.
Definition sortAsc : bool := false.
Definition verbose : bool := true.

(** [usingFields = strconv.Itoa(numFields) + ",1"] *)
Definition usingFields : gostring :=
  FormatInt (Z.of_nat numFields) ++ str ",1".

Section Main.

(** The generator of [math/rand] is a sequence of draws, [glob] the listing
    of the key files that [Sort] takes. *)
Variable draws : nat -> nat.
Variable glob : nat -> list gostring -> list gostring.

(** [rand.Intn(n)] at the draw [pos]: a number below [n], and the next
    draw. *)
Definition Intn (n pos : nat) : nat * nat := (draws pos mod n, S pos).

(** [for charNo := 1; charNo <= numChars; charNo++]: a digit from 1 to 9 in
    the last field, one of the 58 characters from ['A'] on in the others. *)
Fixpoint chars (numChars fieldNum : nat) (content : gostring) (pos : nat)
  : gostring * nat :=
  match numChars with
  | O => (content, pos)
  | S more =>
      if fieldNum =? numFields - 1
      then let '(r, pos') := Intn 9 pos in
           chars more fieldNum (content ++ FormatInt (Z.of_nat (1 + r))) pos'
      else let '(r, pos') := Intn 58 pos in
           chars more fieldNum (content ++ [ascii_of_nat (65 + r)]) pos'
  end.

(** [for fieldNum := 0; fieldNum < numFields; fieldNum++]: the fields of a
    record, each right-justified to [fieldWidth] by the format ["%5v"]. *)
Fixpoint fieldsFrom (count fieldNum : nat) (fields : list gostring) (pos : nat)
  : list gostring * nat :=
  match count with
  | O => (fields, pos)
  | S more =>
      let '(r, pos1) := Intn fieldWidth pos in
      let numChars := 1 + r in
      let '(content, pos2) := chars numChars fieldNum [] pos1 in
      fieldsFrom more (S fieldNum)
                 (fields ++ [padString fieldWidth content]) pos2
  end.

(** [for recNum := 1; recNum <= numRecords; recNum++]: what is written to
    the file, one [fmt.Fprintln(fh, strings.Join(fields[:], sep))] for each
    record. *)
Fixpoint records (count : nat) (fh : gostring) (pos : nat) : gostring * nat :=
  match count with
  | O => (fh, pos)
  | S more =>
      let '(fields, pos') := fieldsFrom numFields 0 [] pos in
      records more (fh ++ Join fields sep ++ [NL]) pos'
  end.

(** [main]: the random data are written to [inFile], then sorted with the
    last field as the first key and the first field as the second. *)
Definition main (w : world) : world * outcome unit :=
  let '(data, _) := records numRecords [] 0 in
  let w1 := createFile w inFile data in
  Sort glob w1 inFile outFile sortAsc usingFields sep keysPerSort verbose.

End Main.

End demo.

(** ** Notions used to state the properties *)

(** [inOrder sortAsc a b]: [a] may stand before [b] in a file sorted in the
    requested direction, [a <= b] when ascending and [a >= b] when
    descending. *)
Definition inOrder (sortAsc : bool) (a b : gostring) : Prop :=
  less sortAsc b a = false.

(** The two-way merge of two lists of keys as the specification words it: the
    winner of the two current keys goes first; when one list is exhausted the
    rest of the other is copied. *)
Fixpoint mergeLines (sortAsc : bool) (l1 : list gostring)
  : list gostring -> list gostring :=
  fix inner (l2 : list gostring) : list gostring :=
    match l1, l2 with
    | [], _ => l2
    | _, [] => l1
    | a :: l1', b :: l2' =>
        if less sortAsc a b then a :: mergeLines sortAsc l1' l2
        else b :: inner l2'
    end.

(** A line of a key file as [readString] returns it: no newline but the one
    that ends it. *)
Definition keyLine (line : gostring) : Prop :=
  exists key, line = key ++ [NL] /\ Forall (fun c => c <> NL) key.

(** A record split into [fields] has the column that a key spec names. *)
Definition hasField (fields : list gostring) (v : keyParams) : Prop :=
  (0 <= COLIDX v < Z.of_nat (length fields))%Z.

(** The bytes ['0'] to ['9'], and the value of a string of digits read from
    the left. *)
Definition isDigit (c : byte) : Prop := (48 <= code c <= 57)%N.

Definition digitStep (v : Z) (c : byte) : Z :=
  (10 * v + (Z.of_N (code c) - 48))%Z.

Definition notSpace (c : byte) : bool := negb (isSpace c).

(** One input of a merge task whose lines still to be merged are [pending]:
    the current key is either not read yet or the first of them. *)
Definition live (pending : list gostring) (key : gostring) (err : bool)
  (reader : gostring) : Prop :=
  err = false /\ Forall keyLine pending /\
  ((key = [] /\ reader = concat pending) \/
   (exists a rest, pending = a :: rest /\ key = a /\ reader = concat rest)).

(** *** The records of a file and their keys *)

(** A record of the source that is not blank: the offset of its first byte,
    the record as [readString] returns it (with its line terminator, if it
    has one), and its composite key. *)
Record entry : Type := {
  entOffset : Z;
  entRecord : gostring;
  entKey : gostring
}.

(** The entries of the records [rds], read from the offset [start] on, in the
    order of the file. *)
Fixpoint entriesFrom (compositeKeyFn : gostring -> Z -> outcome gostring)
  (rds : list (gostring * bool)) (start : Z) : outcome (list entry) :=
  match rds with
  | [] => Ok []
  | (record, _) :: rest =>
      let next := (start + Z.of_nat (length record))%Z in
      if 0 <? length (Trim blank record)
      then k <- compositeKeyFn (Trim blank record) start ;;
           es <- entriesFrom compositeKeyFn rest next ;;
           Ok ({| entOffset := start; entRecord := record; entKey := k |} :: es)
      else entriesFrom compositeKeyFn rest next
  end.

(** The key specs [Sort] builds for a source, and the width of the offsets
    in its keys. *)
Definition keySpecsOf (source usingFields sep : gostring)
  : outcome (list keyParams) :=
  let '(record, _, _) := readString source in
  let numFields := length (Split record sep) in
  widths <- fieldWidths sep (reads source) (repeat 0 numFields) ;;
  makeKeySpecs widths (Split usingFields [COMMA]).

Definition seekLenOf (source : gostring) : nat :=
  length (FormatInt (Z.of_nat (length source))).

Definition entriesOf (source usingFields sep : gostring)
  : outcome (list entry) :=
  keySpecs <- keySpecsOf source usingFields sep ;;
  entriesFrom (makeCompositeKeyFn sep keySpecs (Z.of_nat (seekLenOf source)))
              (reads source) 0%Z.

(** The entries in the order of their keys. *)
Fixpoint insertEntry (sortAsc : bool) (e : entry) (l : list entry)
  : list entry :=
  match l with
  | [] => [e]
  | x :: l' =>
      if less sortAsc (entKey e) (entKey x) then e :: l
      else x :: insertEntry sortAsc e l'
  end.

Fixpoint sortEntries (sortAsc : bool) (es : list entry) : list entry :=
  match es with
  | [] => []
  | e :: rest => insertEntry sortAsc e (sortEntries sortAsc rest)
  end.

(** The inputs on which [Sort] is shown to run to its end: the arguments pass
    the checks of the entry point; source and destination are different
    files; no file [keys_*] of another run lies in the temporary directory;
    the group separator does not occur in the data; the separator of the
    fields is not empty; the pre-pass and the key encoder go through, with
    the entries [es], of which there is one at least; and every key fits the
    buffer of the scanner that reads the sorted keys back. *)
Definition validInput (w : world) (inFile outFile usingFields sep : gostring)
  (keysPerSort : Z) (source : gostring) (es : list entry) : Prop :=
  inFile <> [] /\ outFile <> [] /\ usingFields <> [] /\ keysPerSort <> 0%Z /\
  eqStr inFile outFile = false /\
  files w inFile = Some source /\ tempDir w = [] /\
  source <> [] /\ (Z.of_nat (length source) < 2 ^ 63)%Z /\
  forallb (fun c => negb (byteEq c _asciiGS)) source = true /\
  sep <> [] /\
  entriesOf source usingFields sep = Ok es /\ es <> [] /\
  forallb (fun e => (Z.of_nat (length (entKey e)) <? maxTokenSize)%Z) es = true.

(** The world after a sort that wrote the records [written]. *)
Definition sortedWorld (w : world) (outFile : gostring)
  (written : list gostring) : world :=
  createFile (setTempDir w []) outFile (concat written).

(** *** Keys and runs *)

Definition lineOf (key : gostring) : gostring := key ++ [NL].

(** A composite key with an offset of [width] bytes: the group separator
    ends the fields, and no newline occurs. *)
Definition goodKey (width : nat) (key : gostring) : Prop :=
  exists body tail, key = body ++ _asciiGS :: tail /\
    ~ In _asciiGS body /\ ~ In NL body /\
    ~ In _asciiGS tail /\ ~ In NL tail /\ ~ In CR tail /\
    tail <> [] /\ length tail = width.

(** The lines of a key file that is sorted in the requested direction. *)
Definition okRun (sortAsc : bool) (lines : list gostring) : Prop :=
  Forall keyLine lines /\ Sorted (inOrder sortAsc) lines.

(** An entry whose key leads back to its record in [source]. *)
Definition resolves (source : gostring) (width : nat) (e : entry) : Prop :=
  (0 <= entOffset e < 2 ^ 63)%Z /\
  fst (fst (readString (skipn (Z.to_nat (entOffset e)) source))) = entRecord e /\
  exists body, entKey e = body ++ _asciiGS :: padInt (Z.of_nat width) (entOffset e) /\
    ~ In _asciiGS body.

(** What holds of the pass that creates the key files, after the keys [seen]:
    the key files of the temporary directory are sorted runs, and their lines
    with the keys of the batch in memory are the keys seen so far. *)
Definition passInv (sortAsc : bool) (width : nat) (st : keyPass)
  (seen : list gostring) : Prop :=
  keys12 st = ([], []) /\
  Forall (goodKey width) (keys st) /\
  exists lsm lst : list (list gostring),
    merged st = map (@concat byte) lsm /\ todo st = map (@concat byte) lst /\
    length lst <= 1 /\
    Forall (okRun sortAsc) (lsm ++ lst) /\
    Permutation (concat (lsm ++ lst) ++ map lineOf (keys st)) (map lineOf seen).

(** *** Records of a file, and inputs for the examples *)

(** A record that is not blank after the trim: it gets a key. *)
Definition nonBlank (record : gostring) : bool :=
  0 <? length (Trim blank record).

(** The records of a file as they lie on disk: what the successive reads
    return, without the empty read that only reports the end of the file. *)
Definition fileRecords (content : gostring) : list gostring :=
  filter (fun r => negb (isEmpty r)) (map fst (reads content)).

(** The order of two keys that the claim on the order of the output asks
    for: [a <= b] when ascending, [a >= b] when descending. *)
Definition keysInOrder (sortAsc : bool) (a b : entry) : Prop :=
  if sortAsc then leStr (entKey a) (entKey b) = true
  else leStr (entKey b) (entKey a) = true.

(** A listing that returns the key files in the order they were created. *)
Definition globInOrder (round : nat) (dir : list gostring) : list gostring :=
  dir.

(** A world with one file, ["in"], and an empty temporary directory. *)
Definition oneFile (content : gostring) : world :=
  {| files := fun p => if eqStr p (str "in") then Some content else None;
     tempDir := [] |}.

(** ["3\tZ\n1\tA\n2\tA\n"] *)
Definition demoSource : gostring :=
  str "3" ++ TAB :: str "Z" ++ NL :: str "1" ++ TAB :: str "A" ++ NL ::
  str "2" ++ TAB :: str "A" ++ [NL].

Definition demoEntries : list entry :=
  Eval vm_compute in
    match entriesOf demoSource (str "2,1") [TAB] with
    | Ok es => es
    | Fail _ => []
    end.

(** ["b\na"]: the last record has no line terminator. *)
Definition openSource : gostring := str "b" ++ NL :: str "a".

Definition openEntries : list entry :=
  Eval vm_compute in
    match entriesOf openSource (str "1") [TAB] with
    | Ok es => es
    | Fail _ => []
    end.

(** *** Stability *)

(** The values of the selected fields of a record: what the key encoder
    indexes in the record after the trim. *)
Definition selected (keySpecs : list keyParams) (sep record : gostring)
  : list (outcome gostring) :=
  map (fun v => index (Split (Trim blank record) sep) (COLIDX v)) keySpecs.

(** [a] stands before [b] in the list [l]. *)
Definition before {A : Type} (a b : A) (l : list A) : Prop :=
  exists l1 l2 l3, l = l1 ++ a :: l2 ++ b :: l3.

(** ["1\tA\n2\tA\n"]: two records with the same second field. *)
Definition tiesSource : gostring :=
  str "1" ++ TAB :: str "A" ++ NL :: str "2" ++ TAB :: str "A" ++ [NL].

Definition tiesEntries : list entry :=
  Eval vm_compute in
    match entriesOf tiesSource (str "2") [TAB] with
    | Ok es => es
    | Fail _ => []
    end.

(** ["a\n\nb\n"]: the second record is blank. *)
Definition blankSource : gostring := str "a" ++ NL :: NL :: str "b" ++ [NL].

(** ["b\na\n"] *)
Definition unsortedSource : gostring := str "b" ++ NL :: str "a" ++ [NL].

(** ["a\nb\tc\n"]: the second record has more fields than the first. *)
Definition raggedSource : gostring :=
  str "a" ++ NL :: str "b" ++ TAB :: str "c" ++ [NL].

(** *** Termination of the loops *)

(** What is left to merge: the bytes not yet read and the keys that are
    current. *)
Definition mergeMeasure (m : mergeState) : nat :=
  (if isEmpty (key1 m) then 0 else 1) + length (reader1 m) +
  ((if isEmpty (key2 m) then 0 else 1) + length (reader2 m)).


(** *** Inputs that get keys, whatever follows the merges *)

(** The conditions of [validInput] up to the merges: the destination may be
    the source itself, and a key may be too long for the scanner that reads
    the sorted keys back. *)
Definition keyedInput (w : world) (inFile outFile usingFields sep : gostring)
  (keysPerSort : Z) (source : gostring) (es : list entry) : Prop :=
  inFile <> [] /\ outFile <> [] /\ usingFields <> [] /\ keysPerSort <> 0%Z /\
  files w inFile = Some source /\ tempDir w = [] /\
  source <> [] /\ (Z.of_nat (length source) < 2 ^ 63)%Z /\
  forallb (fun c => negb (byteEq c _asciiGS)) source = true /\
  sep <> [] /\
  entriesOf source usingFields sep = Ok es /\ es <> [].

(** The end of [Sort], from the file of the sorted keys on: the destination
    is created, which empties it, and the records that the keys lead to are
    written to it. *)
Definition writeRecords (w : world) (inFile outFile source : gostring)
  (sortedKeysFile : gostring) : world * outcome unit :=
  let w1 := createFile (setTempDir w [sortedKeysFile]) outFile [] in
  let source1 := if eqStr inFile outFile then [] else source in
  let '(written, r) := materialize source1 (scanLines sortedKeysFile) [] in
  match r with
  | Ok _ => (createFile (setTempDir w []) outFile (concat written), r)
  | _ => (createFile w1 outFile (concat written), r)
  end.

(** The entries that the scanner of the sorted keys reaches: those that stand
    before the first key that does not fit its buffer. *)
Fixpoint scanned (es : list entry) : list entry :=
  match es with
  | [] => []
  | e :: es' =>
      if (maxTokenSize <=? Z.of_nat (length (entKey e)))%Z then []
      else e :: scanned es'
  end.

(** ["\n\n"]: two blank records. *)
Definition blankLines : gostring := [NL; NL].

(** A record of 256 bytes ['a'], and the column list ["1,1,...,1"] that names
    its only field 256 times: the key has 65536 bytes before the group
    separator. *)
Definition wideSource : gostring := repeat "a"%char 256 ++ [NL].

Definition wideColumns : gostring :=
  str "1" ++ concat (repeat (COMMA :: str "1") 255).

Definition wideEntries : list entry :=
  match entriesOf wideSource wideColumns [TAB] with
  | Ok es => es
  | Fail _ => []
  end.

(** ["a\tb\nc\n"]: the second record lacks the second field. *)
Definition shortSource : gostring :=
  str "a" ++ TAB :: str "b" ++ NL :: str "c" ++ [NL].

(** *** Columns and widths *)

(** The number of fields that [Sort] reads off the first record. *)
Definition numFieldsOf (source sep : gostring) : nat :=
  length (Split (fst (fst (readString source))) sep).

(** The widths the pre-pass finds for a source. *)
Definition widthsOf (source sep : gostring) : outcome (list nat) :=
  fieldWidths sep (reads source) (repeat 0 (numFieldsOf source sep)).

(** The key spec [v] is what [Sort] builds for the column [col] of
    [usingFields]: the column is a number from 1 to the number of widths,
    and the format pads to the width found for that column. *)
Definition columnSpec (widths : list nat) (col : gostring) (v : keyParams)
  : Prop :=
  exists n, Atoi col = Some n /\ (1 <= n <= Z.of_nat (length widths))%Z /\
    COLIDX v = (n - 1)%Z /\
    nth_error widths (Z.to_nat (n - 1)) = Some (FORMAT v).

(** A source whose records can all be given a key: no record has more fields
    than the first one, no field is a million bytes long, and every column
    of [usingFields] is a number from 1 to the number of fields of the first
    record for which every record that is not blank has a field. *)
Definition keyable (source usingFields sep : gostring) : Prop :=
  (forall record eof, In (record, eof) (reads source) ->
     length (Split (Trim blank record) sep) <= numFieldsOf source sep) /\
  (forall record eof f, In (record, eof) (reads source) ->
     In f (Split (Trim blank record) sep) ->
     (Z.of_nat (length f) < 1000000)%Z) /\
  Forall (fun col => exists n, Atoi col = Some n /\
            (1 <= n <= Z.of_nat (numFieldsOf source sep))%Z /\
            forall record eof, In (record, eof) (reads source) ->
              nonBlank record = true ->
              (n <= Z.of_nat (length (Split (Trim blank record) sep)))%Z)
         (Split usingFields [COMMA]).

(** *** Interleavings *)

(** [l] takes its elements from [l1] and [l2], each in its order. *)
Inductive interleave {A : Type} : list A -> list A -> list A -> Prop :=
| interleave_nil : interleave [] [] []
| interleave_left : forall x l1 l2 l,
    interleave l1 l2 l -> interleave (x :: l1) l2 (x :: l)
| interleave_right : forall x l1 l2 l,
    interleave l1 l2 l -> interleave l1 (x :: l2) (x :: l).

(** What a merge task has done of its two inputs [s1] and [s2] (each with the
    key left over in [key1] or [key2] before it): the bytes written
    interleave the bytes taken, the rest is in the current keys and the
    readers, and a reader that reported the end of its file is empty. *)
Definition merging (s1 s2 : gostring) (m : mergeState) : Prop :=
  exists a1 a2,
    s1 = a1 ++ key1 m ++ reader1 m /\ s2 = a2 ++ key2 m ++ reader2 m /\
    interleave a1 a2 (writer m) /\
    (errKeys1 m = true -> reader1 m = []) /\
    (errKeys2 m = true -> reader2 m = []).

(** The state of the first pass when it starts, in a world without key
    files. *)
Definition startPass : keyPass :=
  {| keys := []; recordStart := 0%Z; todo := []; merged := [];
     keys12 := ([], []) |}.

(** *** The order of the keys *)



(** What the demonstration program writes: the bytes of a field are digits
    from 1 to 9 or among the 58 characters from ['A'] to ['z']; a field has
    from 1 to 5 of them; a record is five fields right-justified to five
    bytes, joined by tabs, and a newline. *)
Definition demoByte (c : byte) : Prop := (49 <= code c <= 122)%N.

Definition demoField (content : gostring) : Prop :=
  1 <= length content <= 5 /\ Forall demoByte content.

Definition demoRecord (record : gostring) : Prop :=
  exists c0 c1 c2 c3 c4,
    Forall demoField [c0; c1; c2; c3; c4] /\
    record = Join (map (padString 5) [c0; c1; c2; c3; c4]) [TAB] ++ [NL].

(** The bytes of the data: the bytes of the fields, the space of the
    padding, the tab and the newline. *)
Definition dataByte (x : byte) : Prop :=
  x = SP \/ x = TAB \/ x = NL \/ demoByte x.


(* ================================================================== *)
(** * Properties *)

(** ** Bytes and the order of strings *)

Lemma code_inj : forall a b : byte, code a = code b -> a = b.
Proof.
  intros a b H. unfold code in H.
  rewrite <- (ascii_N_embedding a), <- (ascii_N_embedding b). now rewrite H.
Qed.

Lemma byteEq_true : forall a b, byteEq a b = true <-> a = b.
Proof.
  intros a b. unfold byteEq. rewrite N.eqb_eq. split.
  - apply code_inj.
  - now intros ->.
Qed.

Lemma byteEq_false : forall a b, byteEq a b = false <-> a <> b.
Proof.
  intros a b. rewrite <- byteEq_true. destruct (byteEq a b); split; congruence.
Qed.

Lemma byteEq_refl : forall a, byteEq a a = true.
Proof. intro a. now apply byteEq_true. Qed.

Lemma compareStr_refl : forall a, compareStr a a = Eq.
Proof.
  induction a as [|x a IH]; simpl; [reflexivity|].
  now rewrite N.compare_refl.
Qed.

Lemma compareStr_eq : forall a b, compareStr a b = Eq -> a = b.
Proof.
  induction a as [|x a IH]; destruct b as [|y b]; simpl; try congruence.
  destruct (code x ?= code y)%N eqn:E; try discriminate.
  intro H. apply N.compare_eq in E. apply code_inj in E. subst y.
  f_equal. now apply IH.
Qed.

Lemma compareStr_antisym : forall a b,
  compareStr b a = CompOpp (compareStr a b).
Proof.
  induction a as [|x a IH]; destruct b as [|y b]; simpl; try reflexivity.
  rewrite (N.compare_antisym (code x) (code y)).
  destruct (code x ?= code y)%N; simpl; auto.
Qed.

Lemma compareStr_lt_trans : forall a b c,
  compareStr a b = Lt -> compareStr b c = Lt -> compareStr a c = Lt.
Proof.
  induction a as [|x a IH]; destruct b as [|y b]; destruct c as [|z c];
    simpl; try congruence.
  destruct (code x ?= code y)%N eqn:Exy; try discriminate;
    destruct (code y ?= code z)%N eqn:Eyz; try discriminate; intros H1 H2.
  - apply N.compare_eq in Exy, Eyz. rewrite Exy, Eyz, N.compare_refl.
    eauto.
  - apply N.compare_eq in Exy. rewrite Exy, Eyz. reflexivity.
  - apply N.compare_eq in Eyz. rewrite <- Eyz, Exy. reflexivity.
  - rewrite N.compare_lt_iff in Exy, Eyz.
    assert (E : (code x ?= code z)%N = Lt) by (apply N.compare_lt_iff; lia).
    now rewrite E.
Qed.

Lemma compareStr_app : forall p a b,
  compareStr (p ++ a) (p ++ b) = compareStr a b.
Proof.
  induction p as [|x p IH]; intros a b; simpl; [reflexivity|].
  now rewrite N.compare_refl.
Qed.

Lemma ltStr_irrefl : forall a, ltStr a a = false.
Proof. intro a. unfold ltStr. now rewrite compareStr_refl. Qed.

Lemma ltStr_asym : forall a b, ltStr a b = true -> ltStr b a = false.
Proof.
  intros a b. unfold ltStr. rewrite (compareStr_antisym a b).
  destruct (compareStr a b); simpl; congruence.
Qed.

Lemma ltStr_trans : forall a b c,
  ltStr a b = true -> ltStr b c = true -> ltStr a c = true.
Proof.
  intros a b c. unfold ltStr.
  destruct (compareStr a b) eqn:E1; try discriminate.
  destruct (compareStr b c) eqn:E2; try discriminate.
  now rewrite (compareStr_lt_trans _ _ _ E1 E2).
Qed.

Lemma ltStr_total : forall a b,
  ltStr a b = false -> ltStr b a = false -> a = b.
Proof.
  intros a b. unfold ltStr. rewrite (compareStr_antisym a b).
  destruct (compareStr a b) eqn:E; simpl; try discriminate.
  intros _ _. now apply compareStr_eq.
Qed.

Lemma ltStr_app : forall p a b, ltStr (p ++ a) (p ++ b) = ltStr a b.
Proof. intros. unfold ltStr. now rewrite compareStr_app. Qed.

(** If neither [a < b] nor [b < c] fails to hold in the weak sense, the weak
    order composes. *)
Lemma geStr_trans : forall a b c,
  ltStr b a = false -> ltStr c b = false -> ltStr c a = false.
Proof.
  intros a b c Hab Hbc.
  destruct (ltStr c a) eqn:Hca; [|reflexivity].
  destruct (ltStr a b) eqn:E.
  - rewrite (ltStr_trans _ _ _ Hca E) in Hbc. discriminate.
  - assert (a = b) by now apply ltStr_total. subst. congruence.
Qed.

Lemma inOrder_refl : forall sortAsc a, inOrder sortAsc a a.
Proof. intros [] a; unfold inOrder, less; apply ltStr_irrefl. Qed.

Lemma inOrder_trans : forall sortAsc a b c,
  inOrder sortAsc a b -> inOrder sortAsc b c -> inOrder sortAsc a c.
Proof.
  intros [] a b c; unfold inOrder, less; intros H1 H2.
  - eapply geStr_trans; eauto.
  - eapply geStr_trans; eauto.
Qed.

Lemma inOrder_antisym : forall sortAsc a b,
  inOrder sortAsc a b -> inOrder sortAsc b a -> a = b.
Proof.
  intros [] a b; unfold inOrder, less; intros H1 H2.
  - now apply ltStr_total.
  - now apply ltStr_total.
Qed.

Lemma less_inOrder : forall sortAsc a b,
  less sortAsc a b = true -> inOrder sortAsc a b.
Proof.
  intros [] a b; unfold inOrder, less; apply ltStr_asym.
Qed.

(** ** Decimal numbers *)

Lemma code_digitChar : forall d, (0 <= d < 10)%Z ->
  code (digitChar d) = (48 + Z.to_N d)%N.
Proof.
  intros d Hd. unfold code, digitChar. apply N_ascii_embedding. lia.
Qed.

Lemma digitChar_isDigit : forall d, (0 <= d < 10)%Z -> isDigit (digitChar d).
Proof.
  intros d Hd. unfold isDigit. rewrite code_digitChar by assumption. lia.
Qed.

Lemma digitStep_digitChar : forall v d, (0 <= d < 10)%Z ->
  digitStep v (digitChar d) = (10 * v + d)%Z.
Proof.
  intros v d Hd. unfold digitStep. rewrite code_digitChar by assumption. lia.
Qed.

(** With fuel for the digits of [n], [utoaFuel] puts before [acc] the digits
    of [n], most significant first and without a leading zero. *)
Lemma utoaFuel_spec : forall fuel n acc,
  fuel <> 0 -> (0 <= n < 10 ^ Z.of_nat fuel)%Z ->
  exists ds, utoaFuel fuel n acc = ds ++ acc /\ ds <> [] /\
    Forall isDigit ds /\
    (forall v, fold_left digitStep ds v = v * 10 ^ Z.of_nat (length ds) + n)%Z /\
    (n < 10 ^ Z.of_nat (length ds))%Z /\
    (length ds = 1%nat \/ (10 ^ (Z.of_nat (length ds) - 1) <= n)%Z).
Proof.
  induction fuel as [|fuel IH]; intros n acc Hfuel Hn.
  - congruence.
  - assert (Hm : (0 <= n mod 10 < 10)%Z) by (apply Z.mod_pos_bound; lia).
    cbn [utoaFuel]. destruct (n / 10 =? 0)%Z eqn:Hq.
    + apply Z.eqb_eq in Hq.
      assert (Hsmall : (n = n mod 10)%Z).
      { pose proof (Z.div_mod n 10). lia. }
      exists [digitChar (n mod 10)]. repeat split.
      * discriminate.
      * constructor; [now apply digitChar_isDigit | constructor].
      * intro v. simpl. rewrite digitStep_digitChar by assumption.
        change (Z.pow_pos 10 1) with 10%Z. lia.
      * simpl. change (Z.pow_pos 10 1) with 10%Z. lia.
      * now left.
    + apply Z.eqb_neq in Hq.
      assert (Hdiv : (0 <= n / 10 < 10 ^ Z.of_nat fuel)%Z).
      { split; [apply Z.div_pos; lia|].
        apply Z.div_lt_upper_bound; [lia|].
        replace (Z.of_nat (S fuel)) with (Z.succ (Z.of_nat fuel)) in Hn by lia.
        rewrite Z.pow_succ_r in Hn by lia. lia. }
      assert (Hf : fuel <> 0).
      { intros ->. simpl in Hdiv. lia. }
      destruct (IH (n / 10)%Z (digitChar (n mod 10) :: acc) Hf Hdiv)
        as (ds & Heq & Hne & Hdig & Hval & Hlt & Hge).
      exists (ds ++ [digitChar (n mod 10)]).
      assert (Hlen : Z.of_nat (length (ds ++ [digitChar (n mod 10)]))
                     = Z.succ (Z.of_nat (length ds))).
      { rewrite length_app. simpl. lia. }
      assert (Hpos : (0 < n / 10)%Z) by lia.
      pose proof (Z.div_mod n 10) as Hdm.
      repeat split.
      * rewrite Heq, <- app_assoc. reflexivity.
      * intro E. apply app_eq_nil in E. destruct E; discriminate.
      * apply Forall_app. split; [assumption|].
        constructor; [now apply digitChar_isDigit | constructor].
      * intro v. rewrite fold_left_app, Hval. simpl.
        rewrite digitStep_digitChar by assumption.
        rewrite Hlen, Z.pow_succ_r by lia. lia.
      * rewrite Hlen, Z.pow_succ_r by lia. lia.
      * right. rewrite Hlen.
        replace (Z.succ (Z.of_nat (length ds)) - 1)%Z with (Z.of_nat (length ds)) by lia.
        destruct Hge as [H1 | Hge].
        -- rewrite H1. change (10 ^ Z.of_nat 1)%Z with 10%Z. lia.
        -- assert (Hl : 1 <= length ds).
           { destruct ds; [congruence | cbn [length]; lia]. }
           replace (Z.of_nat (length ds)) with (Z.succ (Z.of_nat (length ds) - 1)) by lia.
           rewrite Z.pow_succ_r by lia. lia.
Qed.

Lemma utoa_fuel_enough : forall n, (0 <= n)%Z ->
  (n < 10 ^ Z.of_nat (S (Z.to_nat (Z.log2 n))))%Z.
Proof.
  intros n Hn.
  assert (H0 : (0 <= Z.log2 n)%Z) by apply Z.log2_nonneg.
  replace (Z.of_nat (S (Z.to_nat (Z.log2 n)))) with (Z.succ (Z.log2 n)) by lia.
  destruct (Z.eq_dec n 0) as [-> | Hnz].
  - simpl. lia.
  - assert (H2 : (n < 2 ^ Z.succ (Z.log2 n))%Z) by (apply Z.log2_spec; lia).
    assert (H3 : (2 ^ Z.succ (Z.log2 n) <= 10 ^ Z.succ (Z.log2 n))%Z).
    { apply Z.pow_le_mono_l. lia. }
    lia.
Qed.

Lemma utoa_spec : forall n, (0 <= n)%Z ->
  utoa n <> [] /\ Forall isDigit (utoa n) /\
  fold_left digitStep (utoa n) 0%Z = n /\
  (n < 10 ^ Z.of_nat (length (utoa n)))%Z /\
  (length (utoa n) = 1%nat \/ (10 ^ (Z.of_nat (length (utoa n)) - 1) <= n)%Z).
Proof.
  intros n Hn. unfold utoa.
  destruct (utoaFuel_spec (S (Z.to_nat (Z.log2 n))) n [])
    as (ds & Heq & Hne & Hdig & Hval & Hlt & Hge).
  { discriminate. }
  { split; [assumption | now apply utoa_fuel_enough]. }
  rewrite Heq, app_nil_r. repeat split; try assumption.
  rewrite Hval. lia.
Qed.

(** The number of digits does not decrease with the number. *)
Lemma utoa_length_mono : forall a b, (0 <= a <= b)%Z ->
  length (utoa a) <= length (utoa b).
Proof.
  intros a b Hab.
  destruct (utoa_spec a) as (Hna & _ & _ & _ & Hga); [lia|].
  destruct (utoa_spec b) as (Hnb & _ & _ & Hlb & _); [lia|].
  destruct Hga as [H1 | Hga].
  - rewrite H1. destruct (utoa b); [congruence | simpl; lia].
  - assert (H : (10 ^ (Z.of_nat (length (utoa a)) - 1)
                 < 10 ^ Z.of_nat (length (utoa b)))%Z) by lia.
    apply Z.pow_lt_mono_r_iff in H; lia.
Qed.

Lemma parseDigits_digits : forall s v,
  Forall isDigit s -> parseDigits s v = Some (fold_left digitStep s v).
Proof.
  induction s as [|c s IH]; intros v H; simpl; [reflexivity|].
  inversion H as [|? ? Hc Hs]; subst.
  unfold digitVal, inRange. unfold isDigit in Hc.
  replace ((48 <=? code c)%N && (code c <=? 57)%N) with true.
  - rewrite IH by assumption. reflexivity.
  - symmetry. apply andb_true_intro. split; apply N.leb_le; lia.
Qed.

(** [FormatInt] is made of digits and a sign. *)
Lemma FormatInt_chars : forall n x,
  In x (FormatInt n) -> isDigit x \/ x = "-"%char.
Proof.
  intros n x. unfold FormatInt. destruct (n <? 0)%Z eqn:E.
  - apply Z.ltb_lt in E. intros [<- | Hin]; [now right | left].
    destruct (utoa_spec (- n)) as (_ & Hd & _); [lia|].
    rewrite Forall_forall in Hd. now apply Hd.
  - apply Z.ltb_ge in E. intro Hin. left.
    destruct (utoa_spec n) as (_ & Hd & _); [lia|].
    rewrite Forall_forall in Hd. now apply Hd.
Qed.

Lemma FormatInt_inj : forall a b, FormatInt a = FormatInt b -> a = b.
Proof.
  intros a b. unfold FormatInt.
  destruct (a <? 0)%Z eqn:Ea; destruct (b <? 0)%Z eqn:Eb;
    try apply Z.ltb_lt in Ea; try apply Z.ltb_ge in Ea;
    try apply Z.ltb_lt in Eb; try apply Z.ltb_ge in Eb; intro H.
  - injection H as H.
    destruct (utoa_spec (- a)) as (_ & _ & Ha & _); [lia|].
    destruct (utoa_spec (- b)) as (_ & _ & Hb & _); [lia|].
    rewrite H in Ha. lia.
  - exfalso. destruct (utoa_spec b) as (_ & Hd & _); [lia|].
    rewrite <- H in Hd. inversion Hd as [|? ? Hc _]; subst.
    unfold isDigit in Hc. vm_compute in Hc. destruct Hc as [Hc _]. now apply Hc.
  - exfalso. destruct (utoa_spec a) as (_ & Hd & _); [lia|].
    rewrite H in Hd. inversion Hd as [|? ? Hc _]; subst.
    unfold isDigit in Hc. vm_compute in Hc. destruct Hc as [Hc _]. now apply Hc.
  - destruct (utoa_spec a) as (_ & _ & Ha & _); [lia|].
    destruct (utoa_spec b) as (_ & _ & Hb & _); [lia|].
    rewrite H in Ha. lia.
Qed.

(** ** Padding *)

(** The sign tests of [FormatInt] and [padInt] on numbers that are not
    negative. *)
Ltac not_negative :=
  repeat match goal with
         | |- context [(?x <? 0)%Z] =>
             replace (x <? 0)%Z with false by (symmetry; apply Z.ltb_ge; lia)
         end.

Lemma repeat_SP_spaces : forall n x, In x (repeat SP n) -> x = SP.
Proof. intros n x H. now apply repeat_spec in H. Qed.

Lemma padInt_chars : forall width n x,
  In x (padInt width n) -> x = SP \/ isDigit x \/ x = "-"%char.
Proof.
  intros width n x. unfold padInt.
  destruct (width <? 0)%Z; rewrite in_app_iff; intros [H | H];
    try (left; now apply repeat_SP_spaces in H);
    right; now apply FormatInt_chars in H.
Qed.

Lemma padInt_no_byte : forall width n x,
  x <> SP -> x <> "-"%char -> ~ (48 <= code x <= 57)%N ->
  ~ In x (padInt width n).
Proof.
  intros width n x H1 H2 H3 Hin.
  apply padInt_chars in Hin. destruct Hin as [H | [H | H]]; auto.
Qed.

Lemma padInt_no_GS : forall width n, ~ In _asciiGS (padInt width n).
Proof.
  intros. apply padInt_no_byte; try discriminate. vm_compute. intros [H _].
  now apply H.
Qed.

Lemma padInt_no_NL : forall width n, ~ In NL (padInt width n).
Proof.
  intros. apply padInt_no_byte; try discriminate. vm_compute. intros [H _].
  now apply H.
Qed.

Lemma filter_spaces : forall n, filter notSpace (repeat SP n) = [].
Proof. induction n; simpl; auto. Qed.

Lemma FormatInt_notSpace : forall n,
  filter notSpace (FormatInt n) = FormatInt n.
Proof.
  intro n. apply forallb_filter_id. apply forallb_forall. intros x Hx.
  apply FormatInt_chars in Hx. unfold notSpace, isSpace.
  destruct (byteEq x SP) eqn:E; [|reflexivity].
  apply byteEq_true in E. subst x. exfalso. destruct Hx as [H | H].
  - unfold isDigit in H. vm_compute in H. destruct H as [H _]. now apply H.
  - discriminate.
Qed.

Lemma padInt_digits : forall width n,
  filter notSpace (padInt width n) = FormatInt n.
Proof.
  intros. unfold padInt.
  destruct (width <? 0)%Z; rewrite filter_app, filter_spaces, FormatInt_notSpace.
  - apply app_nil_r.
  - reflexivity.
Qed.

Lemma padInt_inj : forall width a b, padInt width a = padInt width b -> a = b.
Proof.
  intros width a b H. apply FormatInt_inj.
  rewrite <- (padInt_digits width a), <- (padInt_digits width b). now rewrite H.
Qed.

(** ** Splitting a key at the group separator *)

Lemma app_sep_inj_right : forall (x : byte) k1 k2 o1 o2,
  k1 ++ x :: o1 = k2 ++ x :: o2 -> ~ In x o1 -> ~ In x o2 ->
  k1 = k2 /\ o1 = o2.
Proof.
  intros x. induction k1 as [|c k1 IH]; intros [|c' k2] o1 o2 H H1 H2; simpl in H.
  - injection H as ->. now split.
  - injection H as <- ->. exfalso. apply H1. apply in_or_app. right. now left.
  - injection H as -> <-. exfalso. apply H2. apply in_or_app. right. now left.
  - injection H as -> H. destruct (IH _ _ _ H H1 H2) as [-> ->]. now split.
Qed.

Lemma app_sep_inj_left : forall (x : byte) k1 k2 o1 o2,
  k1 ++ x :: o1 = k2 ++ x :: o2 -> ~ In x k1 -> ~ In x k2 ->
  k1 = k2 /\ o1 = o2.
Proof.
  intros x. induction k1 as [|c k1 IH]; intros [|c' k2] o1 o2 H H1 H2; simpl in H.
  - injection H as ->. now split.
  - injection H as <- _. exfalso. apply H2. now left.
  - injection H as -> _. exfalso. apply H1. now left.
  - injection H as -> H.
    destruct (IH _ _ _ H) as [-> ->].
    + intro Hin. apply H1. now right.
    + intro Hin. apply H2. now right.
    + now split.
Qed.

(** ** The key encoder *)

Lemma index_Ok {A : Type} : forall (l : list A) i,
  (0 <= i < Z.of_nat (length l))%Z ->
  exists x, index l i = Ok x /\ In x l.
Proof.
  intros l i Hi. unfold index.
  destruct (i <? 0)%Z eqn:E; [apply Z.ltb_lt in E; lia|].
  destruct (nth_error l (Z.to_nat i)) as [x|] eqn:En.
  - exists x. split; [reflexivity|]. eapply nth_error_In; eauto.
  - apply nth_error_None in En. lia.
Qed.

Lemma index_Panic {A : Type} : forall (l : list A) i,
  ~ (0 <= i < Z.of_nat (length l))%Z -> index l i = Fail Panic.
Proof.
  intros l i Hi. unfold index.
  destruct (i <? 0)%Z eqn:E; [reflexivity|]. apply Z.ltb_ge in E.
  destruct (nth_error l (Z.to_nat i)) as [x|] eqn:En; [|reflexivity].
  exfalso. apply Hi. split; [assumption|].
  assert (Z.to_nat i < length l) by (apply nth_error_Some; congruence). lia.
Qed.

Lemma index_cases {A : Type} : forall (l : list A) i,
  (exists x, index l i = Ok x /\ In x l) \/ index l i = Fail Panic.
Proof.
  intros l i.
  destruct (Z_lt_dec i 0) as [H|H]; [right; apply index_Panic; lia|].
  destruct (Z_lt_dec i (Z.of_nat (length l))) as [H'|H'].
  - left. apply index_Ok. lia.
  - right. apply index_Panic. lia.
Qed.

(** The fields of a key: each one is a selected field after its padding. *)
Lemma keyFields_Ok : forall fields keySpecs key,
  Forall (hasField fields) keySpecs ->
  exists body, keyFields fields keySpecs key = Ok (key ++ body) /\
    forall x, In x body -> x = SP \/ exists f, In f fields /\ In x f.
Proof.
  intros fields keySpecs. induction keySpecs as [|v rest IH]; intros key H.
  - exists []. simpl. rewrite app_nil_r. split; [reflexivity | contradiction].
  - inversion H as [|? ? Hv Hrest]; subst. simpl.
    destruct (index_Ok fields (COLIDX v) Hv) as (f & -> & Hf). simpl.
    destruct (IH (key ++ padString (FORMAT v) f) Hrest) as (body & -> & Hbody).
    exists (padString (FORMAT v) f ++ body). split.
    + now rewrite app_assoc.
    + intros x Hx. apply in_app_or in Hx. destruct Hx as [Hx | Hx]; [|auto].
      unfold padString in Hx. apply in_app_or in Hx. destruct Hx as [Hx | Hx].
      * left. now apply repeat_SP_spaces in Hx.
      * right. eauto.
Qed.

Lemma keyFields_Panic : forall fields keySpecs key,
  ~ Forall (hasField fields) keySpecs ->
  keyFields fields keySpecs key = Fail Panic.
Proof.
  intros fields keySpecs. induction keySpecs as [|v rest IH]; intros key H.
  - exfalso. apply H. constructor.
  - simpl. destruct (index_cases fields (COLIDX v)) as [(f & Hf & _) | Hp].
    + rewrite Hf. simpl. apply IH. intro Hrest. apply H. constructor; [|assumption].
      unfold hasField. unfold index in Hf.
      destruct (COLIDX v <? 0)%Z eqn:E; [discriminate|]. apply Z.ltb_ge in E.
      destruct (nth_error fields (Z.to_nat (COLIDX v))) eqn:En; [|discriminate].
      assert (Z.to_nat (COLIDX v) < length fields) by (apply nth_error_Some; congruence).
      lia.
    + now rewrite Hp.
Qed.

Lemma hasField_dec : forall fields v,
  {hasField fields v} + {~ hasField fields v}.
Proof.
  intros fields v. unfold hasField.
  destruct (Z_le_dec 0 (COLIDX v));
    destruct (Z_lt_dec (COLIDX v) (Z.of_nat (length fields)));
    ((left; lia) || (right; lia)).
Qed.

(** The shape of a composite key. *)
Lemma makeCompositeKeyFn_Ok : forall fieldSep sortSpecs seekLen record recordStart key,
  makeCompositeKeyFn fieldSep sortSpecs seekLen record recordStart = Ok key ->
  exists body, key = body ++ _asciiGS :: padInt seekLen recordStart /\
    forall x, In x body ->
      x = SP \/ exists f, In f (Split record fieldSep) /\ In x f.
Proof.
  intros fieldSep sortSpecs seekLen record recordStart key.
  unfold makeCompositeKeyFn.
  destruct (Forall_Exists_dec (hasField (Split record fieldSep))
              (hasField_dec (Split record fieldSep)) sortSpecs)
    as [Hall | Hex].
  - destruct (keyFields_Ok (Split record fieldSep) sortSpecs [] Hall)
      as (body & Hk & Hbody).
    rewrite Hk. simpl. intro H. injection H as <-. exists body. now split.
  - rewrite keyFields_Panic; [discriminate|].
    intro Hall. apply Exists_exists in Hex. destruct Hex as (v & Hin & Hv).
    rewrite Forall_forall in Hall. auto.
Qed.

(** C4, as the claim has it, fails: right-justified to width 2, ["b"] stands
    before ["ab"], and ["b"] is the greater of the two. *)
Lemma padString_order_counterexample :
  length (str "b") <= 2 /\ length (str "ab") <= 2 /\
  ~ (leStr (padString 2 (str "b")) (padString 2 (str "ab")) = true
     <-> leStr (str "b") (str "ab") = true).
Proof.
  split; [simpl; lia|]. split; [simpl; lia|].
  intros [H _]. specialize (H eq_refl). discriminate.
Qed.

(** C4, amended: for two field values of the same number of characters,
    right-justifying both to a width [w] keeps their order: the padded values
    compare as the values do. *)
Theorem padString_order : forall (w : nat) (a b : gostring),
  RuneCountInString a = RuneCountInString b ->
  (leStr (padString w a) (padString w b) = true <-> leStr a b = true).
Proof.
  intros w a b H. unfold leStr, padString. rewrite H, ltStr_app. reflexivity.
Qed.

Lemma padString_order_witness :
  RuneCountInString (str "ab") = RuneCountInString (str "ba") /\
  (leStr (padString 5 (str "ab")) (padString 5 (str "ba")) = true
   <-> leStr (str "ab") (str "ba") = true).
Proof.
  split; [reflexivity | apply (padString_order 5 (str "ab") (str "ba")); reflexivity].
Defined.

(** C5: two composite keys made for different offsets are different strings,
    whatever the records and their fields. *)
Theorem compositeKey_distinct :
  forall fieldSep sortSpecs seekLen record1 record2 start1 start2 k1 k2,
  start1 <> start2 ->
  makeCompositeKeyFn fieldSep sortSpecs seekLen record1 start1 = Ok k1 ->
  makeCompositeKeyFn fieldSep sortSpecs seekLen record2 start2 = Ok k2 ->
  k1 <> k2.
Proof.
  intros fieldSep sortSpecs seekLen record1 record2 start1 start2 k1 k2 Hne H1 H2 E.
  apply makeCompositeKeyFn_Ok in H1, H2.
  destruct H1 as (b1 & -> & _). destruct H2 as (b2 & -> & _).
  apply app_sep_inj_right in E; try apply padInt_no_GS.
  destruct E as [_ E]. apply padInt_inj in E. contradiction.
Qed.

Lemma compositeKey_distinct_witness :
  str "A" ++ _asciiGS :: str " 0" <> str "A" ++ _asciiGS :: str " 4".
Proof.
  apply (compositeKey_distinct [TAB] [{| COLIDX := 1; FORMAT := 1 |}] 2
           (str "1" ++ TAB :: str "A") (str "2" ++ TAB :: str "A") 0%Z 4%Z).
  - discriminate.
  - reflexivity.
  - reflexivity.
Defined.

(** C7, as the claim has it, fails: for a record that lacks a selected field
    the encoder ends in a runtime panic (the index is out of range); it does
    not halt with a message, and no error of the kind MalformedRecord
    exists. *)
Lemma compositeKey_missing_field_counterexample :
  makeCompositeKeyFn [TAB] [{| COLIDX := 1; FORMAT := 1 |}] 1 (str "a") 0%Z
    = Fail Panic /\
  forall msg,
    makeCompositeKeyFn [TAB] [{| COLIDX := 1; FORMAT := 1 |}] 1 (str "a") 0%Z
      <> Fail (Halt msg).
Proof. split; [reflexivity | discriminate]. Qed.

(** C7, amended: for a record in which a column of the key spec is missing,
    the key encoder ends in a runtime panic (index out of range); for a
    record that has every column of the key spec it returns a composite
    key. *)
Theorem compositeKey_missing_field :
  forall fieldSep sortSpecs seekLen record recordStart,
  fieldSep <> [] ->
  (Forall (hasField (Split record fieldSep)) sortSpecs ->
   exists key,
     makeCompositeKeyFn fieldSep sortSpecs seekLen record recordStart = Ok key) /\
  (~ Forall (hasField (Split record fieldSep)) sortSpecs ->
   makeCompositeKeyFn fieldSep sortSpecs seekLen record recordStart = Fail Panic).
Proof.
  intros fieldSep sortSpecs seekLen record recordStart _.
  unfold makeCompositeKeyFn. split; intro H.
  - destruct (keyFields_Ok _ _ [] H) as (body & -> & _). simpl. eauto.
  - now rewrite keyFields_Panic.
Qed.

Lemma compositeKey_missing_field_witness :
  (exists key,
     makeCompositeKeyFn [TAB] [{| COLIDX := 1; FORMAT := 1 |}] 1
       (str "a" ++ TAB :: str "b") 0%Z = Ok key) /\
  makeCompositeKeyFn [TAB] [{| COLIDX := 1; FORMAT := 1 |}] 1 (str "a") 0%Z
    = Fail Panic.
Proof.
  split.
  - apply (compositeKey_missing_field [TAB] [{| COLIDX := 1; FORMAT := 1 |}] 1
             (str "a" ++ TAB :: str "b") 0%Z); [discriminate|].
    repeat constructor; vm_compute; congruence.
  - apply (compositeKey_missing_field [TAB] [{| COLIDX := 1; FORMAT := 1 |}] 1
             (str "a") 0%Z); [discriminate|].
    intro H. inversion H as [|? ? Hv _]; subst. vm_compute in Hv.
    destruct Hv as [_ Hv]. discriminate.
Defined.

(** ** Reading records *)

Lemma readString_app : forall reader record eof rest,
  readString reader = (record, eof, rest) -> reader = record ++ rest.
Proof.
  induction reader as [|c r IH]; intros record eof rest; simpl.
  - intro H. injection H as <- <- <-. reflexivity.
  - destruct (byteEq c NL).
    + intro H. injection H as <- <- <-. reflexivity.
    + destruct (readString r) as [[rec' eof'] rest'].
      intro H. injection H as <- <- <-. simpl. f_equal. now apply IH with eof'.
Qed.

Lemma readString_line : forall body rest,
  ~ In NL body ->
  readString (body ++ NL :: rest) = (body ++ [NL], false, rest).
Proof.
  induction body as [|c body IH]; intros rest H; simpl.
  - reflexivity.
  - destruct (byteEq c NL) eqn:E.
    + apply byteEq_true in E. subst c. exfalso. apply H. now left.
    + rewrite IH; [reflexivity|]. intro Hin. apply H. now right.
Qed.

Lemma readString_tail : forall s,
  ~ In NL s -> readString s = (s, true, []).
Proof.
  induction s as [|c s IH]; intro H; simpl; [reflexivity|].
  destruct (byteEq c NL) eqn:E.
  - apply byteEq_true in E. subst c. exfalso. apply H. now left.
  - rewrite IH; [reflexivity|]. intro Hin. apply H. now right.
Qed.

(** What [readString] returns: a line with its newline, or at the end of the
    input what is left of it. *)
Lemma readString_cases : forall reader,
  (exists body rest, ~ In NL body /\ reader = body ++ NL :: rest /\
     readString reader = (body ++ [NL], false, rest)) \/
  (~ In NL reader /\ readString reader = (reader, true, [])).
Proof.
  induction reader as [|c r IH].
  - right. split; [intros [] | reflexivity].
  - destruct (byteEq c NL) eqn:E.
    + apply byteEq_true in E. subst c. left. exists [], r.
      split; [intros [] |]. split; reflexivity.
    + apply byteEq_false in E.
      destruct IH as [(body & rest & Hb & -> & Hr) | [Hn Hr]].
      * left. exists (c :: body), rest. split.
        { intros [H | H]; [now apply E | now apply Hb]. }
        split; [reflexivity|]. apply (readString_line (c :: body)).
        intros [H | H]; [now apply E | now apply Hb].
      * right. split.
        { intros [H | H]; [now apply E | now apply Hn]. }
        apply readString_tail. intros [H | H]; [now apply E | now apply Hn].
Qed.

Lemma readsFuel_enough : forall fuel1 fuel2 reader,
  length reader < fuel1 -> length reader < fuel2 ->
  readsFuel fuel1 reader = readsFuel fuel2 reader.
Proof.
  induction fuel1 as [|fuel1 IH]; intros fuel2 reader H1 H2; [lia|].
  destruct fuel2 as [|fuel2]; [lia|]. simpl.
  destruct (readString_cases reader) as [(body & rest & Hb & -> & Hr) | [Hn Hr]];
    rewrite Hr.
  - f_equal. rewrite length_app in H1, H2. simpl in H1, H2. apply IH; lia.
  - reflexivity.
Qed.

(** The loop over the records, one turn unfolded. *)
Lemma reads_line : forall body rest,
  ~ In NL body ->
  reads (body ++ NL :: rest) = (body ++ [NL], false) :: reads rest.
Proof.
  intros body rest H. unfold reads at 1. cbn [readsFuel].
  rewrite readString_line by assumption. f_equal.
  apply readsFuel_enough; [|lia]. rewrite length_app. simpl. lia.
Qed.

Lemma reads_tail : forall s, ~ In NL s -> reads s = [(s, true)].
Proof.
  intros s H. unfold reads. cbn [readsFuel].
  now rewrite readString_tail by assumption.
Qed.

(** Induction over the records of a file: the lines that end in a newline,
    then what follows the last newline. *)
Lemma reads_ind : forall (P : gostring -> Prop),
  (forall s, ~ In NL s -> P s) ->
  (forall body rest, ~ In NL body -> P rest -> P (body ++ NL :: rest)) ->
  forall s, P s.
Proof.
  intros P Htail Hline s.
  remember (length s) as n eqn:Hn. revert s Hn.
  induction n as [n IH] using lt_wf_ind. intros s Hn.
  destruct (readString_cases s) as [(body & rest & Hb & -> & _) | [Hs _]].
  - apply Hline; [assumption|]. apply (IH (length rest)); [|reflexivity].
    subst n. rewrite length_app. simpl. lia.
  - now apply Htail.
Qed.

Lemma reads_concat : forall s, concat (map fst (reads s)) = s.
Proof.
  intro s. pattern s. apply reads_ind; clear s.
  - intros s H. rewrite reads_tail by assumption. simpl. apply app_nil_r.
  - intros body rest Hb IH. rewrite reads_line by assumption. simpl.
    rewrite IH, <- app_assoc. reflexivity.
Qed.

Lemma reads_first : forall s,
  exists eof rest, reads s = (fst (fst (readString s)), eof) :: rest.
Proof.
  intro s.
  destruct (readString_cases s) as [(body & rest & Hb & -> & Hr) | [Hs Hr]];
    rewrite Hr; simpl.
  - rewrite reads_line by assumption. eauto.
  - rewrite reads_tail by assumption. eauto.
Qed.

(** ** The pre-pass *)

Lemma growWidths_Ok : forall fields widths,
  length fields <= length widths ->
  exists ws, growWidths widths fields = Ok ws /\ length ws = length widths.
Proof.
  induction fields as [|v fields IH]; intros widths H.
  - exists widths. destruct widths; now split.
  - destruct widths as [|w widths]; simpl in H; [lia|]. simpl.
    destruct (IH widths) as (ws & -> & Hlen); [lia|].
    simpl. exists (Nat.max w (length v) :: ws). split; [reflexivity|].
    simpl. now rewrite Hlen.
Qed.

Lemma growWidths_Panic : forall fields widths,
  length widths < length fields -> growWidths widths fields = Fail Panic.
Proof.
  induction fields as [|v fields IH]; intros widths H; simpl in H; [lia|].
  destruct widths as [|w widths]; simpl; [reflexivity|].
  simpl in H. rewrite IH by lia. reflexivity.
Qed.

(** The pre-pass panics as soon as a record has more fields than [widths]
    has entries. *)
Lemma fieldWidths_Panic : forall sep rds widths record eof,
  In (record, eof) rds ->
  length widths < length (Split (Trim blank record) sep) ->
  fieldWidths sep rds widths = Fail Panic.
Proof.
  intros sep. induction rds as [|[r e] rds IH]; intros widths record eof Hin Hlen.
  - contradiction.
  - simpl.
    destruct (Nat.le_gt_cases (length (Split (Trim blank r) sep)) (length widths))
      as [Hle | Hgt].
    + destruct (growWidths_Ok _ _ Hle) as (ws & -> & Hws). simpl.
      destruct Hin as [Heq | Hin].
      * injection Heq as -> ->. lia.
      * apply IH with record eof; [assumption | lia].
    + now rewrite growWidths_Panic.
Qed.

Lemma isEmpty_false : forall s : gostring, s <> [] -> isEmpty s = false.
Proof. intros [|c s] H; [congruence | reflexivity]. Qed.

Lemma length_eqb_false : forall s : gostring, s <> [] -> (length s =? 0) = false.
Proof. intros [|c s] H; [congruence | reflexivity]. Qed.

(** C9: when a record of the file has more fields than the first record as
    it is read, the pass that gets the field widths indexes [widths] out of
    range and [Sort] ends in a runtime panic, before any file is created. *)
Theorem Sort_prepass_out_of_range :
  forall glob w inFile outFile sortAsc usingFields sep keysPerSort verbose
         source record eof,
  inFile <> [] -> outFile <> [] -> usingFields <> [] -> keysPerSort <> 0%Z ->
  files w inFile = Some source -> source <> [] -> sep <> [] ->
  In (record, eof) (reads source) ->
  length (Split (fst (fst (readString source))) sep)
    < length (Split (Trim blank record) sep) ->
  Sort glob w inFile outFile sortAsc usingFields sep keysPerSort verbose
    = (w, Fail Panic).
Proof.
  intros glob w inFile outFile sortAsc usingFields sep keysPerSort verbose
         source record eof Hin Hout Hf Hk Hsrc Hne _ Hrec Hlen.
  unfold Sort.
  rewrite (isEmpty_false _ Hin), (isEmpty_false _ Hout), (isEmpty_false _ Hf).
  apply Z.eqb_neq in Hk. rewrite Hk, Hsrc, (length_eqb_false _ Hne).
  destruct (readString source) as [[first eof1] rest1]. simpl in Hlen.
  rewrite (fieldWidths_Panic sep (reads source) _ record eof Hrec).
  - reflexivity.
  - now rewrite repeat_length.
Qed.

Lemma Sort_prepass_out_of_range_witness :
  Sort globInOrder (oneFile raggedSource) (str "in") (str "out") true (str "1")
       [TAB] 10%Z false
  = (oneFile raggedSource, Fail Panic).
Proof.
  apply (Sort_prepass_out_of_range globInOrder (oneFile raggedSource)
           (str "in") (str "out") true (str "1") [TAB] 10%Z false
           raggedSource (str "b" ++ TAB :: str "c" ++ [NL]) false);
    try discriminate; try reflexivity.
  - vm_compute. right. left. reflexivity.
  - vm_compute. lia.
Defined.

(** C6, as the claim has it, fails: a negative batch size is accepted; all
    the keys then make one batch, and the sort runs to its end. *)
Lemma Sort_negative_batch_counterexample :
  snd (Sort globInOrder (oneFile unsortedSource) (str "in") (str "out") true
            (str "1") [TAB] (-1)%Z false) = Ok tt /\
  files (fst (Sort globInOrder (oneFile unsortedSource) (str "in") (str "out")
                   true (str "1") [TAB] (-1)%Z false)) (str "out")
    = Some (str "a" ++ NL :: str "b" ++ [NL]) /\
  forall msg,
    snd (Sort globInOrder (oneFile unsortedSource) (str "in") (str "out") true
              (str "1") [TAB] (-1)%Z false) <> Fail (Halt msg).
Proof.
  split; [vm_compute; reflexivity|].
  split; [vm_compute; reflexivity|].
  intros msg H. vm_compute in H. discriminate.
Qed.

(** C6, amended: [Sort] halts at once, with no file created or changed,
    when the source path is empty, the destination path is empty, the list of
    field indexes is empty, the batch size is zero, the source path does not
    exist, or the source file is empty. *)
Theorem Sort_rejects_arguments :
  forall glob w inFile outFile sortAsc usingFields sep keysPerSort verbose,
  inFile = [] \/ outFile = [] \/ usingFields = [] \/ keysPerSort = 0%Z \/
  files w inFile = None \/ files w inFile = Some [] ->
  exists msg,
    Sort glob w inFile outFile sortAsc usingFields sep keysPerSort verbose
      = (w, Fail (Halt msg)).
Proof.
  intros glob w inFile outFile sortAsc usingFields sep keysPerSort verbose H.
  unfold Sort.
  destruct (isEmpty inFile) eqn:E1; [eauto|].
  destruct (isEmpty outFile) eqn:E2; [eauto|].
  destruct (isEmpty usingFields) eqn:E3; [eauto|].
  destruct (keysPerSort =? 0)%Z eqn:E4; [eauto|].
  destruct (files w inFile) as [source|] eqn:E5; [|eauto].
  destruct (length source =? 0) eqn:E6; [eauto|].
  exfalso. destruct H as [-> | [-> | [-> | [-> | [H | H]]]]]; try discriminate.
  injection H as ->. discriminate.
Qed.

Lemma Sort_rejects_arguments_witness :
  exists msg,
    Sort globInOrder (oneFile unsortedSource) (str "in") (str "out") true
         (str "1") [TAB] 0%Z false
      = (oneFile unsortedSource, Fail (Halt msg)).
Proof.
  apply (Sort_rejects_arguments globInOrder (oneFile unsortedSource)
           (str "in") (str "out") true (str "1") [TAB] 0%Z false).
  right. right. right. left. reflexivity.
Defined.

(** ** The two-way merge of sorted lists *)

Lemma mergeLines_nil_l : forall sortAsc l2, mergeLines sortAsc [] l2 = l2.
Proof. intros sortAsc [|b l2]; reflexivity. Qed.

Lemma mergeLines_nil_r : forall sortAsc l1, mergeLines sortAsc l1 [] = l1.
Proof. intros sortAsc [|a l1]; reflexivity. Qed.

Lemma mergeLines_cons : forall sortAsc a l1 b l2,
  mergeLines sortAsc (a :: l1) (b :: l2) =
  if less sortAsc a b then a :: mergeLines sortAsc l1 (b :: l2)
  else b :: mergeLines sortAsc (a :: l1) l2.
Proof. reflexivity. Qed.

Lemma mergeLines_perm : forall sortAsc l1 l2,
  Permutation (mergeLines sortAsc l1 l2) (l1 ++ l2).
Proof.
  intros sortAsc. induction l1 as [|a l1 IH1]; intro l2.
  - rewrite mergeLines_nil_l. apply Permutation_refl.
  - induction l2 as [|b l2 IH2].
    + rewrite mergeLines_nil_r, app_nil_r. apply Permutation_refl.
    + rewrite mergeLines_cons. destruct (less sortAsc a b).
      * simpl. apply perm_skip. apply IH1.
      * apply Permutation_trans with (b :: (a :: l1) ++ l2).
        -- apply perm_skip. apply IH2.
        -- apply Permutation_middle.
Qed.

Lemma mergeLines_HdRel : forall sortAsc x l1 l2,
  HdRel (inOrder sortAsc) x l1 -> HdRel (inOrder sortAsc) x l2 ->
  HdRel (inOrder sortAsc) x (mergeLines sortAsc l1 l2).
Proof.
  intros sortAsc x [|a l1] [|b l2] H1 H2; try assumption.
  rewrite mergeLines_cons. inversion H1; inversion H2; subst.
  destruct (less sortAsc a b); now constructor.
Qed.

Lemma less_false_inOrder : forall sortAsc a b,
  less sortAsc a b = false -> inOrder sortAsc b a.
Proof. intros sortAsc a b H. exact H. Qed.

Lemma mergeLines_sorted : forall sortAsc l1 l2,
  Sorted (inOrder sortAsc) l1 -> Sorted (inOrder sortAsc) l2 ->
  Sorted (inOrder sortAsc) (mergeLines sortAsc l1 l2).
Proof.
  intros sortAsc. induction l1 as [|a l1 IH1]; intros l2 H1 H2.
  - now rewrite mergeLines_nil_l.
  - induction l2 as [|b l2 IH2].
    + now rewrite mergeLines_nil_r.
    + rewrite mergeLines_cons.
      inversion H1 as [|? ? Hs1 Hh1]; inversion H2 as [|? ? Hs2 Hh2]; subst.
      destruct (less sortAsc a b) eqn:E.
      * constructor; [now apply IH1|].
        apply mergeLines_HdRel; [assumption|].
        constructor. now apply less_inOrder.
      * constructor; [now apply IH2|].
        apply mergeLines_HdRel; [|assumption].
        constructor. now apply less_false_inOrder.
Qed.

(** ** The merge coroutine on two key files *)

Lemma keyLine_nonempty : forall a, keyLine a -> isEmpty a = false.
Proof.
  intros a (key & -> & _). destruct key; reflexivity.
Qed.

Lemma keyLine_read : forall a rest,
  keyLine a -> readString (a ++ rest) = (a, false, rest).
Proof.
  intros a rest (key & -> & Hk). rewrite <- app_assoc. simpl.
  apply readString_line. rewrite Forall_forall in Hk. intro Hin.
  now apply (Hk NL).
Qed.

Lemma reads_lines : forall p,
  Forall keyLine p ->
  reads (concat p) = map (fun a => (a, false)) p ++ [([], true)].
Proof.
  induction p as [|a p IH]; intro H.
  - reflexivity.
  - inversion H as [|? ? Ha Hp]; subst. destruct Ha as (key & -> & Hk).
    simpl. rewrite <- app_assoc. simpl. rewrite reads_line.
    + now rewrite IH.
    + rewrite Forall_forall in Hk. intro Hin. now apply (Hk NL).
Qed.

Lemma drain_lines : forall p out,
  Forall keyLine p ->
  drain [] false (concat p) out = ([], out ++ concat p).
Proof.
  intros p out H. unfold drain. simpl.
  rewrite reads_concat. f_equal.
  rewrite reads_lines by assumption. rewrite map_app. simpl.
  apply last_last.
Qed.

Lemma drain_key_lines : forall a p out,
  keyLine a -> Forall keyLine p ->
  drain a false (concat p) out = ([], out ++ a ++ concat p).
Proof.
  intros a p out Ha H. unfold drain. rewrite (keyLine_nonempty a Ha).
  rewrite reads_concat, <- app_assoc. f_equal.
  rewrite reads_lines by assumption. rewrite map_app. simpl.
  apply last_last.
Qed.

(** The key that takes part in the comparison, after the read when none was
    current. *)
Lemma live_load : forall p key err reader,
  live p key err reader ->
  (p = [] /\
   (if isEmpty key then readString reader else (key, err, reader))
     = ([], true, [])) \/
  (exists a rest, p = a :: rest /\ keyLine a /\ Forall keyLine rest /\
   (if isEmpty key then readString reader else (key, err, reader))
     = (a, false, concat rest)).
Proof.
  intros p key err reader (-> & Hp & [[-> ->] | (a & rest & -> & -> & ->)]).
  - destruct p as [|a rest].
    + left. split; reflexivity.
    + right. inversion Hp; subst. exists a, rest. repeat split; try assumption.
      simpl. now apply keyLine_read.
  - right. inversion Hp; subst. exists a, rest. repeat split; try assumption.
    now rewrite keyLine_nonempty.
Qed.

Lemma mergeLoop_done : forall fuel sortAsc m,
  mergeCond m = false -> mergeLoop fuel sortAsc m = Ok m.
Proof. intros [|fuel] sortAsc m H; simpl; now rewrite H. Qed.

Lemma ltStr_nil_l : forall a, isEmpty a = false -> ltStr [] a = true.
Proof. intros [|c a] H; [discriminate | reflexivity]. Qed.

Lemma ltStr_nil_r : forall a, ltStr a [] = false.
Proof. intros [|c a]; reflexivity. Qed.

(** The loop and what follows it write the merge of the lines that were
    pending, and leave [key1] and [key2] empty. *)
Lemma mergeLoop_lines : forall sortAsc n p1 p2 fuel m,
  length p1 + length p2 = n -> n < fuel ->
  live p1 (key1 m) (errKeys1 m) (reader1 m) ->
  live p2 (key2 m) (errKeys2 m) (reader2 m) ->
  exists m', mergeLoop fuel sortAsc m = Ok m' /\
    mergeRest m' = (writer m ++ concat (mergeLines sortAsc p1 p2), ([], [])).
Proof.
  intros sortAsc. induction n as [n IH] using lt_wf_ind.
  intros p1 p2 fuel m Hn Hfuel H1 H2.
  destruct fuel as [|fuel]; [lia|].
  assert (Hc : mergeCond m = true).
  { unfold mergeCond. destruct H1 as (-> & _). destruct H2 as (-> & _).
    simpl. now rewrite !orb_true_r. }
  cbn [mergeLoop]. rewrite Hc.
  pose proof (live_load _ _ _ _ H1) as L1.
  pose proof (live_load _ _ _ _ H2) as L2.
  unfold mergeStep.
  destruct L1 as [[-> E1] | (a & r1 & -> & Ha & Hr1 & E1)];
    destruct L2 as [[-> E2] | (b & r2 & -> & Hb & Hr2 & E2)];
    rewrite E1, E2.
  - (* both files are exhausted *)
    replace (if sortAsc then ltStr [] [] else gtStr [] []) with false
      by (destruct sortAsc; reflexivity).
    eexists. split; [apply mergeLoop_done; reflexivity|].
    unfold mergeRest, drain. simpl. now rewrite !app_nil_r.
  - (* the first file is exhausted *)
    destruct sortAsc.
    + rewrite (ltStr_nil_l b (keyLine_nonempty b Hb)).
      eexists. split; [apply mergeLoop_done; reflexivity|].
      unfold mergeRest.
      cbn [key1 key2 errKeys1 errKeys2 reader1 reader2 writer isEmpty negb orb].
      rewrite (drain_key_lines b r2 _ Hb Hr2).
      rewrite mergeLines_nil_l, app_nil_r. reflexivity.
    + unfold gtStr. rewrite ltStr_nil_r.
      eexists. split; [apply mergeLoop_done; reflexivity|].
      unfold mergeRest.
      cbn [key1 key2 errKeys1 errKeys2 reader1 reader2 writer isEmpty negb orb].
      rewrite (drain_lines r2 _ Hr2).
      rewrite mergeLines_nil_l, <- app_assoc. reflexivity.
  - (* the second file is exhausted *)
    destruct sortAsc.
    + rewrite ltStr_nil_r.
      eexists. split.
      { apply mergeLoop_done. unfold mergeCond.
        cbn [key1 key2 errKeys1 errKeys2 reader1 reader2 writer].
        now rewrite (keyLine_nonempty a Ha). }
      unfold mergeRest.
      cbn [key1 key2 errKeys1 errKeys2 reader1 reader2 writer isEmpty negb orb].
      rewrite (keyLine_nonempty a Ha). cbn [negb orb].
      rewrite (drain_key_lines a r1 _ Ha Hr1).
      rewrite mergeLines_nil_r, app_nil_r. reflexivity.
    + unfold gtStr. rewrite (ltStr_nil_l a (keyLine_nonempty a Ha)).
      eexists. split; [apply mergeLoop_done; reflexivity|].
      unfold mergeRest.
      cbn [key1 key2 errKeys1 errKeys2 reader1 reader2 writer isEmpty negb orb].
      rewrite (drain_lines r1 _ Hr1).
      rewrite mergeLines_nil_r, <- app_assoc. reflexivity.
  - (* a key of each file is current *)
    rewrite mergeLines_cons.
    replace (if sortAsc then ltStr a b else gtStr a b) with (less sortAsc a b)
      by (destruct sortAsc; reflexivity).
    simpl in Hn.
    assert (La : live (a :: r1) a false (concat r1)).
    { split; [reflexivity|]. split; [now constructor|].
      right. exists a, r1. repeat split. }
    assert (Lb : live (b :: r2) b false (concat r2)).
    { split; [reflexivity|]. split; [now constructor|].
      right. exists b, r2. repeat split. }
    assert (L1 : live r1 [] false (concat r1)).
    { split; [reflexivity|]. split; [exact Hr1|]. left. split; reflexivity. }
    assert (L2 : live r2 [] false (concat r2)).
    { split; [reflexivity|]. split; [exact Hr2|]. left. split; reflexivity. }
    destruct (less sortAsc a b).
    + match goal with
      | |- context [mergeLoop fuel sortAsc ?m1] =>
          destruct (IH (length r1 + length (b :: r2)) ltac:(simpl; lia)
                      r1 (b :: r2) fuel m1 eq_refl ltac:(simpl; lia) L1 Lb)
            as (m' & Hm' & Hrest)
      end.
      exists m'. split; [exact Hm'|]. rewrite Hrest.
      cbn [writer]. simpl. now rewrite <- app_assoc.
    + match goal with
      | |- context [mergeLoop fuel sortAsc ?m1] =>
          destruct (IH (length (a :: r1) + length r2) ltac:(simpl; lia)
                      (a :: r1) r2 fuel m1 eq_refl ltac:(simpl; lia) La L2)
            as (m' & Hm' & Hrest)
      end.
      exists m'. split; [exact Hm'|]. rewrite Hrest.
      cbn [writer]. simpl. now rewrite <- app_assoc.
Qed.

Lemma length_concat_lines : forall p,
  Forall keyLine p -> length p <= length (concat p).
Proof.
  induction p as [|a p IH]; intro H; [simpl; lia|].
  inversion H as [|? ? Ha Hp]; subst. simpl. rewrite length_app.
  specialize (IH Hp). destruct Ha as (key & -> & _).
  rewrite length_app. simpl. lia.
Qed.

(** A merge task on two key files, with no key left over from the task
    before. *)
Lemma mergeTask_lines : forall sortAsc l1 l2,
  Forall keyLine l1 -> Forall keyLine l2 ->
  mergeTask sortAsc ([], []) (concat l1) (concat l2)
    = Ok (concat (mergeLines sortAsc l1 l2), ([], [])).
Proof.
  intros sortAsc l1 l2 H1 H2. unfold mergeTask.
  pose proof (length_concat_lines l1 H1). pose proof (length_concat_lines l2 H2).
  assert (L1 : live l1 [] false (concat l1)).
  { split; [reflexivity|]. split; [exact H1|]. left. split; reflexivity. }
  assert (L2 : live l2 [] false (concat l2)).
  { split; [reflexivity|]. split; [exact H2|]. left. split; reflexivity. }
  cbn [fst snd].
  match goal with
  | |- context [mergeLoop ?fuel sortAsc ?m1] =>
      destruct (mergeLoop_lines sortAsc (length l1 + length l2) l1 l2 fuel m1
                  eq_refl ltac:(lia) L1 L2) as (m' & Hm' & Hrest)
  end.
  rewrite Hm'. simpl. now rewrite Hrest.
Qed.

(** C8: for two key files, each a sequence of lines sorted in the requested
    direction, the merge task writes the two-way merge of the lines (the
    winner of the two current keys first, and once a file is exhausted the
    current key and the rest of the other file as they are); the file written
    is sorted in that direction and holds exactly the lines of both files. *)
Theorem merge_sorted_streams : forall sortAsc l1 l2,
  Forall keyLine l1 -> Forall keyLine l2 ->
  Sorted (inOrder sortAsc) l1 -> Sorted (inOrder sortAsc) l2 ->
  mergeTask sortAsc ([], []) (concat l1) (concat l2)
    = Ok (concat (mergeLines sortAsc l1 l2), ([], [])) /\
  Sorted (inOrder sortAsc) (mergeLines sortAsc l1 l2) /\
  Permutation (mergeLines sortAsc l1 l2) (l1 ++ l2) /\
  Forall keyLine (mergeLines sortAsc l1 l2).
Proof.
  intros sortAsc l1 l2 H1 H2 S1 S2. split; [now apply mergeTask_lines|].
  split; [now apply mergeLines_sorted|].
  split; [apply mergeLines_perm|].
  apply Forall_forall. intros x Hx.
  apply (Permutation_in _ (mergeLines_perm sortAsc l1 l2)) in Hx.
  apply in_app_or in Hx. rewrite Forall_forall in H1, H2.
  destruct Hx; auto.
Qed.

Lemma merge_sorted_streams_witness :
  mergeTask true ([], [])
            (concat [lineOf (str "a"); lineOf (str "c")])
            (concat [lineOf (str "b")])
    = Ok (concat (mergeLines true [lineOf (str "a"); lineOf (str "c")]
                             [lineOf (str "b")]), ([], [])) /\
  Sorted (inOrder true)
         (mergeLines true [lineOf (str "a"); lineOf (str "c")] [lineOf (str "b")]) /\
  Permutation
    (mergeLines true [lineOf (str "a"); lineOf (str "c")] [lineOf (str "b")])
    ([lineOf (str "a"); lineOf (str "c")] ++ [lineOf (str "b")]) /\
  Forall keyLine
    (mergeLines true [lineOf (str "a"); lineOf (str "c")] [lineOf (str "b")]).
Proof.
  apply (merge_sorted_streams true [lineOf (str "a"); lineOf (str "c")]
           [lineOf (str "b")]).
  - repeat (apply Forall_cons || apply Forall_nil);
      eexists; (split; [reflexivity|]);
      repeat (apply Forall_cons || apply Forall_nil); discriminate.
  - repeat (apply Forall_cons || apply Forall_nil);
      eexists; (split; [reflexivity|]);
      repeat (apply Forall_cons || apply Forall_nil); discriminate.
  - repeat constructor.
  - repeat constructor.
Defined.

(** ** The bytes of the pieces of a string *)

Lemma splitFrom_chars : forall sep s skip cur f x,
  In f (splitFrom sep skip cur s) -> In x f -> In x cur \/ In x s.
Proof.
  intros sep. induction s as [|c s IH]; intros skip cur f x Hf Hx.
  - simpl in Hf. destruct Hf as [<- | []]. now left.
  - cbn [splitFrom] in Hf. destruct skip as [|k].
    + destruct (HasPrefix (c :: s) sep).
      * destruct Hf as [<- | Hf]; [now left|].
        destruct (IH _ _ _ _ Hf Hx) as [[] | H]. right. now right.
      * destruct (IH _ _ _ _ Hf Hx) as [H | H].
        -- apply in_app_or in H. destruct H as [H | [<- | []]].
           ++ now left.
           ++ right. now left.
        -- right. now right.
    + destruct (IH _ _ _ _ Hf Hx) as [H | H]; [now left | right; now right].
Qed.

Lemma Split_chars : forall s sep f x,
  In f (Split s sep) -> In x f -> In x s.
Proof.
  intros s sep f x Hf Hx.
  destruct (splitFrom_chars sep s 0 [] f x Hf Hx) as [[] | H]. exact H.
Qed.

Lemma TrimLeft_incl : forall cut s x, In x (TrimLeft cut s) -> In x s.
Proof.
  intros cut. induction s as [|c s IH]; intros x H; simpl in H; [contradiction|].
  destruct (cut c); [right; now apply IH | exact H].
Qed.

Lemma Trim_incl : forall cut s x, In x (Trim cut s) -> In x s.
Proof.
  intros cut s x H. unfold Trim, TrimRight in H.
  apply in_rev in H. apply TrimLeft_incl in H. apply in_rev in H.
  now apply TrimLeft_incl in H.
Qed.

Lemma TrimLeft_app : forall cut a b,
  TrimLeft cut (a ++ b) =
  match TrimLeft cut a with
  | [] => TrimLeft cut b
  | t => t ++ b
  end.
Proof.
  intros cut. induction a as [|c a IH]; intro b; simpl; [reflexivity|].
  destruct (cut c); [apply IH | reflexivity].
Qed.

(** The newline that ends a record does not survive the trim. *)
Lemma Trim_line : forall body, Trim blank (body ++ [NL]) = Trim blank body.
Proof.
  intro body. unfold Trim. rewrite TrimLeft_app.
  destruct (TrimLeft blank body) as [|c t] eqn:E; [reflexivity|].
  unfold TrimRight. rewrite rev_app_distr. reflexivity.
Qed.

Lemma Trim_record_no_NL : forall reader,
  ~ In NL (Trim blank (fst (fst (readString reader)))).
Proof.
  intro reader.
  destruct (readString_cases reader) as [(body & rest & Hb & _ & ->) | [Hn ->]];
    simpl.
  - rewrite Trim_line. intro H. apply Hb. now apply Trim_incl in H.
  - intro H. apply Hn. now apply Trim_incl in H.
Qed.

(** ** Keys and the lines of a key file *)

Lemma compareStr_app_r : forall x k1 k2,
  (forall r, k1 ++ r = k2 -> r = []) ->
  (forall r, k2 ++ r = k1 -> r = []) ->
  compareStr (k1 ++ x) (k2 ++ x) = compareStr k1 k2.
Proof.
  intros x. induction k1 as [|c1 k1 IH]; intros [|c2 k2] H1 H2.
  - simpl. apply compareStr_refl.
  - specialize (H1 (c2 :: k2) eq_refl). discriminate.
  - specialize (H2 (c1 :: k1) eq_refl). discriminate.
  - simpl. destruct (code c1 ?= code c2)%N eqn:E; try reflexivity.
    apply N.compare_eq in E. apply code_inj in E. subst c2.
    apply IH.
    + intros r Hr. apply H1. simpl. now rewrite Hr.
    + intros r Hr. apply H2. simpl. now rewrite Hr.
Qed.

Lemma goodKey_prefix : forall width k1 k2 r,
  goodKey width k1 -> goodKey width k2 -> k1 ++ r = k2 -> r = [].
Proof.
  intros width k1 k2 r (b1 & t1 & -> & Hg1 & _ & _ & _ & _ & _ & Hl1)
         (b2 & t2 & -> & Hg2 & _ & _ & _ & _ & _ & Hl2) H.
  rewrite <- app_assoc in H. simpl in H.
  apply app_sep_inj_left in H; try assumption.
  destruct H as [_ H].
  assert (Hlen : length (t1 ++ r) = length t2) by now rewrite H.
  rewrite length_app in Hlen. destruct r; [reflexivity | simpl in Hlen; lia].
Qed.

Lemma less_lineOf : forall width sortAsc k1 k2,
  goodKey width k1 -> goodKey width k2 ->
  less sortAsc (lineOf k1) (lineOf k2) = less sortAsc k1 k2.
Proof.
  intros width sortAsc k1 k2 H1 H2.
  assert (P12 : forall r, k1 ++ r = k2 -> r = [])
    by (intros r Hr; exact (goodKey_prefix width k1 k2 r H1 H2 Hr)).
  assert (P21 : forall r, k2 ++ r = k1 -> r = [])
    by (intros r Hr; exact (goodKey_prefix width k2 k1 r H2 H1 Hr)).
  assert (E12 : compareStr (lineOf k1) (lineOf k2) = compareStr k1 k2)
    by now apply compareStr_app_r.
  assert (E21 : compareStr (lineOf k2) (lineOf k1) = compareStr k2 k1)
    by now apply compareStr_app_r.
  destruct sortAsc; unfold less, ltStr; now rewrite ?E12, ?E21.
Qed.

Lemma goodKey_no_NL : forall width k, goodKey width k -> ~ In NL k.
Proof.
  intros width k (b & t & -> & _ & Hb & _ & Ht & _) H.
  apply in_app_or in H. destruct H as [H | [H | H]]; auto. discriminate.
Qed.

Lemma goodKey_keyLine : forall width k, goodKey width k -> keyLine (lineOf k).
Proof.
  intros width k H. exists k. split; [reflexivity|].
  apply Forall_forall. intros x Hx ->. now apply (goodKey_no_NL width k).
Qed.

(** ** Sorting a batch *)

Lemma insertKey_perm : forall sortAsc k l,
  Permutation (insertKey sortAsc k l) (k :: l).
Proof.
  intros sortAsc k. induction l as [|x l IH]; simpl.
  - apply Permutation_refl.
  - destruct (less sortAsc k x); [apply Permutation_refl|].
    apply Permutation_trans with (x :: k :: l); [now apply perm_skip | apply perm_swap].
Qed.

Lemma sortKeys_perm : forall sortAsc l, Permutation (sortKeys sortAsc l) l.
Proof.
  intros sortAsc. induction l as [|k l IH]; simpl; [apply perm_nil|].
  apply Permutation_trans with (k :: sortKeys sortAsc l);
    [apply insertKey_perm | now apply perm_skip].
Qed.

Lemma insertKey_sorted : forall sortAsc k l,
  Sorted (inOrder sortAsc) l -> Sorted (inOrder sortAsc) (insertKey sortAsc k l).
Proof.
  intros sortAsc k. induction l as [|x l IH]; intro H; simpl.
  - repeat constructor.
  - destruct (less sortAsc k x) eqn:E.
    + constructor; [assumption|]. constructor. now apply less_inOrder.
    + inversion H as [|? ? Hs Hh]; subst. constructor; [now apply IH|].
      destruct l as [|y l]; simpl.
      * constructor. exact E.
      * destruct (less sortAsc k y); constructor.
        -- exact E.
        -- now inversion Hh.
Qed.

Lemma sortKeys_sorted : forall sortAsc l,
  Sorted (inOrder sortAsc) (sortKeys sortAsc l).
Proof.
  intros sortAsc. induction l as [|k l IH]; simpl; [constructor|].
  now apply insertKey_sorted.
Qed.

Lemma Sorted_inOrder_all : forall sortAsc a l,
  Sorted (inOrder sortAsc) (a :: l) -> forall x, In x l -> inOrder sortAsc a x.
Proof.
  intros sortAsc a l H. apply Sorted_StronglySorted in H.
  - inversion H as [|? ? _ Hall]; subst. now apply Forall_forall.
  - intros x y z. apply inOrder_trans.
Qed.

(** A list of strings has one sorted arrangement. *)
Lemma sorted_unique : forall sortAsc l1 l2,
  Sorted (inOrder sortAsc) l1 -> Sorted (inOrder sortAsc) l2 ->
  Permutation l1 l2 -> l1 = l2.
Proof.
  intros sortAsc. induction l1 as [|a l1 IH]; intros l2 S1 S2 P.
  - apply Permutation_nil in P. now subst.
  - destruct l2 as [|b l2].
    + apply Permutation_sym, Permutation_nil in P. discriminate.
    + assert (a = b).
      { assert (Ha : In a (b :: l2)) by (apply (Permutation_in _ P); now left).
        assert (Hb : In b (a :: l1))
          by (apply (Permutation_in _ (Permutation_sym P)); now left).
        destruct Ha as [-> | Ha]; [reflexivity|].
        destruct Hb as [-> | Hb]; [reflexivity|].
        apply (inOrder_antisym sortAsc).
        - now apply (Sorted_inOrder_all sortAsc a l1).
        - now apply (Sorted_inOrder_all sortAsc b l2). }
      subst b. f_equal. apply IH.
      * now inversion S1.
      * now inversion S2.
      * now apply Permutation_cons_inv in P.
Qed.

Lemma sorted_lines : forall width sortAsc l,
  Forall (goodKey width) l -> Sorted (inOrder sortAsc) l ->
  Sorted (inOrder sortAsc) (map lineOf l).
Proof.
  intros width sortAsc. induction l as [|a l IH]; intros Hg Hs; simpl.
  - constructor.
  - inversion Hg as [|? ? Ha Hl]; inversion Hs as [|? ? Hs' Hh]; subst.
    constructor; [now apply IH|].
    destruct l as [|b l]; simpl; constructor.
    inversion Hl; inversion Hh; subst.
    unfold inOrder in *. now rewrite (less_lineOf width).
Qed.

(** ** Reading the sorted keys back *)

Lemma writeKeys_lines : forall l, writeKeys l = concat (map lineOf l).
Proof. reflexivity. Qed.

Lemma dropCR_goodKey : forall width k, goodKey width k -> dropCR k = k.
Proof.
  intros width k (b & t & -> & _ & _ & _ & _ & Hcr & Hne & _).
  unfold dropCR. rewrite rev_app_distr. simpl.
  destruct (rev t) as [|c rt] eqn:E.
  - exfalso. apply Hne. apply (f_equal (@rev byte)) in E.
    now rewrite rev_involutive in E.
  - simpl. rewrite <- app_assoc. simpl.
    destruct (byteEq c CR) eqn:Ec; [|reflexivity].
    apply byteEq_true in Ec. subst c. exfalso. apply Hcr.
    apply in_rev. rewrite E. now left.
Qed.

Lemma scanFuel_keys : forall width l fuel,
  Forall (goodKey width) l ->
  Forall (fun k => (Z.of_nat (length k) < maxTokenSize)%Z) l ->
  length (writeKeys l) <= fuel ->
  scanFuel fuel (writeKeys l) = l.
Proof.
  intros width. induction l as [|k l IH]; intros fuel Hg Hs Hf.
  - destruct fuel; reflexivity.
  - inversion Hg as [|? ? Hk Hl]; inversion Hs as [|? ? Hsk Hsl]; subst.
    change (writeKeys (k :: l)) with ((k ++ [NL]) ++ writeKeys l) in *.
    rewrite <- app_assoc in *. simpl app in *.
    rewrite length_app in Hf. simpl in Hf.
    destruct fuel as [|fuel]; [lia|]. cbn [scanFuel].
    destruct (k ++ NL :: writeKeys l) as [|c d] eqn:E.
    { destruct k; discriminate. }
    rewrite <- E. rewrite readString_line by now apply (goodKey_no_NL width).
    rewrite removelast_last.
    replace (maxTokenSize <=? Z.of_nat (length k))%Z with false
      by (symmetry; apply Z.leb_gt; assumption).
    rewrite (dropCR_goodKey width k Hk). f_equal.
    apply IH; try assumption. lia.
Qed.

Lemma scanLines_keys : forall width l,
  Forall (goodKey width) l ->
  Forall (fun k => (Z.of_nat (length k) < maxTokenSize)%Z) l ->
  scanLines (writeKeys l) = l.
Proof.
  intros width l Hg Hs. unfold scanLines. now apply (scanFuel_keys width).
Qed.

(** ** From a key to its record *)

Lemma splitFrom_no_sep : forall (x : byte) s cur,
  ~ In x s -> splitFrom [x] 0 cur s = [cur ++ s].
Proof.
  intros x. induction s as [|c s IH]; intros cur H.
  - simpl. now rewrite app_nil_r.
  - cbn [splitFrom HasPrefix].
    destruct (byteEq c x) eqn:E.
    + apply byteEq_true in E. subst c. exfalso. apply H. now left.
    + simpl. rewrite IH.
      * now rewrite <- app_assoc.
      * intro Hin. apply H. now right.
Qed.

Lemma Split_at_sep : forall (x : byte) body tail,
  ~ In x body -> ~ In x tail ->
  Split (body ++ x :: tail) [x] = [body; tail].
Proof.
  intros x body tail Hb Ht. unfold Split.
  assert (G : forall cur, splitFrom [x] 0 cur (body ++ x :: tail)
                          = [cur ++ body; tail]).
  { induction body as [|c body IH]; intro cur.
    - cbn [app splitFrom HasPrefix]. rewrite byteEq_refl. simpl.
      rewrite app_nil_r. f_equal. now apply splitFrom_no_sep.
    - cbn [app splitFrom HasPrefix].
      destruct (byteEq c x) eqn:E.
      + apply byteEq_true in E. subst c. exfalso. apply Hb. now left.
      + simpl. rewrite IH.
        * now rewrite <- app_assoc.
        * intro Hin. apply Hb. now right. }
  apply (G []).
Qed.

Lemma TrimLeft_spaces : forall n s,
  TrimLeft isSpace (repeat SP n ++ s) = TrimLeft isSpace s.
Proof. induction n; intro s; simpl; auto. Qed.

Lemma isDigit_code : forall c x, isDigit c -> ~ isDigit x -> byteEq c x = false.
Proof.
  intros c x Hc Hx. apply byteEq_false. intros ->. contradiction.
Qed.

Lemma ParseInt_utoa : forall n, (0 <= n < 2 ^ 63)%Z ->
  TrimLeft isSpace (utoa n) = utoa n /\ ParseInt (utoa n) = Some n.
Proof.
  intros n Hn. destruct (utoa_spec n) as (Hne & Hd & Hv & _); [lia|].
  destruct (utoa n) as [|c ds] eqn:E; [congruence|].
  pose proof (Forall_inv Hd) as Hc.
  assert (Hsp : byteEq c SP = false).
  { apply isDigit_code; [assumption|]. vm_compute. intros [H _]. now apply H. }
  assert (Hplus : byteEq c "+"%char = false).
  { apply isDigit_code; [assumption|]. vm_compute. intros [H _]. now apply H. }
  assert (Hminus : byteEq c "-"%char = false).
  { apply isDigit_code; [assumption|]. vm_compute. intros [H _]. now apply H. }
  split.
  - simpl. unfold isSpace. now rewrite Hsp.
  - unfold ParseInt. rewrite Hplus, Hminus.
    rewrite parseDigits_digits by assumption. rewrite Hv.
    replace ((- 2 ^ 63 <=? n) && (n <=? 2 ^ 63 - 1))%Z with true; [reflexivity|].
    symmetry. apply andb_true_intro. split; apply Z.leb_le; lia.
Qed.

Lemma seekFile_padInt : forall width n,
  (0 <= width)%Z -> (0 <= n < 2 ^ 63)%Z -> seekFile (padInt width n) = Ok n.
Proof.
  intros width n Hw Hn. unfold seekFile, padInt. not_negative.
  rewrite TrimLeft_spaces. unfold FormatInt. not_negative.
  destruct (ParseInt_utoa n Hn) as [-> ->]. not_negative.
  reflexivity.
Qed.

Lemma index_second {A : Type} : forall a b : A, index [a; b] 1 = Ok b.
Proof. reflexivity. Qed.

(** The loop that writes the records, on the keys of entries that lead back
    to their records. *)
Lemma materialize_entries : forall source width es written,
  Forall (resolves source width) es ->
  materialize source (map entKey es) written
    = (written ++ map entRecord es, Ok tt).
Proof.
  intros source width. induction es as [|e es IH]; intros written H.
  - simpl. now rewrite app_nil_r.
  - inversion H as [|? ? He Hes]; subst.
    destruct He as (Hoff & Hrec & body & Hkey & Hbody).
    cbn [map materialize]. rewrite Hkey.
    rewrite Split_at_sep by (assumption || apply padInt_no_GS).
    rewrite index_second. cbn [bind].
    rewrite seekFile_padInt by lia.
    destruct (readString (skipn (Z.to_nat (entOffset e)) source))
      as [[record eof] rest] eqn:Er.
    simpl in Hrec. subst record.
    rewrite IH by assumption. now rewrite <- app_assoc.
Qed.

(** ** The entries of a source *)

Lemma padInt_length : forall size n, (0 <= n <= size)%Z ->
  length (padInt (Z.of_nat (length (FormatInt size))) n)
    = length (FormatInt size).
Proof.
  intros size n Hn. unfold padInt. not_negative.
  rewrite length_app, repeat_length.
  replace (Z.abs_nat (Z.of_nat (length (FormatInt size))))
    with (length (FormatInt size)) by lia.
  assert (length (FormatInt n) <= length (FormatInt size)); [|lia].
  unfold FormatInt. not_negative.
  apply utoa_length_mono. lia.
Qed.

Lemma padInt_nonempty : forall width n, padInt width n <> [].
Proof.
  intros width n H.
  assert (E : filter notSpace (padInt width n) = []) by now rewrite H.
  rewrite padInt_digits in E. unfold FormatInt in E.
  destruct (n <? 0)%Z eqn:En; [discriminate|].
  apply Z.ltb_ge in En. destruct (utoa_spec n En) as (Hne & _). contradiction.
Qed.

Section Entries.

Variables (source sep : gostring) (keySpecs : list keyParams).

Hypothesis source_no_GS : ~ In _asciiGS source.
Hypothesis source_size : (Z.of_nat (length source) < 2 ^ 63)%Z.

Let width := seekLenOf source.
Let compositeKeyFn := makeCompositeKeyFn sep keySpecs (Z.of_nat width).

(** The entry of one record: its key is well formed and leads back to it. *)
Lemma entry_props : forall pre record rest k,
  pre ++ record ++ rest = source ->
  fst (fst (readString (record ++ rest))) = record ->
  compositeKeyFn (Trim blank record) (Z.of_nat (length pre)) = Ok k ->
  resolves source width
    {| entOffset := Z.of_nat (length pre); entRecord := record; entKey := k |}
  /\ goodKey width k.
Proof.
  intros pre record rest k Hsrc Hread Hk.
  apply makeCompositeKeyFn_Ok in Hk. destruct Hk as (body & -> & Hbody).
  assert (Hlen : length pre <= length source).
  { rewrite <- Hsrc, length_app. lia. }
  assert (Hin : forall x, In x body -> x = SP \/ In x (Trim blank record)).
  { intros x Hx. destruct (Hbody x Hx) as [-> | (f & Hf & Hxf)]; [now left|].
    right. eapply Split_chars; eauto. }
  assert (HbGS : ~ In _asciiGS body).
  { intro Hx. destruct (Hin _ Hx) as [E | Hx']; [discriminate|].
    apply source_no_GS. rewrite <- Hsrc. apply in_or_app. right.
    apply in_or_app. left. now apply Trim_incl in Hx'. }
  assert (HbNL : ~ In NL body).
  { intro Hx. destruct (Hin _ Hx) as [E | Hx']; [discriminate|].
    rewrite <- Hread in Hx'. now apply Trim_record_no_NL in Hx'. }
  split.
  - split; [simpl; lia|]. split.
    + simpl. rewrite Nat2Z.id. rewrite <- Hsrc.
      rewrite skipn_app, skipn_all, Nat.sub_diag. simpl. exact Hread.
    + exists body. split; [reflexivity | assumption].
  - exists body, (padInt (Z.of_nat width) (Z.of_nat (length pre))).
    split; [reflexivity|]. split; [assumption|]. split; [assumption|].
    split; [apply padInt_no_GS|]. split; [apply padInt_no_NL|].
    split.
    { apply padInt_no_byte; try discriminate. vm_compute. intros [H _].
      now apply H. }
    split; [apply padInt_nonempty|].
    unfold width, seekLenOf. apply padInt_length. lia.
Qed.

Lemma entriesFrom_props : forall r pre es,
  pre ++ r = source ->
  entriesFrom compositeKeyFn (reads r) (Z.of_nat (length pre)) = Ok es ->
  Forall (resolves source width) es /\ Forall (goodKey width) (map entKey es).
Proof.
  intro r. pattern r. apply reads_ind; clear r.
  - intros s Hs pre es Hsrc. rewrite reads_tail by assumption.
    cbn [entriesFrom]. destruct (0 <? length (Trim blank s)).
    + destruct (compositeKeyFn (Trim blank s) (Z.of_nat (length pre)))
        as [k|f] eqn:Ek; [|discriminate].
      cbn [bind]. intro H. injection H as <-.
      destruct (entry_props pre s [] k) as [H1 H2].
      * now rewrite app_nil_r.
      * rewrite app_nil_r. now rewrite readString_tail.
      * exact Ek.
      * split; [|simpl]; (apply Forall_cons; [assumption | apply Forall_nil]).
    + intro H. injection H as <-. split; constructor.
  - intros body rest Hb IH pre es Hsrc. rewrite reads_line by assumption.
    cbn [entriesFrom].
    assert (Hnext : (Z.of_nat (length pre) + Z.of_nat (length (body ++ [NL])))%Z
                    = Z.of_nat (length (pre ++ body ++ [NL]))).
    { rewrite !length_app. lia. }
    rewrite Hnext.
    assert (Hsrc' : (pre ++ body ++ [NL]) ++ rest = source).
    { rewrite <- Hsrc, <- !app_assoc. reflexivity. }
    destruct (0 <? length (Trim blank (body ++ [NL]))).
    + destruct (compositeKeyFn (Trim blank (body ++ [NL])) (Z.of_nat (length pre)))
        as [k|f] eqn:Ek; [|discriminate].
      cbn [bind].
      destruct (entriesFrom compositeKeyFn (reads rest)
                  (Z.of_nat (length (pre ++ body ++ [NL])))) as [es'|f] eqn:Ees;
        [|discriminate].
      cbn [bind]. intro H. injection H as <-.
      destruct (IH _ _ Hsrc' Ees) as [I1 I2].
      destruct (entry_props pre (body ++ [NL]) rest k) as [H1 H2].
      * rewrite <- Hsrc, <- app_assoc. reflexivity.
      * rewrite <- app_assoc. simpl. now rewrite readString_line.
      * exact Ek.
      * split; [|simpl]; (apply Forall_cons; assumption).
    + intro Ees. exact (IH _ _ Hsrc' Ees).
Qed.

End Entries.

(** ** The pass that creates the key files *)

Lemma Permutation_concat : forall (A : Type) (l1 l2 : list (list A)),
  Permutation l1 l2 -> Permutation (concat l1) (concat l2).
Proof.
  intros A l1 l2 H. induction H; simpl.
  - apply perm_nil.
  - now apply Permutation_app_head.
  - rewrite !app_assoc. apply Permutation_app_tail. apply Permutation_app_comm.
  - eapply Permutation_trans; eauto.
Qed.

Lemma Forall_perm : forall (A : Type) (P : A -> Prop) l1 l2,
  Permutation l1 l2 -> Forall P l1 -> Forall P l2.
Proof.
  intros A P l1 l2 HP H. rewrite Forall_forall in *. intros x Hx.
  apply H. now apply (Permutation_in _ (Permutation_sym HP)).
Qed.

(** A sorted batch, written out, is a sorted run. *)
Lemma batch_run : forall width sortAsc ks,
  Forall (goodKey width) ks ->
  okRun sortAsc (map lineOf (sortKeys sortAsc ks)) /\
  Permutation (map lineOf (sortKeys sortAsc ks)) (map lineOf ks).
Proof.
  intros width sortAsc ks H.
  assert (Hg : Forall (goodKey width) (sortKeys sortAsc ks)).
  { apply (Forall_perm _ _ ks); [apply Permutation_sym, sortKeys_perm | assumption]. }
  split; [split|].
  - apply Forall_forall. intros x Hx. apply in_map_iff in Hx.
    destruct Hx as (k & <- & Hk). rewrite Forall_forall in Hg.
    apply (goodKey_keyLine width). now apply Hg.
  - apply (sorted_lines width); [assumption | apply sortKeys_sorted].
  - apply Permutation_map. apply sortKeys_perm.
Qed.

Lemma okRun_merge : forall sortAsc l1 l2,
  okRun sortAsc l1 -> okRun sortAsc l2 -> okRun sortAsc (mergeLines sortAsc l1 l2).
Proof.
  intros sortAsc l1 l2 [K1 S1] [K2 S2]. split.
  - apply (Forall_perm _ _ (l1 ++ l2)).
    + apply Permutation_sym, mergeLines_perm.
    + apply Forall_app. now split.
  - now apply mergeLines_sorted.
Qed.

Lemma keyStep_inv : forall compositeKeyFn sortAsc keysPerSort width st seen
                           record eof newKeys,
  passInv sortAsc width st seen ->
  Forall (goodKey width) newKeys ->
  (if 0 <? length (Trim blank record)
   then exists k, compositeKeyFn (Trim blank record) (recordStart st) = Ok k /\
                  newKeys = [k]
   else newKeys = []) ->
  exists st',
    keyStep compositeKeyFn sortAsc keysPerSort st record eof = (st', Ok tt) /\
    passInv sortAsc width st' (seen ++ newKeys) /\
    recordStart st' = (recordStart st + Z.of_nat (length record))%Z /\
    (eof = true -> keys st' = []).
Proof.
  intros compositeKeyFn sortAsc keysPerSort width st seen record eof newKeys
         (H12 & Hgood & lsm & lst & Hm & Ht & Hlen & Hruns & Hperm) Hnew Hkey.
  unfold keyStep.
  assert (E : (if 0 <? length (Trim blank record)
               then k <- compositeKeyFn (Trim blank record) (recordStart st) ;;
                    Ok (keys st ++ [k])
               else Ok (keys st)) = Ok (keys st ++ newKeys)).
  { destruct (0 <? length (Trim blank record)).
    - destruct Hkey as (k & -> & ->). reflexivity.
    - subst newKeys. now rewrite app_nil_r. }
  rewrite E. clear E Hkey.
  set (keys' := keys st ++ newKeys).
  assert (Hgood' : Forall (goodKey width) keys') by (apply Forall_app; now split).
  assert (Hperm' : Permutation (concat (lsm ++ lst) ++ map lineOf keys')
                               (map lineOf (seen ++ newKeys))).
  { unfold keys'. rewrite !map_app, app_assoc.
    now apply Permutation_app_tail. }
  destruct ((0 <? length keys') &&
            ((Z.of_nat (length keys') =? keysPerSort)%Z || eof)) eqn:Eflush.
  - (* the batch is sorted and written to a new key file *)
    destruct (batch_run width sortAsc keys' Hgood') as [Hrun Hrp].
    rewrite writeKeys_lines. rewrite Ht.
    destruct lst as [|l1 [|l2 lst]]; [| |simpl in Hlen; lia].
    + eexists. split; [reflexivity|]. cbn [recordStart keys].
      split; [|split; [reflexivity | reflexivity]].
      split; [exact H12|]. split; [constructor|].
      exists lsm, [map lineOf (sortKeys sortAsc keys')].
      split; [exact Hm|]. split; [reflexivity|]. split; [simpl; lia|].
      split.
      * rewrite app_nil_r in Hruns. apply Forall_app. split; [assumption|].
        now constructor.
      * cbn [keys map]. rewrite app_nil_r.
        eapply Permutation_trans; [|exact Hperm'].
        rewrite !concat_app. simpl. rewrite !app_nil_r.
        now apply Permutation_app_head.
    + cbn [map app]. rewrite H12.
      apply Forall_app in Hruns. destruct Hruns as [Hrm Hr1].
      inversion Hr1 as [|? ? Hl1 _]; subst.
      rewrite mergeTask_lines; [|apply Hl1 | apply Hrun].
      eexists. split; [reflexivity|]. cbn [recordStart keys].
      split; [|split; [reflexivity | reflexivity]].
      split; [reflexivity|]. split; [constructor|].
      exists (lsm ++ [mergeLines sortAsc l1 (map lineOf (sortKeys sortAsc keys'))]), [].
      split; [cbn [merged]; rewrite Hm, map_app; reflexivity|].
      split; [reflexivity|]. split; [simpl; lia|].
      split.
      * rewrite app_nil_r. apply Forall_app. split; [assumption|].
        constructor; [|constructor]. now apply okRun_merge.
      * cbn [keys map]. rewrite !app_nil_r.
        eapply Permutation_trans; [|exact Hperm'].
        rewrite !concat_app. simpl. rewrite !app_nil_r, <- app_assoc.
        apply Permutation_app_head.
        eapply Permutation_trans; [apply mergeLines_perm|].
        now apply Permutation_app_head.
  - (* the keys stay in memory *)
    eexists. split; [reflexivity|]. cbn [recordStart keys].
    split; [|split; [reflexivity|]].
    + split; [exact H12|]. split; [exact Hgood'|].
      exists lsm, lst. repeat split; assumption.
    + intros ->. rewrite orb_true_r, andb_true_r in Eflush.
      apply Nat.ltb_ge in Eflush. destruct keys'; [reflexivity | simpl in Eflush; lia].
Qed.

Lemma reads_last_eof : forall s, last (map snd (reads s)) false = true.
Proof.
  intro s. pattern s. apply reads_ind; clear s.
  - intros s H. now rewrite reads_tail.
  - intros body rest Hb IH. rewrite reads_line by assumption.
    destruct (reads rest) as [|r rs] eqn:E; [discriminate IH|].
    exact IH.
Qed.

Lemma keyLoop_inv : forall compositeKeyFn sortAsc keysPerSort width rds st seen es,
  passInv sortAsc width st seen ->
  entriesFrom compositeKeyFn rds (recordStart st) = Ok es ->
  Forall (goodKey width) (map entKey es) ->
  exists st',
    keyLoop compositeKeyFn sortAsc keysPerSort rds st = (st', Ok tt) /\
    passInv sortAsc width st' (seen ++ map entKey es) /\
    (rds = [] -> keys st' = keys st) /\
    (rds <> [] -> last (map snd rds) false = true -> keys st' = []).
Proof.
  intros compositeKeyFn sortAsc keysPerSort width.
  induction rds as [|[record eof] rds IH]; intros st seen es Hinv Hes Hgood.
  - simpl in Hes. injection Hes as <-. exists st. simpl. rewrite app_nil_r.
    split; [reflexivity|]. split; [assumption|]. split; [reflexivity | congruence].
  - cbn [entriesFrom] in Hes. cbn [keyLoop].
    assert (Hstep : exists newKeys es',
      Forall (goodKey width) newKeys /\
      (if 0 <? length (Trim blank record)
       then exists k, compositeKeyFn (Trim blank record) (recordStart st) = Ok k /\
                      newKeys = [k]
       else newKeys = []) /\
      entriesFrom compositeKeyFn rds
        (recordStart st + Z.of_nat (length record))%Z = Ok es' /\
      map entKey es = newKeys ++ map entKey es').
    { destruct (0 <? length (Trim blank record)).
      - destruct (compositeKeyFn (Trim blank record) (recordStart st))
          as [k|f]; [|discriminate]. cbn [bind] in Hes.
        destruct (entriesFrom compositeKeyFn rds
                    (recordStart st + Z.of_nat (length record))%Z)
          as [es'|f]; [|discriminate]. cbn [bind] in Hes.
        injection Hes as <-. exists [k], es'. simpl in Hgood.
        inversion Hgood; subst. repeat split; eauto.
      - exists [], es. repeat split; auto. }
    destruct Hstep as (newKeys & es' & Hnew & Hkey & Hes' & Hmap).
    destruct (keyStep_inv compositeKeyFn sortAsc keysPerSort width st seen
                record eof newKeys Hinv Hnew Hkey)
      as (st1 & -> & Hinv1 & Hstart1 & Heof1).
    rewrite <- Hstart1 in Hes'.
    assert (Hgood' : Forall (goodKey width) (map entKey es')).
    { rewrite Hmap in Hgood. apply Forall_app in Hgood. tauto. }
    destruct (IH st1 (seen ++ newKeys) es' Hinv1 Hes' Hgood')
      as (st2 & -> & Hinv2 & Hsame & Hlast).
    exists st2. split; [reflexivity|].
    rewrite Hmap, app_assoc. split; [exact Hinv2|].
    assert (Hend : last (map snd ((record, eof) :: rds)) false = true ->
                   keys st2 = []).
    { destruct rds as [|r rds].
      - simpl. intros ->. rewrite (Hsame eq_refl). now apply Heof1.
      - intro H. apply Hlast; [discriminate|]. exact H. }
    split; [discriminate | intros _; exact Hend].
Qed.

(** ** The rounds of merges *)

Lemma mergePairs_runs : forall sortAsc n ls,
  length ls = n -> Forall (okRun sortAsc) ls ->
  exists ls',
    mergePairs sortAsc ([], []) (map (@concat byte) ls)
      = Ok (map (@concat byte) ls', ([], [])) /\
    Forall (okRun sortAsc) ls' /\
    Permutation (concat ls') (concat ls) /\
    length ls' <= length ls /\
    (2 <= length ls -> length ls' < length ls).
Proof.
  intros sortAsc. induction n as [n IH] using lt_wf_ind. intros ls Hn Hruns.
  destruct ls as [|l1 [|l2 rest]].
  - exists []. repeat split; auto; simpl; lia.
  - exists [l1]. repeat split; auto; simpl; lia.
  - inversion Hruns as [|? ? H1 Hr1]; subst.
    inversion Hr1 as [|? ? H2 Hrest]; subst.
    cbn [map mergePairs].
    rewrite mergeTask_lines; [|apply H1 | apply H2]. cbn [bind snd fst].
    destruct (IH (length rest) ltac:(simpl; lia) rest eq_refl Hrest)
      as (ls' & -> & Hruns' & Hperm & Hle & _).
    cbn [bind fst snd].
    exists (mergeLines sortAsc l1 l2 :: ls'). split; [reflexivity|].
    split; [constructor; [now apply okRun_merge | assumption]|].
    split.
    + simpl. rewrite app_assoc. apply Permutation_app.
      * apply mergeLines_perm.
      * exact Hperm.
    + simpl. split; lia.
Qed.

Section Rounds.

Variable glob : nat -> list gostring -> list gostring.
Hypothesis glob_perm : forall n dir, Permutation (glob n dir) dir.

Lemma passes_runs : forall sortAsc fuel round ls,
  length ls <= fuel -> Forall (okRun sortAsc) ls ->
  exists ls',
    passes glob fuel round sortAsc ([], []) (map (@concat byte) ls)
      = Ok (map (@concat byte) ls') /\
    length ls' <= 1 /\ Forall (okRun sortAsc) ls' /\
    Permutation (concat ls') (concat ls).
Proof.
  intros sortAsc fuel round ls Hfuel Hruns. revert round ls Hfuel Hruns.
  assert (G : forall round ls, Forall (okRun sortAsc) ls ->
    exists ls2, glob round (map (@concat byte) ls) = map (@concat byte) ls2 /\
      Forall (okRun sortAsc) ls2 /\ length ls2 = length ls /\
      Permutation (concat ls2) (concat ls)).
  { intros round ls Hruns.
    pose proof (glob_perm round (map (@concat byte) ls)) as HP.
    apply Permutation_map_inv in HP. destruct HP as (ls2 & E2 & P2).
    exists ls2. split; [exact E2|].
    split; [now apply (Forall_perm _ _ ls)|].
    split; [symmetry; now apply Permutation_length|].
    apply Permutation_concat. now apply Permutation_sym. }
  induction fuel as [|fuel IH]; intros round ls Hfuel Hruns;
    destruct (G round ls Hruns) as (ls2 & E2 & Hruns2 & Hlen2 & Hc2);
    cbn [passes]; rewrite E2, length_map.
  - assert (Hle : length ls2 <= 1) by (unfold gostring in *; lia).
    replace (length ls2 <=? 1) with true by (symmetry; now apply Nat.leb_le).
    exists ls2. repeat split; auto.
  - destruct (length ls2 <=? 1) eqn:E.
    + apply Nat.leb_le in E. exists ls2. repeat split; auto.
    + apply Nat.leb_gt in E.
      destruct (mergePairs_runs sortAsc (length ls2) ls2 eq_refl Hruns2)
        as (ls3 & -> & Hruns3 & Hperm3 & Hle3 & Hlt3).
      cbn [bind fst snd].
      assert (Hfuel3 : length ls3 <= fuel).
      { unfold gostring in *.
        assert (length ls3 < length ls2) by (apply Hlt3; lia). lia. }
      destruct (IH (S round) ls3 Hfuel3 Hruns3)
        as (ls' & -> & Hlen' & Hruns' & Hperm').
      exists ls'. repeat split; auto.
      eapply Permutation_trans; [exact Hperm'|].
      eapply Permutation_trans; [exact Hperm3 | exact Hc2].
Qed.

End Rounds.

(** ** The entries in the order of their keys *)

Lemma insertEntry_keys : forall sortAsc e l,
  map entKey (insertEntry sortAsc e l) = insertKey sortAsc (entKey e) (map entKey l).
Proof.
  intros sortAsc e. induction l as [|x l IH]; simpl; [reflexivity|].
  destruct (less sortAsc (entKey e) (entKey x)); simpl; [reflexivity|].
  now rewrite IH.
Qed.

Lemma sortEntries_keys : forall sortAsc es,
  map entKey (sortEntries sortAsc es) = sortKeys sortAsc (map entKey es).
Proof.
  intros sortAsc. induction es as [|e es IH]; simpl; [reflexivity|].
  now rewrite insertEntry_keys, IH.
Qed.

Lemma insertEntry_perm : forall sortAsc e l,
  Permutation (insertEntry sortAsc e l) (e :: l).
Proof.
  intros sortAsc e. induction l as [|x l IH]; simpl.
  - apply Permutation_refl.
  - destruct (less sortAsc (entKey e) (entKey x)); [apply Permutation_refl|].
    apply Permutation_trans with (x :: e :: l); [now apply perm_skip | apply perm_swap].
Qed.

Lemma sortEntries_perm : forall sortAsc es,
  Permutation (sortEntries sortAsc es) es.
Proof.
  intros sortAsc. induction es as [|e es IH]; simpl; [apply perm_nil|].
  apply Permutation_trans with (e :: sortEntries sortAsc es);
    [apply insertEntry_perm | now apply perm_skip].
Qed.

Lemma sortEntries_sorted : forall sortAsc es,
  Sorted (inOrder sortAsc) (map entKey (sortEntries sortAsc es)).
Proof. intros. rewrite sortEntries_keys. apply sortKeys_sorted. Qed.

(** ** The sort, end to end *)

Lemma no_separator : forall s,
  forallb (fun c => negb (byteEq c _asciiGS)) s = true -> ~ In _asciiGS s.
Proof.
  intros s H Hx. rewrite forallb_forall in H. specialize (H _ Hx).
  now rewrite byteEq_refl in H.
Qed.

Section EndToEnd.

Variable glob : nat -> list gostring -> list gostring.
Hypothesis glob_perm : forall n dir, Permutation (glob n dir) dir.

(** On a valid input [Sort] runs to its end; it writes to the destination the
    records of the entries in the order of their keys, and leaves no key file
    in the temporary directory. *)
Lemma Sort_sorts :
  forall w inFile outFile sortAsc usingFields sep keysPerSort verbose source es,
  validInput w inFile outFile usingFields sep keysPerSort source es ->
  Sort glob w inFile outFile sortAsc usingFields sep keysPerSort verbose
    = (sortedWorld w outFile (map entRecord (sortEntries sortAsc es)), Ok tt).
Proof.
  intros w inFile outFile sortAsc usingFields sep keysPerSort verbose source es
    (Hin & Hout & Hf & Hk & Hdiff & Hsrc & Htmp & Hne & Hsize & HGS & Hsep &
     Hes & Hnonempty & Hsmall).
  set (width := seekLenOf source).
  pose proof (no_separator source HGS) as HGS'.
  (* the arguments pass the checks *)
  unfold Sort.
  rewrite (isEmpty_false _ Hin), (isEmpty_false _ Hout), (isEmpty_false _ Hf).
  apply Z.eqb_neq in Hk. rewrite Hk, Hsrc, (length_eqb_false _ Hne).
  (* the pre-pass and the key specs *)
  unfold entriesOf, keySpecsOf in Hes.
  destruct (readString source) as [[record0 eof0] rest0].
  cbv zeta in Hes. cbv zeta.
  destruct (widths <- fieldWidths sep (reads source)
                        (repeat 0 (length (Split record0 sep))) ;;
            makeKeySpecs widths (Split usingFields [COMMA]))
    as [keySpecs|f]; [|discriminate].
  cbn [bind] in Hes.
  change (Z.of_nat (length (FormatInt (Z.of_nat (length source)))))
    with (Z.of_nat width).
  destruct (entriesFrom_props source sep keySpecs HGS' Hsize source [] es
              eq_refl Hes) as [Hres Hgood].
  fold width in Hres, Hgood.
  (* the pass that creates the key files *)
  set (start := {| keys := []; recordStart := 0%Z; todo := [];
                   merged := tempDir w; keys12 := ([], []) |}).
  assert (Hinv0 : passInv sortAsc width start []).
  { split; [reflexivity|]. split; [constructor|].
    exists [], []. unfold start. simpl. rewrite Htmp.
    repeat split; auto; constructor. }
  destruct (keyLoop_inv (makeCompositeKeyFn sep keySpecs (Z.of_nat width))
              sortAsc keysPerSort width (reads source) start [] es
              Hinv0 Hes Hgood) as (st & -> & Hinv & _ & Hlast).
  assert (Hkeys : keys st = []).
  { apply Hlast; [|apply reads_last_eof].
    intro E. pose proof (reads_last_eof source) as L. rewrite E in L.
    discriminate. }
  destruct Hinv as (H12 & _ & lsm & lst & Hm & Ht & _ & Hruns & Hperm).
  rewrite Hkeys in Hperm. simpl in Hperm. rewrite app_nil_r in Hperm.
  (* the rounds of merges *)
  rewrite H12, Hm, Ht, <- map_app.
  unfold gostring in *.
  destruct (passes_runs glob glob_perm sortAsc
              (length (map (@concat byte) (lsm ++ lst))) 0 (lsm ++ lst)
              ltac:(rewrite length_map; apply le_n) Hruns)
    as (ls' & -> & Hlen & Hruns' & Hperm').
  assert (Hall : Permutation (concat ls')
                   (map lineOf (sortKeys sortAsc (map entKey es)))).
  { eapply Permutation_trans; [exact Hperm'|].
    eapply Permutation_trans; [exact Hperm|].
    apply Permutation_map, Permutation_sym, sortKeys_perm. }
  assert (Hsorted : Forall (goodKey width) (sortKeys sortAsc (map entKey es))).
  { apply (Forall_perm _ _ (map entKey es));
      [apply Permutation_sym, sortKeys_perm | assumption]. }
  destruct ls' as [|l [|l' ls']]; [| |simpl in Hlen; lia].
  - (* no key file: excluded, some record is not blank *)
    exfalso. simpl in Hall. apply Permutation_nil in Hall.
    apply map_eq_nil in Hall.
    assert (P : Permutation (sortKeys sortAsc (map entKey es)) (map entKey es))
      by apply sortKeys_perm.
    rewrite Hall in P. apply Permutation_nil in P. apply map_eq_nil in P.
    contradiction.
  - (* the file of the sorted keys *)
    simpl in Hall. rewrite app_nil_r in Hall.
    inversion Hruns' as [|? ? [_ Hl] _]; subst.
    assert (El : l = map lineOf (sortKeys sortAsc (map entKey es))).
    { apply (sorted_unique sortAsc); try assumption.
      apply (sorted_lines width); [assumption | apply sortKeys_sorted]. }
    cbn [map]. rewrite Hdiff, El, <- writeKeys_lines.
    rewrite (scanLines_keys width); [|assumption|].
    + rewrite <- sortEntries_keys.
      rewrite (materialize_entries source width).
      * reflexivity.
      * apply (Forall_perm _ _ es);
          [apply Permutation_sym, sortEntries_perm | assumption].
    + apply (Forall_perm _ _ (map entKey es));
        [apply Permutation_sym, sortKeys_perm|].
      apply Forall_forall. intros k Hk'. apply in_map_iff in Hk'.
      destruct Hk' as (e & <- & He). rewrite forallb_forall in Hsmall.
      apply Z.ltb_lt. now apply Hsmall.
Qed.

End EndToEnd.

(** ** What the sort writes *)

Lemma eqStr_refl : forall p, eqStr p p = true.
Proof. intro p. unfold eqStr. now rewrite compareStr_refl. Qed.

Lemma files_sortedWorld : forall w outFile written,
  files (sortedWorld w outFile written) outFile = Some (concat written).
Proof. intros. simpl. now rewrite eqStr_refl. Qed.

Lemma entriesFrom_records : forall compositeKeyFn rds start es,
  entriesFrom compositeKeyFn rds start = Ok es ->
  map entRecord es = filter nonBlank (map fst rds).
Proof.
  intros compositeKeyFn. induction rds as [|[record eof] rds IH]; intros start es H.
  - injection H as <-. reflexivity.
  - cbn [entriesFrom] in H. cbn [map filter fst]. unfold nonBlank at 1.
    destruct (0 <? length (Trim blank record)).
    + destruct (compositeKeyFn (Trim blank record) start) as [k|f];
        [|discriminate]. cbn [bind] in H.
      destruct (entriesFrom compositeKeyFn rds
                  (start + Z.of_nat (length record))%Z) as [es'|f] eqn:E;
        [|discriminate]. cbn [bind] in H. injection H as <-.
      simpl. f_equal. now apply IH with (start + Z.of_nat (length record))%Z.
    + now apply IH with (start + Z.of_nat (length record))%Z.
Qed.

Lemma entriesOf_records : forall source usingFields sep es,
  entriesOf source usingFields sep = Ok es ->
  map entRecord es = filter nonBlank (map fst (reads source)).
Proof.
  intros source usingFields sep es H. unfold entriesOf in H.
  destruct (keySpecsOf source usingFields sep) as [keySpecs|f]; [|discriminate].
  cbn [bind] in H. now apply entriesFrom_records in H.
Qed.

Lemma reads_eof_no_NL : forall s r, In (r, true) (reads s) -> ~ In NL r.
Proof.
  intro s. pattern s. apply reads_ind; clear s.
  - intros s Hs r. rewrite reads_tail by assumption.
    intros [H | []]. injection H as <-. assumption.
  - intros body rest Hb IH r. rewrite reads_line by assumption.
    intros [H | H]; [discriminate | now apply IH].
Qed.

Lemma reads_line_end : forall s r,
  In (r, false) (reads s) -> exists body, r = body ++ [NL].
Proof.
  intro s. pattern s. apply reads_ind; clear s.
  - intros s Hs r. rewrite reads_tail by assumption.
    intros [H | []]. discriminate.
  - intros body rest Hb IH r. rewrite reads_line by assumption.
    intros [H | H]; [injection H as <-; eauto | now apply IH].
Qed.

Lemma Sorted_map_inv {A B : Type} : forall (f : A -> B) (R : B -> B -> Prop) l,
  Sorted R (map f l) -> Sorted (fun a b => R (f a) (f b)) l.
Proof.
  intros f R. induction l as [|a l IH]; intro H; [constructor|].
  simpl in H. inversion H as [|? ? Hs Hh]; subst.
  constructor; [now apply IH|].
  destruct l as [|b l]; constructor. now inversion Hh.
Qed.

Lemma sortEntries_keysInOrder : forall sortAsc es,
  Sorted (keysInOrder sortAsc) (sortEntries sortAsc es).
Proof.
  intros sortAsc es.
  pose proof (Sorted_map_inv entKey (inOrder sortAsc) _
                (sortEntries_sorted sortAsc es)) as H.
  revert H. apply Sorted_ind with (P := fun l => Sorted (keysInOrder sortAsc) l).
  - constructor.
  - intros a l _ IH Hh. constructor; [exact IH|].
    destruct Hh as [|b l Hab]; constructor.
    unfold inOrder, less in Hab. unfold keysInOrder, leStr.
    destruct sortAsc; now rewrite Hab.
Qed.

Lemma globInOrder_perm : forall n dir, Permutation (globInOrder n dir) dir.
Proof. intros. apply Permutation_refl. Qed.

Lemma validInput_demo : forall keysPerSort, keysPerSort <> 0%Z ->
  validInput (oneFile demoSource) (str "in") (str "out") (str "2,1") [TAB]
             keysPerSort demoSource demoEntries.
Proof.
  intros keysPerSort H. unfold validInput.
  repeat split; try discriminate; try assumption; reflexivity.
Qed.

Lemma validInput_open :
  validInput (oneFile openSource) (str "in") (str "out") (str "1") [TAB]
             10%Z openSource openEntries.
Proof.
  unfold validInput. repeat split; try discriminate; reflexivity.
Qed.

(** ** The claims on the output of the sort *)

(** C1: at this input the code does not do what the claim says.  Two records
    with the same selected field, sorted in descending order: the record
    that comes second in the source is written first. *)
Theorem Sort_descending_ties_reversed :
  snd (Sort globInOrder (oneFile tiesSource) (str "in") (str "out") false
            (str "2") [TAB] 10%Z false) = Ok tt /\
  files (fst (Sort globInOrder (oneFile tiesSource) (str "in") (str "out")
                   false (str "2") [TAB] 10%Z false)) (str "out")
    = Some (str "2" ++ TAB :: str "A" ++ NL :: str "1" ++ TAB :: str "A" ++ [NL]).
Proof. split; vm_compute; reflexivity. Qed.

(** C2, as the claim has it, fails: the blank record of ["a\n\nb\n"] gets no
    key and is not written; the output has two records, the source three. *)
Lemma Sort_blank_record_counterexample :
  snd (Sort globInOrder (oneFile blankSource) (str "in") (str "out") true
            (str "1") [TAB] 10%Z false) = Ok tt /\
  files (fst (Sort globInOrder (oneFile blankSource) (str "in") (str "out")
                   true (str "1") [TAB] 10%Z false)) (str "out")
    = Some (str "a" ++ NL :: str "b" ++ [NL]) /\
  ~ Permutation (fileRecords (str "a" ++ NL :: str "b" ++ [NL]))
                (fileRecords blankSource).
Proof.
  split; [vm_compute; reflexivity|].
  split; [vm_compute; reflexivity|].
  intro P. apply Permutation_length in P. vm_compute in P. discriminate.
Qed.

(** C2, amended: for every valid input the records written to the output
    file are exactly the records of the source that are not blank, each one
    byte for byte as it was read, in another order; a blank record is not
    written. *)
Theorem Sort_output_permutation :
  forall glob, (forall n dir, Permutation (glob n dir) dir) ->
  forall w inFile outFile sortAsc usingFields sep keysPerSort verbose source es,
  validInput w inFile outFile usingFields sep keysPerSort source es ->
  exists written,
    Sort glob w inFile outFile sortAsc usingFields sep keysPerSort verbose
      = (sortedWorld w outFile written, Ok tt) /\
    files (sortedWorld w outFile written) outFile = Some (concat written) /\
    Permutation written (filter nonBlank (map fst (reads source))).
Proof.
  intros glob Hglob w inFile outFile sortAsc usingFields sep keysPerSort verbose
         source es Hvalid.
  exists (map entRecord (sortEntries sortAsc es)).
  split; [exact (Sort_sorts glob Hglob w inFile outFile sortAsc usingFields sep
            keysPerSort verbose source es Hvalid)|].
  split; [apply files_sortedWorld|].
  destruct Hvalid as (_ & _ & _ & _ & _ & _ & _ & _ & _ & _ & _ & Hes & _).
  rewrite <- (entriesOf_records _ _ _ _ Hes).
  apply Permutation_map, sortEntries_perm.
Qed.

Lemma Sort_output_permutation_witness :
  exists written,
    Sort globInOrder (oneFile demoSource) (str "in") (str "out") true
         (str "2,1") [TAB] 2%Z false
      = (sortedWorld (oneFile demoSource) (str "out") written, Ok tt) /\
    files (sortedWorld (oneFile demoSource) (str "out") written) (str "out")
      = Some (concat written) /\
    Permutation written (filter nonBlank (map fst (reads demoSource))).
Proof.
  apply (Sort_output_permutation globInOrder globInOrder_perm
           (oneFile demoSource) (str "in") (str "out") true (str "2,1") [TAB]
           2%Z false demoSource demoEntries).
  apply validInput_demo. discriminate.
Defined.

(** C3: for every valid input the records are written in the order of their
    composite keys: of two records that follow one another in the output,
    the key of the first is less than or equal to the key of the second in an
    ascending sort, and greater than or equal to it in a descending sort. *)
Theorem Sort_output_ordered :
  forall glob, (forall n dir, Permutation (glob n dir) dir) ->
  forall w inFile outFile sortAsc usingFields sep keysPerSort verbose source es,
  validInput w inFile outFile usingFields sep keysPerSort source es ->
  exists out,
    Sort glob w inFile outFile sortAsc usingFields sep keysPerSort verbose
      = (sortedWorld w outFile (map entRecord out), Ok tt) /\
    Permutation out es /\
    Sorted (keysInOrder sortAsc) out.
Proof.
  intros glob Hglob w inFile outFile sortAsc usingFields sep keysPerSort verbose
         source es Hvalid.
  exists (sortEntries sortAsc es).
  split; [exact (Sort_sorts glob Hglob w inFile outFile sortAsc usingFields sep
            keysPerSort verbose source es Hvalid)|].
  split; [apply sortEntries_perm | apply sortEntries_keysInOrder].
Qed.

Lemma Sort_output_ordered_witness :
  exists out,
    Sort globInOrder (oneFile demoSource) (str "in") (str "out") false
         (str "2,1") [TAB] 2%Z false
      = (sortedWorld (oneFile demoSource) (str "out") (map entRecord out), Ok tt) /\
    Permutation out demoEntries /\
    Sorted (keysInOrder false) out.
Proof.
  apply (Sort_output_ordered globInOrder globInOrder_perm
           (oneFile demoSource) (str "in") (str "out") false (str "2,1") [TAB]
           2%Z false demoSource demoEntries).
  apply validInput_demo. discriminate.
Defined.

(** C10: for every valid input the output file is the records of the entries
    one after the other, each as [readString] returns it at its offset in the
    source, with nothing added.  Hence, when every record of the source ends
    in a newline, so does every record written; and the last record of a
    source that does not end in a newline is written without a newline
    wherever it stands in the output, directly followed by the next
    record. *)
Theorem Sort_writes_records_verbatim :
  forall glob, (forall n dir, Permutation (glob n dir) dir) ->
  forall w inFile outFile sortAsc usingFields sep keysPerSort verbose source es,
  validInput w inFile outFile usingFields sep keysPerSort source es ->
  exists out,
    Sort glob w inFile outFile sortAsc usingFields sep keysPerSort verbose
      = (sortedWorld w outFile (map entRecord out), Ok tt) /\
    files (sortedWorld w outFile (map entRecord out)) outFile
      = Some (concat (map entRecord out)) /\
    Permutation out es /\
    (forall e, In e out ->
       fst (fst (readString (skipn (Z.to_nat (entOffset e)) source)))
         = entRecord e) /\
    ((forall record eof, In (record, eof) (reads source) -> record <> [] ->
        exists body, record = body ++ [NL]) ->
     forall e, In e out -> exists body, entRecord e = body ++ [NL]) /\
    (forall tail, In (tail, true) (reads source) -> nonBlank tail = true ->
       ~ In NL tail /\
       exists pre post,
         map entRecord out = pre ++ tail :: post /\
         files (sortedWorld w outFile (map entRecord out)) outFile
           = Some (concat pre ++ tail ++ concat post)).
Proof.
  intros glob Hglob w inFile outFile sortAsc usingFields sep keysPerSort verbose
         source es Hvalid.
  exists (sortEntries sortAsc es).
  split; [exact (Sort_sorts glob Hglob w inFile outFile sortAsc usingFields sep
            keysPerSort verbose source es Hvalid)|].
  split; [apply files_sortedWorld|].
  split; [apply sortEntries_perm|].
  destruct Hvalid as (_ & _ & _ & _ & _ & _ & _ & _ & Hsize & HGS & _ & Hes & _).
  pose proof (no_separator source HGS) as HGS'.
  pose proof (entriesOf_records _ _ _ _ Hes) as Hrecs.
  assert (Hin : forall e, In e (sortEntries sortAsc es) ->
                In (entRecord e) (filter nonBlank (map fst (reads source)))).
  { intros e He. rewrite <- Hrecs. apply in_map.
    now apply (Permutation_in _ (sortEntries_perm sortAsc es)). }
  split; [|split].
  - intros e He. unfold entriesOf in Hes.
    destruct (keySpecsOf source usingFields sep) as [keySpecs|f]; [|discriminate].
    cbn [bind] in Hes.
    destruct (entriesFrom_props source sep keySpecs HGS' Hsize source [] es
                eq_refl Hes) as [Hres _].
    rewrite Forall_forall in Hres.
    apply (Permutation_in _ (sortEntries_perm sortAsc es)) in He.
    now destruct (Hres e He) as (_ & Hr & _).
  - intros Hall e He. specialize (Hin e He). apply filter_In in Hin.
    destruct Hin as [Hin Hnb]. apply in_map_iff in Hin.
    destruct Hin as ([record eof] & Heq & Hin). simpl in Heq. subst record.
    apply (Hall _ eof Hin). intros E. rewrite E in Hnb. discriminate.
  - intros tail Htail Hnb. split; [now apply (reads_eof_no_NL source)|].
    assert (Hwritten : In tail (map entRecord (sortEntries sortAsc es))).
    { apply (Permutation_in tail
               (Permutation_map entRecord
                  (Permutation_sym (sortEntries_perm sortAsc es)))).
      rewrite Hrecs. apply filter_In. split; [|assumption].
      apply in_map_iff. exists (tail, true). now split. }
    apply in_split in Hwritten. destruct Hwritten as (pre & post & E).
    exists pre, post. split; [exact E|].
    rewrite files_sortedWorld, E, concat_app. reflexivity.
Qed.

Lemma Sort_writes_records_verbatim_witness :
  exists out,
    Sort globInOrder (oneFile openSource) (str "in") (str "out") true
         (str "1") [TAB] 10%Z false
      = (sortedWorld (oneFile openSource) (str "out") (map entRecord out), Ok tt) /\
    files (sortedWorld (oneFile openSource) (str "out") (map entRecord out))
          (str "out")
      = Some (concat (map entRecord out)) /\
    Permutation out openEntries /\
    (forall e, In e out ->
       fst (fst (readString (skipn (Z.to_nat (entOffset e)) openSource)))
         = entRecord e) /\
    ((forall record eof, In (record, eof) (reads openSource) -> record <> [] ->
        exists body, record = body ++ [NL]) ->
     forall e, In e out -> exists body, entRecord e = body ++ [NL]) /\
    (forall tail, In (tail, true) (reads openSource) -> nonBlank tail = true ->
       ~ In NL tail /\
       exists pre post,
         map entRecord out = pre ++ tail :: post /\
         files (sortedWorld (oneFile openSource) (str "out") (map entRecord out))
               (str "out")
           = Some (concat pre ++ tail ++ concat post)).
Proof.
  apply (Sort_writes_records_verbatim globInOrder globInOrder_perm
           (oneFile openSource) (str "in") (str "out") true (str "1") [TAB]
           10%Z false openSource openEntries).
  apply validInput_open.
Defined.

(** The last record of ["b\na"] has no newline; in ascending order it is
    written first and the record ["b\n"] follows it on the same line. *)
Example Sort_unterminated_record :
  let r := Sort globInOrder (oneFile openSource) (str "in") (str "out") true
                (str "1") [TAB] 10%Z false in
  snd r = Ok tt /\ files (fst r) (str "out") = Some (str "ab" ++ [NL]).
Proof. vm_compute. split; reflexivity. Qed.

(** ** The order of padded offsets *)

Lemma digits_value : forall ds v,
  Forall isDigit ds ->
  (fold_left digitStep ds v
     = v * 10 ^ Z.of_nat (length ds) + fold_left digitStep ds 0 /\
   0 <= fold_left digitStep ds 0 < 10 ^ Z.of_nat (length ds))%Z.
Proof.
  induction ds as [|c ds IH]; intros v H.
  - simpl. lia.
  - inversion H as [|? ? Hc Hds]; subst. cbn [fold_left].
    destruct (IH (digitStep v c) Hds) as [E1 _].
    destruct (IH (digitStep 0 c) Hds) as [E2 B].
    rewrite E1, E2. unfold isDigit in Hc.
    replace (Z.of_nat (length (c :: ds))) with (Z.succ (Z.of_nat (length ds)))
      by (simpl; lia).
    rewrite Z.pow_succ_r by lia.
    assert (0 < 10 ^ Z.of_nat (length ds))%Z by (apply Z.pow_pos_nonneg; lia).
    clear IH E1 E2.
    set (F := fold_left digitStep ds 0%Z) in *. clearbody F.
    set (P := (10 ^ Z.of_nat (length ds))%Z) in *. clearbody P.
    unfold digitStep.
    assert (48 <= Z.of_N (code c) <= 57)%Z by lia.
    split; nia.
Qed.

(** Two strings of digits of the same length compare as their values. *)
Lemma digits_compare : forall ds1 ds2,
  Forall isDigit ds1 -> Forall isDigit ds2 -> length ds1 = length ds2 ->
  (fold_left digitStep ds1 0 < fold_left digitStep ds2 0)%Z ->
  compareStr ds1 ds2 = Lt.
Proof.
  induction ds1 as [|c1 ds1 IH]; intros [|c2 ds2] H1 H2 Hlen Hlt;
    try discriminate.
  inversion H1 as [|? ? Hc1 Hd1]; inversion H2 as [|? ? Hc2 Hd2]; subst.
  injection Hlen as Hlen. cbn [fold_left] in Hlt.
  destruct (digits_value ds1 (digitStep 0 c1) Hd1) as [E1 _].
  destruct (digits_value ds2 (digitStep 0 c2) Hd2) as [E2 _].
  destruct (digits_value ds1 0 Hd1) as [_ B1].
  destruct (digits_value ds2 0 Hd2) as [_ B2].
  rewrite E1, E2 in Hlt. rewrite Hlen in Hlt, B1.
  unfold isDigit in Hc1, Hc2. simpl.
  assert (HP : (0 < 10 ^ Z.of_nat (length ds2))%Z)
    by (apply Z.pow_pos_nonneg; lia).
  destruct (code c1 ?= code c2)%N eqn:E.
  + apply N.compare_eq in E. apply code_inj in E. subst c2.
    apply IH; try assumption; lia.
  + reflexivity.
  + exfalso. apply N.compare_gt_iff in E.
    clear IH E1 E2.
    set (F1 := fold_left digitStep ds1 0%Z) in *. clearbody F1.
    set (F2 := fold_left digitStep ds2 0%Z) in *. clearbody F2.
    set (P := (10 ^ Z.of_nat (length ds2))%Z) in *. clearbody P.
    unfold digitStep in Hlt.
    assert (Z.of_N (code c2) < Z.of_N (code c1))%Z by lia.
    nia.
Qed.

Lemma compareStr_space_digit : forall n s c ds,
  isDigit c -> compareStr (repeat SP (S n) ++ s) (c :: ds) = Lt.
Proof.
  intros n s c ds Hc. unfold isDigit in Hc.
  assert (E : (code SP ?= code c)%N = Lt).
  { apply N.compare_lt_iff. change (code SP) with 32%N. lia. }
  cbn [repeat app compareStr]. now rewrite E.
Qed.

(** Right-justified to the same width, a smaller offset is the smaller
    string. *)
Lemma padInt_lt : forall size a b, (0 <= a < b)%Z -> (b <= size)%Z ->
  ltStr (padInt (Z.of_nat (length (FormatInt size))) a)
        (padInt (Z.of_nat (length (FormatInt size))) b) = true.
Proof.
  intros size a b Hab Hb. unfold ltStr, padInt. not_negative.
  replace (Z.abs_nat (Z.of_nat (length (FormatInt size))))
    with (length (FormatInt size)) by lia.
  unfold FormatInt. not_negative.
  set (W := length (utoa size)).
  destruct (utoa_spec a) as (Hna & Hda & Hva & _); [lia|].
  destruct (utoa_spec b) as (Hnb & Hdb & Hvb & _); [lia|].
  assert (Lab : length (utoa a) <= length (utoa b))
    by (apply utoa_length_mono; lia).
  assert (Lb : length (utoa b) <= W) by (apply utoa_length_mono; lia).
  replace (W - length (utoa a))
    with ((W - length (utoa b)) + (length (utoa b) - length (utoa a))) by lia.
  rewrite repeat_app, <- app_assoc, compareStr_app.
  destruct (length (utoa b) - length (utoa a)) as [|d] eqn:Ed.
  - simpl. rewrite digits_compare; try assumption; lia.
  - destruct (utoa b) as [|c ds] eqn:Eb; [congruence|].
    rewrite compareStr_space_digit; [reflexivity|].
    now inversion Hdb.
Qed.

(** ** Ties *)

Lemma keyFields_selected : forall fields1 fields2 keySpecs key,
  map (fun v => index fields1 (COLIDX v)) keySpecs
    = map (fun v => index fields2 (COLIDX v)) keySpecs ->
  keyFields fields1 keySpecs key = keyFields fields2 keySpecs key.
Proof.
  intros fields1 fields2. induction keySpecs as [|v rest IH]; intros key H.
  - reflexivity.
  - simpl in H. injection H as Hv Hrest. simpl. rewrite Hv.
    destruct (index fields2 (COLIDX v)); simpl; [now apply IH | reflexivity].
Qed.

(** The entries carry the keys of their records, and their offsets grow. *)
Lemma entriesFrom_keys : forall compositeKeyFn rds start es,
  entriesFrom compositeKeyFn rds start = Ok es ->
  Forall (fun e => compositeKeyFn (Trim blank (entRecord e)) (entOffset e)
                   = Ok (entKey e) /\ (start <= entOffset e)%Z) es /\
  StronglySorted (fun a b => (entOffset a < entOffset b)%Z) es.
Proof.
  intros compositeKeyFn. induction rds as [|[record eof] rds IH]; intros start es H.
  - injection H as <-. split; constructor.
  - cbn [entriesFrom] in H.
    destruct (0 <? length (Trim blank record)) eqn:Enb.
    + destruct (compositeKeyFn (Trim blank record) start) as [k|f] eqn:Ek;
        [|discriminate]. cbn [bind] in H.
      destruct (entriesFrom compositeKeyFn rds
                  (start + Z.of_nat (length record))%Z) as [es'|f] eqn:E;
        [|discriminate]. cbn [bind] in H. injection H as <-.
      destruct (IH _ _ E) as [Hk Hs].
      assert (Hrec : 0 < length record).
      { apply Nat.ltb_lt in Enb.
        destruct record; [vm_compute in Enb; lia | simpl; lia]. }
      split.
      * constructor; [simpl; split; [exact Ek | lia]|].
        eapply Forall_impl; [|exact Hk]. simpl. intros e [H1 H2]. split; [exact H1 | lia].
      * constructor; [exact Hs|].
        eapply Forall_impl; [|exact Hk]. simpl. intros e [_ H2]. lia.
    + destruct (IH _ _ H) as [Hk Hs]. split; [|exact Hs].
      eapply Forall_impl; [|exact Hk]. simpl. intros e [H1 H2]. split; [exact H1 | lia].
Qed.

Lemma before_offsets : forall es e1 e2,
  StronglySorted (fun a b => (entOffset a < entOffset b)%Z) es ->
  before e1 e2 es -> (entOffset e1 < entOffset e2)%Z.
Proof.
  intros es e1 e2 Hs (l1 & l2 & l3 & ->).
  induction l1 as [|x l1 IH]; simpl in Hs.
  - inversion Hs as [|? ? _ Hall]; subst. rewrite Forall_forall in Hall.
    apply Hall. apply in_or_app. right. now left.
  - inversion Hs; subst. now apply IH.
Qed.

(** In a sorted list with the key of [e1] strictly before the key of [e2],
    [e1] stands before [e2]. *)
Lemma sorted_before : forall sortAsc out e1 e2,
  Sorted (inOrder sortAsc) (map entKey out) ->
  In e1 out -> In e2 out ->
  less sortAsc (entKey e1) (entKey e2) = true ->
  before e1 e2 out.
Proof.
  intros sortAsc out e1 e2 Hs H1 H2 Hless.
  apply in_split in H1. destruct H1 as (l1 & l2 & ->).
  apply in_app_or in H2. destruct H2 as [H2 | [H2 | H2]].
  - exfalso. apply in_split in H2. destruct H2 as (a & b & ->).
    rewrite <- app_assoc in Hs. simpl in Hs. rewrite map_app in Hs.
    assert (S2 : Sorted (inOrder sortAsc) (map entKey (e2 :: b ++ e1 :: l2))).
    { clear -Hs. induction (map entKey a) as [|x l IH]; [exact Hs|].
      simpl in Hs. inversion Hs; subst. now apply IH. }
    simpl in S2.
    assert (O : inOrder sortAsc (entKey e2) (entKey e1)).
    { apply (Sorted_inOrder_all sortAsc _ _ S2).
      rewrite map_app. apply in_or_app. right. now left. }
    unfold inOrder in O. congruence.
  - exfalso. subst e2. destruct sortAsc; unfold less in Hless;
      now rewrite ltStr_irrefl in Hless.
  - apply in_split in H2. destruct H2 as (a & b & ->).
    now exists l1, a, b.
Qed.

Section Ties.

Variable glob : nat -> list gostring -> list gostring.
Hypothesis glob_perm : forall n dir, Permutation (glob n dir) dir.

(** Two records with the same selected fields: the key of the first in the
    source is the smaller one, whatever the direction of the sort. *)
Lemma ties_keys :
  forall w inFile outFile usingFields sep keysPerSort source es keySpecs e1 e2,
  validInput w inFile outFile usingFields sep keysPerSort source es ->
  keySpecsOf source usingFields sep = Ok keySpecs ->
  before e1 e2 es ->
  selected keySpecs sep (entRecord e1) = selected keySpecs sep (entRecord e2) ->
  ltStr (entKey e1) (entKey e2) = true.
Proof.
  intros w inFile outFile usingFields sep keysPerSort source es keySpecs e1 e2
         Hvalid Hspecs Hbefore Hsel.
  destruct Hvalid as (_ & _ & _ & _ & _ & _ & _ & _ & Hsize & HGS & _ & Hes & _).
  pose proof (no_separator source HGS) as HGS'.
  unfold entriesOf in Hes. rewrite Hspecs in Hes. cbn [bind] in Hes.
  destruct (entriesFrom_keys _ _ _ _ Hes) as [Hkeys Hoffs].
  destruct (entriesFrom_props source sep keySpecs HGS' Hsize source [] es
              eq_refl Hes) as [Hres _].
  pose proof (before_offsets es e1 e2 Hoffs Hbefore) as Hlt.
  destruct Hbefore as (l1 & l2 & l3 & ->).
  rewrite Forall_forall in Hkeys, Hres.
  assert (In1 : In e1 (l1 ++ e1 :: l2 ++ e2 :: l3))
    by (apply in_or_app; right; now left).
  assert (In2 : In e2 (l1 ++ e1 :: l2 ++ e2 :: l3)).
  { apply in_or_app. right. right. apply in_or_app. right. now left. }
  destruct (Hkeys e1 In1) as [K1 O1]. destruct (Hkeys e2 In2) as [K2 _].
  destruct (Hres e2 In2) as (_ & R2 & _).
  unfold makeCompositeKeyFn in K1, K2. unfold selected in Hsel.
  rewrite (keyFields_selected _ _ _ [] Hsel) in K1.
  destruct (keyFields (Split (Trim blank (entRecord e2)) sep) keySpecs [])
    as [body|f]; [|discriminate].
  cbn [bind] in K1, K2. injection K1 as <-. injection K2 as <-.
  rewrite ltStr_app. unfold ltStr. cbn [app compareStr].
  rewrite N.compare_refl.
  set (W := Z.of_nat (seekLenOf source)).
  fold (ltStr (padInt W (entOffset e1)) (padInt W (entOffset e2))).
  unfold W, seekLenOf. apply padInt_lt; [lia|].
  (* the offset of a record lies within the source *)
  destruct (Z_le_gt_dec (entOffset e2) (Z.of_nat (length source))) as [Hle | Hgt];
    [exact Hle|].
  exfalso. rewrite skipn_all2 in R2 by lia. simpl in R2.
  assert (Hrec : In (entRecord e2) (filter nonBlank (map fst (reads source)))).
  { rewrite <- (entriesFrom_records _ _ _ _ Hes). now apply in_map. }
  apply filter_In in Hrec. destruct Hrec as [_ Hnb]. rewrite <- R2 in Hnb.
  discriminate.
Qed.

(** X1: in an ascending sort two records with the same selected fields are
    written in the order of the source. *)
Theorem Sort_ascending_stable :
  forall w inFile outFile usingFields sep keysPerSort verbose source es
         keySpecs e1 e2,
  validInput w inFile outFile usingFields sep keysPerSort source es ->
  keySpecsOf source usingFields sep = Ok keySpecs ->
  before e1 e2 es ->
  selected keySpecs sep (entRecord e1) = selected keySpecs sep (entRecord e2) ->
  exists out,
    Sort glob w inFile outFile true usingFields sep keysPerSort verbose
      = (sortedWorld w outFile (map entRecord out), Ok tt) /\
    before e1 e2 out.
Proof.
  intros w inFile outFile usingFields sep keysPerSort verbose source es
         keySpecs e1 e2 Hvalid Hspecs Hbefore Hsel.
  exists (sortEntries true es). split.
  - exact (Sort_sorts glob glob_perm w inFile outFile true usingFields sep
             keysPerSort verbose source es Hvalid).
  - pose proof (ties_keys _ _ _ _ _ _ _ _ _ _ _ Hvalid Hspecs Hbefore Hsel) as Hlt.
    destruct Hbefore as (l1 & l2 & l3 & ->).
    apply (sorted_before true); [apply sortEntries_sorted | | | exact Hlt].
    + apply (Permutation_in _ (Permutation_sym (sortEntries_perm true _))).
      apply in_or_app. right. now left.
    + apply (Permutation_in _ (Permutation_sym (sortEntries_perm true _))).
      apply in_or_app. right. right. apply in_or_app. right. now left.
Qed.

(** X2: in a descending sort two records with the same selected fields are
    written in the reverse of the order of the source. *)
Theorem Sort_descending_reverses_ties :
  forall w inFile outFile usingFields sep keysPerSort verbose source es
         keySpecs e1 e2,
  validInput w inFile outFile usingFields sep keysPerSort source es ->
  keySpecsOf source usingFields sep = Ok keySpecs ->
  before e1 e2 es ->
  selected keySpecs sep (entRecord e1) = selected keySpecs sep (entRecord e2) ->
  exists out,
    Sort glob w inFile outFile false usingFields sep keysPerSort verbose
      = (sortedWorld w outFile (map entRecord out), Ok tt) /\
    before e2 e1 out.
Proof.
  intros w inFile outFile usingFields sep keysPerSort verbose source es
         keySpecs e1 e2 Hvalid Hspecs Hbefore Hsel.
  exists (sortEntries false es). split.
  - exact (Sort_sorts glob glob_perm w inFile outFile false usingFields sep
             keysPerSort verbose source es Hvalid).
  - pose proof (ties_keys _ _ _ _ _ _ _ _ _ _ _ Hvalid Hspecs Hbefore Hsel) as Hlt.
    destruct Hbefore as (l1 & l2 & l3 & ->).
    apply (sorted_before false); [apply sortEntries_sorted | | | exact Hlt].
    + apply (Permutation_in _ (Permutation_sym (sortEntries_perm false _))).
      apply in_or_app. right. right. apply in_or_app. right. now left.
    + apply (Permutation_in _ (Permutation_sym (sortEntries_perm false _))).
      apply in_or_app. right. now left.
Qed.

End Ties.

Lemma validInput_ties : forall keysPerSort, keysPerSort <> 0%Z ->
  validInput (oneFile tiesSource) (str "in") (str "out") (str "2") [TAB]
             keysPerSort tiesSource tiesEntries.
Proof.
  intros keysPerSort H. unfold validInput.
  repeat split; try discriminate; try assumption; reflexivity.
Qed.

Lemma Sort_ascending_stable_witness :
  exists out,
    Sort globInOrder (oneFile tiesSource) (str "in") (str "out") true
         (str "2") [TAB] 1%Z false
      = (sortedWorld (oneFile tiesSource) (str "out") (map entRecord out), Ok tt) /\
    before (nth 0 tiesEntries (Build_entry 0 [] []))
           (nth 1 tiesEntries (Build_entry 0 [] [])) out.
Proof.
  apply (Sort_ascending_stable globInOrder globInOrder_perm
           (oneFile tiesSource) (str "in") (str "out") (str "2") [TAB] 1%Z false
           tiesSource tiesEntries
           [{| COLIDX := 1; FORMAT := 1 |}]).
  - apply validInput_ties. discriminate.
  - reflexivity.
  - exists [], [], []. reflexivity.
  - reflexivity.
Defined.

Lemma Sort_descending_reverses_ties_witness :
  exists out,
    Sort globInOrder (oneFile tiesSource) (str "in") (str "out") false
         (str "2") [TAB] 1%Z false
      = (sortedWorld (oneFile tiesSource) (str "out") (map entRecord out), Ok tt) /\
    before (nth 1 tiesEntries (Build_entry 0 [] []))
           (nth 0 tiesEntries (Build_entry 0 [] [])) out.
Proof.
  apply (Sort_descending_reverses_ties globInOrder globInOrder_perm
           (oneFile tiesSource) (str "in") (str "out") (str "2") [TAB] 1%Z false
           tiesSource tiesEntries
           [{| COLIDX := 1; FORMAT := 1 |}]).
  - apply validInput_ties. discriminate.
  - reflexivity.
  - exists [], [], []. reflexivity.
  - reflexivity.
Defined.

(** ** Counting runes *)

Lemma runeSize_pos : forall s, 1 <= runeSize s.
Proof.
  intro s. unfold runeSize.
  repeat match goal with
         | |- context [if ?b then _ else _] => destruct b
         | |- context [match ?x with _ => _ end] => destruct x
         end; lia.
Qed.

Lemma runeCountFuel_enough : forall fuel1 fuel2 s,
  length s <= fuel1 -> length s <= fuel2 ->
  runeCountFuel fuel1 s = runeCountFuel fuel2 s.
Proof.
  induction fuel1 as [|fuel1 IH]; intros fuel2 s H1 H2.
  - destruct s; [|simpl in H1; lia]. destruct fuel2; reflexivity.
  - destruct s as [|c s]; [destruct fuel2; reflexivity|].
    destruct fuel2 as [|fuel2]; [simpl in H2; lia|].
    cbn [runeCountFuel]. f_equal.
    pose proof (runeSize_pos (c :: s)) as Hp.
    apply IH; rewrite length_skipn; cbn [length] in *; lia.
Qed.

(** A string of ASCII bytes has as many runes as bytes. *)
Lemma RuneCountInString_ascii : forall s,
  Forall (fun c => (code c < 128)%N) s -> RuneCountInString s = length s.
Proof.
  induction s as [|c s IH]; intro H; [reflexivity|].
  inversion H as [|? ? Hc Hs]; subst.
  unfold RuneCountInString. cbn [length runeCountFuel].
  assert (E : runeSize (c :: s) = 1).
  { unfold runeSize. replace (code c <? 128)%N with true; [reflexivity|].
    symmetry. now apply N.ltb_lt. }
  rewrite E. cbn [skipn]. f_equal. now apply IH.
Qed.

(** For ASCII values, right-justified to a width [w] that covers them, the
    result has the width [w]. *)
Lemma padString_length_ascii : forall w s,
  Forall (fun c => (code c < 128)%N) s -> length s <= w ->
  length (padString w s) = w.
Proof.
  intros w s H Hw. unfold padString.
  rewrite length_app, repeat_length, RuneCountInString_ascii by assumption. lia.
Qed.

(** ** The loops of the model run to their end *)

Lemma sortKeys_unique : forall sortAsc keys l,
  Sorted (inOrder sortAsc) l -> Permutation l keys -> l = sortKeys sortAsc keys.
Proof.
  intros sortAsc keys l Hs Hp. apply (sorted_unique sortAsc).
  - exact Hs.
  - apply sortKeys_sorted.
  - eapply Permutation_trans; [exact Hp | apply Permutation_sym, sortKeys_perm].
Qed.

Lemma load_measure : forall key err reader,
  let '(k, e, r) := if isEmpty key then readString reader
                    else (key, err, reader) in
  (if isEmpty k then 0 else 1) + length r
    <= (if isEmpty key then 0 else 1) + length reader /\
  (isEmpty k = true -> e = true).
Proof.
  intros key err reader. destruct (isEmpty key) eqn:Ek.
  - destruct (readString_cases reader)
      as [(body & rest & _ & -> & ->) | [_ ->]].
    + split; [|destruct body; discriminate].
      rewrite length_app. destruct body; simpl; lia.
    + split; [destruct reader; simpl; lia | reflexivity].
  - rewrite Ek. split; [lia | discriminate].
Qed.

Lemma mergeStep_progress : forall sortAsc m,
  mergeCond (mergeStep sortAsc m) = false \/
  mergeMeasure (mergeStep sortAsc m) < mergeMeasure m.
Proof.
  intros sortAsc m. unfold mergeStep.
  pose proof (load_measure (key1 m) (errKeys1 m) (reader1 m)) as L1.
  pose proof (load_measure (key2 m) (errKeys2 m) (reader2 m)) as L2.
  destruct (if isEmpty (key1 m) then readString (reader1 m)
            else (key1 m, errKeys1 m, reader1 m)) as [[k1 e1] r1].
  destruct (if isEmpty (key2 m) then readString (reader2 m)
            else (key2 m, errKeys2 m, reader2 m)) as [[k2 e2] r2].
  destruct L1 as [M1 E1]. destruct L2 as [M2 E2].
  destruct (if sortAsc then ltStr k1 k2 else gtStr k1 k2).
  - destruct (isEmpty k1) eqn:Ek.
    + left. unfold mergeCond. cbn [key1 errKeys1 isEmpty].
      now rewrite (E1 eq_refl).
    + right. unfold mergeMeasure. cbn [key1 key2 reader1 reader2 isEmpty]. lia.
  - destruct (isEmpty k2) eqn:Ek.
    + left. unfold mergeCond. cbn [key2 errKeys2 isEmpty].
      rewrite (E2 eq_refl). apply andb_false_r.
    + right. unfold mergeMeasure. cbn [key1 key2 reader1 reader2 isEmpty]. lia.
Qed.

Lemma mergeLoop_total : forall sortAsc fuel m,
  mergeMeasure m < fuel -> exists m', mergeLoop fuel sortAsc m = Ok m'.
Proof.
  intros sortAsc. induction fuel as [|fuel IH]; intros m H; [lia|].
  cbn [mergeLoop]. destruct (mergeCond m); [|eauto].
  destruct (mergeStep_progress sortAsc m) as [Hdone | Hless].
  - exists (mergeStep sortAsc m). now apply mergeLoop_done.
  - apply IH. lia.
Qed.

(** A merge task ends, whatever the two files hold and whatever was left in
    [key1] and [key2]. *)
Lemma mergeTask_total : forall sortAsc keys12 f1 f2,
  exists r, mergeTask sortAsc keys12 f1 f2 = Ok r.
Proof.
  intros sortAsc keys12 f1 f2. unfold mergeTask.
  match goal with
  | |- context [mergeLoop ?fuel sortAsc ?m] =>
      destruct (mergeLoop_total sortAsc fuel m) as (m' & ->)
  end.
  - unfold mergeMeasure. cbn [key1 key2 reader1 reader2].
    destruct (isEmpty (fst keys12)), (isEmpty (snd keys12)); lia.
  - simpl. eauto.
Qed.


Section Termination.

Variable glob : nat -> list gostring -> list gostring.
Hypothesis glob_perm : forall n dir, Permutation (glob n dir) dir.












End Termination.


(** ** The order that right-justified fields give *)

(** Right-justified to the same width, a value with fewer characters stands
    before a longer one that starts with a byte above the space: numbers
    without sign or leading zero sort by their value. *)
Lemma padString_shorter_first : forall w a c b,
  RuneCountInString a < RuneCountInString (c :: b) ->
  RuneCountInString (c :: b) <= w ->
  (code SP < code c)%N ->
  ltStr (padString w a) (padString w (c :: b)) = true.
Proof.
  intros w a c b Hab Hw Hc. unfold ltStr, padString.
  replace (w - RuneCountInString a)
    with ((w - RuneCountInString (c :: b))
          + S (RuneCountInString (c :: b) - RuneCountInString a - 1)) by lia.
  rewrite repeat_app, <- app_assoc, compareStr_app.
  cbn [repeat app compareStr].
  apply N.compare_lt_iff in Hc. now rewrite Hc.
Qed.

(** ** Split and Join *)

Lemma HasPrefix_true : forall prefix s,
  HasPrefix s prefix = true -> exists rest, s = prefix ++ rest.
Proof.
  induction prefix as [|p prefix IH]; intros s H.
  - exists s. reflexivity.
  - destruct s as [|c s]; [discriminate|]. simpl in H.
    apply andb_prop in H. destruct H as [Hc Hs]. apply byteEq_true in Hc.
    subst c. destruct (IH s Hs) as (rest & ->). now exists rest.
Qed.

Lemma splitFrom_skip : forall sep pre cur s,
  splitFrom sep (length pre) cur (pre ++ s) = splitFrom sep 0 cur s.
Proof.
  intros sep. induction pre as [|c pre IH]; intros cur s; [reflexivity|].
  cbn [length app splitFrom]. apply IH.
Qed.

Lemma splitFrom_nonempty : forall sep s skip cur, splitFrom sep skip cur s <> [].
Proof.
  intros sep. induction s as [|c s IH]; intros skip cur; cbn [splitFrom].
  - discriminate.
  - destruct skip; [|apply IH].
    destruct (HasPrefix (c :: s) sep); [discriminate | apply IH].
Qed.

Lemma Join_cons : forall x rest sep,
  rest <> [] -> Join (x :: rest) sep = x ++ sep ++ Join rest sep.
Proof. intros x [|y rest] sep H; [congruence | reflexivity]. Qed.

(** Joining the pieces of a string with the separator gives the string
    back. *)
Lemma Split_Join : forall sep s, sep <> [] -> Join (Split s sep) sep = s.
Proof.
  intros sep s Hsep. unfold Split.
  assert (G : forall n s, length s = n ->
              forall cur, Join (splitFrom sep 0 cur s) sep = cur ++ s).
  { clear s. induction n as [n IH] using lt_wf_ind. intros s Hn cur.
    destruct s as [|c s]; [simpl; now rewrite app_nil_r|].
    cbn [splitFrom]. destruct (HasPrefix (c :: s) sep) eqn:E.
    - apply HasPrefix_true in E. destruct E as (rest & E).
      destruct sep as [|p sep']; [congruence|].
      injection E as -> ->.
      replace (length (p :: sep') - 1) with (length sep') by (simpl; lia).
      rewrite splitFrom_skip, Join_cons by apply splitFrom_nonempty.
      rewrite (IH (length rest)); [reflexivity | | reflexivity].
      subst n. simpl. rewrite length_app. lia.
    - rewrite (IH (length s)); [now rewrite <- app_assoc | | reflexivity].
      subst n. simpl. lia. }
  apply (G (length s) s eq_refl []).
Qed.

(** ** Printing and parsing an integer *)


(* ================================================================== *)
(** * Further properties of the code *)

(** ** The sort up to the file of the sorted keys *)

Lemma scanned_incl : forall es e, In e (scanned es) -> In e es.
Proof.
  induction es as [|x es IH]; intros e H; [contradiction|].
  simpl in H. destruct (maxTokenSize <=? Z.of_nat (length (entKey x)))%Z;
    [contradiction|].
  destruct H as [-> | H]; [now left | right; now apply IH].
Qed.

Lemma scanned_all : forall es,
  forallb (fun e => (Z.of_nat (length (entKey e)) <? maxTokenSize)%Z) es = true ->
  scanned es = es.
Proof.
  induction es as [|x es IH]; intro H; [reflexivity|].
  simpl in H. apply andb_prop in H. destruct H as [Hx Hes]. simpl.
  apply Z.ltb_lt in Hx.
  replace (maxTokenSize <=? Z.of_nat (length (entKey x)))%Z with false
    by (symmetry; apply Z.leb_gt; exact Hx).
  now rewrite IH.
Qed.

(** The scanner on a file of well-formed keys: it returns the keys one by
    one and stops for good at the first one that does not fit its buffer. *)
Lemma scanFuel_scanned : forall width es fuel,
  Forall (goodKey width) (map entKey es) ->
  length (writeKeys (map entKey es)) <= fuel ->
  scanFuel fuel (writeKeys (map entKey es)) = map entKey (scanned es).
Proof.
  intros width. induction es as [|e es IH]; intros fuel Hg Hf.
  - destruct fuel; reflexivity.
  - cbn [map] in *. inversion Hg as [|? ? Hk Hl]; subst.
    change (writeKeys (entKey e :: map entKey es))
      with ((entKey e ++ [NL]) ++ writeKeys (map entKey es)) in *.
    rewrite <- app_assoc in *. simpl app in *.
    rewrite length_app in Hf. simpl in Hf.
    destruct fuel as [|fuel]; [lia|]. cbn [scanFuel scanned].
    destruct (entKey e ++ NL :: writeKeys (map entKey es)) as [|c d] eqn:E.
    { destruct (entKey e); discriminate. }
    rewrite <- E. rewrite readString_line by now apply (goodKey_no_NL width).
    rewrite removelast_last.
    destruct (maxTokenSize <=? Z.of_nat (length (entKey e)))%Z; [reflexivity|].
    rewrite (dropCR_goodKey width (entKey e) Hk). cbn [map]. f_equal.
    apply IH; [assumption | lia].
Qed.

Lemma scanLines_scanned : forall width es,
  Forall (goodKey width) (map entKey es) ->
  scanLines (writeKeys (map entKey es)) = map entKey (scanned es).
Proof.
  intros width es Hg. unfold scanLines. now apply (scanFuel_scanned width).
Qed.

(** With the source emptied, every key still parses, and the read at its
    offset returns the empty record. *)
Lemma materialize_emptied : forall source width es written,
  Forall (resolves source width) es ->
  materialize [] (map entKey es) written
    = (written ++ map (fun _ => []) es, Ok tt).
Proof.
  intros source width. induction es as [|e es IH]; intros written H.
  - simpl. now rewrite app_nil_r.
  - inversion H as [|? ? He Hes]; subst.
    destruct He as (Hoff & _ & body & Hkey & Hbody).
    cbn [map materialize]. rewrite Hkey.
    rewrite Split_at_sep by (assumption || apply padInt_no_GS).
    rewrite index_second. cbn [bind].
    rewrite seekFile_padInt by lia.
    rewrite skipn_nil. cbn [readString].
    rewrite IH by assumption. now rewrite <- app_assoc.
Qed.

Lemma concat_empties : forall (A B : Type) (l : list A),
  concat (map (fun _ => @nil B) l) = [].
Proof. intros A B. induction l as [|x l IH]; simpl; auto. Qed.

Section KeyFile.

Variable glob : nat -> list gostring -> list gostring.
Hypothesis glob_perm : forall n dir, Permutation (glob n dir) dir.

(** On an input that gets keys, [Sort] reaches its last stage with the key
    file that holds all the keys in their order. *)
Lemma Sort_key_file :
  forall w inFile outFile sortAsc usingFields sep keysPerSort verbose source es,
  keyedInput w inFile outFile usingFields sep keysPerSort source es ->
  Sort glob w inFile outFile sortAsc usingFields sep keysPerSort verbose
    = writeRecords w inFile outFile source
        (writeKeys (map entKey (sortEntries sortAsc es))) /\
  Forall (resolves source (seekLenOf source)) es /\
  Forall (goodKey (seekLenOf source)) (map entKey es).
Proof.
  intros w inFile outFile sortAsc usingFields sep keysPerSort verbose source es
    (Hin & Hout & Hf & Hk & Hsrc & Htmp & Hne & Hsize & HGS & Hsep &
     Hes & Hnonempty).
  set (width := seekLenOf source).
  pose proof (no_separator source HGS) as HGS'.
  unfold Sort.
  rewrite (isEmpty_false _ Hin), (isEmpty_false _ Hout), (isEmpty_false _ Hf).
  apply Z.eqb_neq in Hk. rewrite Hk, Hsrc, (length_eqb_false _ Hne).
  unfold entriesOf, keySpecsOf in Hes.
  destruct (readString source) as [[record0 eof0] rest0].
  cbv zeta in Hes. cbv zeta.
  destruct (widths <- fieldWidths sep (reads source)
                        (repeat 0 (length (Split record0 sep))) ;;
            makeKeySpecs widths (Split usingFields [COMMA]))
    as [keySpecs|f]; [|discriminate].
  cbn [bind] in Hes.
  change (Z.of_nat (length (FormatInt (Z.of_nat (length source)))))
    with (Z.of_nat width).
  destruct (entriesFrom_props source sep keySpecs HGS' Hsize source [] es
              eq_refl Hes) as [Hres Hgood].
  fold width in Hres, Hgood.
  split; [|split; assumption].
  set (start := {| keys := []; recordStart := 0%Z; todo := [];
                   merged := tempDir w; keys12 := ([], []) |}).
  assert (Hinv0 : passInv sortAsc width start []).
  { split; [reflexivity|]. split; [constructor|].
    exists [], []. unfold start. simpl. rewrite Htmp.
    repeat split; auto; constructor. }
  destruct (keyLoop_inv (makeCompositeKeyFn sep keySpecs (Z.of_nat width))
              sortAsc keysPerSort width (reads source) start [] es
              Hinv0 Hes Hgood) as (st & -> & Hinv & _ & Hlast).
  assert (Hkeys : keys st = []).
  { apply Hlast; [|apply reads_last_eof].
    intro E. pose proof (reads_last_eof source) as L. rewrite E in L.
    discriminate. }
  destruct Hinv as (H12 & _ & lsm & lst & Hm & Ht & _ & Hruns & Hperm).
  rewrite Hkeys in Hperm. simpl in Hperm. rewrite app_nil_r in Hperm.
  rewrite H12, Hm, Ht, <- map_app.
  unfold gostring in *.
  destruct (passes_runs glob glob_perm sortAsc
              (length (map (@concat byte) (lsm ++ lst))) 0 (lsm ++ lst)
              ltac:(rewrite length_map; apply le_n) Hruns)
    as (ls' & -> & Hlen & Hruns' & Hperm').
  assert (Hall : Permutation (concat ls')
                   (map lineOf (sortKeys sortAsc (map entKey es)))).
  { eapply Permutation_trans; [exact Hperm'|].
    eapply Permutation_trans; [exact Hperm|].
    apply Permutation_map, Permutation_sym, sortKeys_perm. }
  assert (Hsorted : Forall (goodKey width) (sortKeys sortAsc (map entKey es))).
  { apply (Forall_perm _ _ (map entKey es));
      [apply Permutation_sym, sortKeys_perm | assumption]. }
  destruct ls' as [|l [|l' ls']]; [| |simpl in Hlen; lia].
  - exfalso. simpl in Hall. apply Permutation_nil in Hall.
    apply map_eq_nil in Hall.
    assert (P : Permutation (sortKeys sortAsc (map entKey es)) (map entKey es))
      by apply sortKeys_perm.
    rewrite Hall in P. apply Permutation_nil in P. apply map_eq_nil in P.
    contradiction.
  - simpl in Hall. rewrite app_nil_r in Hall.
    inversion Hruns' as [|? ? [_ Hl] _]; subst.
    assert (El : l = map lineOf (sortKeys sortAsc (map entKey es))).
    { apply (sorted_unique sortAsc); try assumption.
      apply (sorted_lines width); [assumption | apply sortKeys_sorted]. }
    cbn [map]. rewrite El, <- writeKeys_lines, <- sortEntries_keys.
    reflexivity.
Qed.

(** On an input that gets keys, with a destination that is not the source:
    the records are written in the order of their keys up to the first key
    of 64 KiB or more, and the sort ends as if all were written. *)
Lemma Sort_scanned :
  forall w inFile outFile sortAsc usingFields sep keysPerSort verbose source es,
  keyedInput w inFile outFile usingFields sep keysPerSort source es ->
  eqStr inFile outFile = false ->
  Sort glob w inFile outFile sortAsc usingFields sep keysPerSort verbose
    = (sortedWorld w outFile
         (map entRecord (scanned (sortEntries sortAsc es))), Ok tt).
Proof.
  intros w inFile outFile sortAsc usingFields sep keysPerSort verbose source es
         Hkeyed Hdiff.
  destruct (Sort_key_file w inFile outFile sortAsc usingFields sep keysPerSort
              verbose source es Hkeyed) as (-> & Hres & Hgood).
  unfold writeRecords. rewrite Hdiff.
  rewrite (scanLines_scanned (seekLenOf source)).
  - rewrite (materialize_entries source (seekLenOf source)); [reflexivity|].
    apply Forall_forall. intros e He. apply scanned_incl in He.
    rewrite Forall_forall in Hres. apply Hres.
    now apply (Permutation_in _ (sortEntries_perm sortAsc es)).
  - rewrite sortEntries_keys.
    apply (Forall_perm _ _ (map entKey es));
      [apply Permutation_sym, sortKeys_perm | assumption].
Qed.

(** On an input that gets keys, with the source as destination: creating the
    destination empties the source, every record read back is empty, and the
    file is left empty. *)
Lemma Sort_emptied :
  forall w inFile sortAsc usingFields sep keysPerSort verbose source es,
  keyedInput w inFile inFile usingFields sep keysPerSort source es ->
  Sort glob w inFile inFile sortAsc usingFields sep keysPerSort verbose
    = (sortedWorld w inFile [], Ok tt).
Proof.
  intros w inFile sortAsc usingFields sep keysPerSort verbose source es Hkeyed.
  destruct (Sort_key_file w inFile inFile sortAsc usingFields sep keysPerSort
              verbose source es Hkeyed) as (-> & Hres & Hgood).
  unfold writeRecords. rewrite eqStr_refl.
  rewrite (scanLines_scanned (seekLenOf source)).
  - rewrite (materialize_emptied source (seekLenOf source)).
    + unfold sortedWorld. cbn [app]. now rewrite concat_empties.
    + apply Forall_forall. intros e He. apply scanned_incl in He.
      rewrite Forall_forall in Hres. apply Hres.
      now apply (Permutation_in _ (sortEntries_perm sortAsc es)).
  - rewrite sortEntries_keys.
    apply (Forall_perm _ _ (map entKey es));
      [apply Permutation_sym, sortKeys_perm | assumption].
Qed.

End KeyFile.

(** ** A key that does not fit the scanner *)

(** X7: the scanner that reads the sorted keys back gives up at the first key
    of 64 KiB or more, and [Sort] does not look at its error: on an input
    that gets keys, with a destination other than the source, the output
    holds the records in the order of their keys up to that key only, the
    other records are missing, and the sort ends as a success, its key file
    removed. *)
Theorem Sort_long_key_truncates :
  forall glob, (forall n dir, Permutation (glob n dir) dir) ->
  forall w inFile outFile sortAsc usingFields sep keysPerSort verbose source es,
  keyedInput w inFile outFile usingFields sep keysPerSort source es ->
  eqStr inFile outFile = false ->
  Sort glob w inFile outFile sortAsc usingFields sep keysPerSort verbose
    = (sortedWorld w outFile
         (map entRecord (scanned (sortEntries sortAsc es))), Ok tt).
Proof.
  intros glob Hglob w inFile outFile sortAsc usingFields sep keysPerSort verbose
         source es Hkeyed Hdiff.
  exact (Sort_scanned glob Hglob w inFile outFile sortAsc usingFields sep
           keysPerSort verbose source es Hkeyed Hdiff).
Qed.

Lemma wideEntries_nonempty : wideEntries <> [].
Proof.
  assert (H : (match wideEntries with [] => false | _ => true end) = true)
    by (vm_compute; reflexivity).
  intro E. rewrite E in H. discriminate H.
Qed.

Lemma keyedInput_wide :
  keyedInput (oneFile wideSource) (str "in") (str "out") wideColumns [TAB]
             10%Z wideSource wideEntries.
Proof.
  unfold keyedInput.
  split; [discriminate|]. split; [discriminate|]. split; [discriminate|].
  split; [discriminate|]. split; [reflexivity|]. split; [reflexivity|].
  split; [discriminate|]. split; [vm_compute; reflexivity|].
  split; [vm_compute; reflexivity|]. split; [discriminate|].
  split; [|exact wideEntries_nonempty].
  pose proof wideEntries_nonempty as H. unfold wideEntries in *.
  destruct (entriesOf wideSource wideColumns [TAB]); [reflexivity | congruence].
Qed.

(** The only record of the source has a key of 65536 bytes and more: nothing
    is written. *)
Lemma Sort_long_key_truncates_witness :
  Sort globInOrder (oneFile wideSource) (str "in") (str "out") true
       wideColumns [TAB] 10%Z false
    = (sortedWorld (oneFile wideSource) (str "out")
         (map entRecord (scanned (sortEntries true wideEntries))), Ok tt) /\
  scanned (sortEntries true wideEntries) = [].
Proof.
  split; [|vm_compute; reflexivity].
  apply (Sort_long_key_truncates globInOrder globInOrder_perm
           (oneFile wideSource) (str "in") (str "out") true wideColumns [TAB]
           10%Z false wideSource wideEntries).
  - exact keyedInput_wide.
  - reflexivity.
Defined.

(** ** The source as destination *)

(** X6: when the destination is the source file itself, creating the
    destination empties the source before any record is read back: on an
    input that gets keys the sort ends as a success and leaves the file
    empty.  All the records are lost. *)
Theorem Sort_onto_source_empties :
  forall glob, (forall n dir, Permutation (glob n dir) dir) ->
  forall w inFile sortAsc usingFields sep keysPerSort verbose source es,
  keyedInput w inFile inFile usingFields sep keysPerSort source es ->
  Sort glob w inFile inFile sortAsc usingFields sep keysPerSort verbose
    = (sortedWorld w inFile [], Ok tt) /\
  files (sortedWorld w inFile []) inFile = Some [].
Proof.
  intros glob Hglob w inFile sortAsc usingFields sep keysPerSort verbose
         source es Hkeyed.
  split.
  - exact (Sort_emptied glob Hglob w inFile sortAsc usingFields sep
             keysPerSort verbose source es Hkeyed).
  - apply files_sortedWorld.
Qed.

Lemma keyedInput_demo_same :
  keyedInput (oneFile demoSource) (str "in") (str "in") (str "2,1") [TAB]
             2%Z demoSource demoEntries.
Proof.
  unfold keyedInput. repeat split; try discriminate; reflexivity.
Qed.

Lemma Sort_onto_source_empties_witness :
  Sort globInOrder (oneFile demoSource) (str "in") (str "in") true
       (str "2,1") [TAB] 2%Z false
    = (sortedWorld (oneFile demoSource) (str "in") [], Ok tt) /\
  files (sortedWorld (oneFile demoSource) (str "in") []) (str "in") = Some [].
Proof.
  apply (Sort_onto_source_empties globInOrder globInOrder_perm
           (oneFile demoSource) (str "in") true (str "2,1") [TAB] 2%Z false
           demoSource demoEntries).
  exact keyedInput_demo_same.
Defined.

(** ** A source of blank records *)

Lemma keyLoop_blank : forall compositeKeyFn sortAsc keysPerSort rds st,
  (forall record eof, In (record, eof) rds -> nonBlank record = false) ->
  keys st = [] ->
  exists start',
    keyLoop compositeKeyFn sortAsc keysPerSort rds st
      = ({| keys := []; recordStart := start'; todo := todo st;
            merged := merged st; keys12 := keys12 st |}, Ok tt).
Proof.
  intros compositeKeyFn sortAsc keysPerSort.
  induction rds as [|[record eof] rds IH]; intros st Hblank Hkeys.
  - exists (recordStart st). destruct st; simpl in *; subst. reflexivity.
  - cbn [keyLoop]. unfold keyStep.
    assert (Hb : (0 <? length (Trim blank record)) = false)
      by (apply (Hblank record eof); now left).
    rewrite Hb, Hkeys. cbn [length Nat.ltb Nat.leb andb].
    match goal with
    | |- context [keyLoop _ _ _ rds ?st1] =>
        destruct (IH st1) as (start' & ->);
          [intros r e Hr; apply (Hblank r e); now right | reflexivity |]
    end.
    now exists start'.
Qed.

(** X8: a source that is not empty and holds blank records only (spaces,
    CR, LF) gets no key and no key file; the listing of the key files is
    empty and [todo[0]] is out of range.  The sort ends in a runtime panic
    and creates no destination file. *)
Theorem Sort_blank_source_panics :
  forall glob, (forall n dir, Permutation (glob n dir) dir) ->
  forall w inFile outFile sortAsc usingFields sep keysPerSort verbose source
         keySpecs,
  inFile <> [] -> outFile <> [] -> usingFields <> [] -> keysPerSort <> 0%Z ->
  files w inFile = Some source -> source <> [] -> tempDir w = [] ->
  keySpecsOf source usingFields sep = Ok keySpecs ->
  (forall record eof, In (record, eof) (reads source) ->
     nonBlank record = false) ->
  Sort glob w inFile outFile sortAsc usingFields sep keysPerSort verbose
    = (setTempDir w [], Fail Panic).
Proof.
  intros glob Hglob w inFile outFile sortAsc usingFields sep keysPerSort verbose
         source keySpecs Hin Hout Hf Hk Hsrc Hne Htmp Hspecs Hblank.
  unfold Sort.
  rewrite (isEmpty_false _ Hin), (isEmpty_false _ Hout), (isEmpty_false _ Hf).
  apply Z.eqb_neq in Hk. rewrite Hk, Hsrc, (length_eqb_false _ Hne).
  unfold keySpecsOf in Hspecs.
  destruct (readString source) as [[record0 eof0] rest0].
  cbv zeta in Hspecs. cbv zeta. rewrite Hspecs.
  match goal with
  | |- context [keyLoop ?fn sortAsc keysPerSort (reads source) ?st] =>
      destruct (keyLoop_blank fn sortAsc keysPerSort (reads source) st Hblank
                  eq_refl) as (start' & ->)
  end.
  cbn [merged todo keys12]. rewrite Htmp. cbn [app length passes].
  assert (E : glob 0 [] = []).
  { apply Permutation_nil. apply Permutation_sym. apply Hglob. }
  rewrite E. reflexivity.
Qed.

Lemma Sort_blank_source_panics_witness :
  Sort globInOrder (oneFile blankLines) (str "in") (str "out") true (str "1")
       [TAB] 10%Z false
    = (setTempDir (oneFile blankLines) [], Fail Panic).
Proof.
  apply (Sort_blank_source_panics globInOrder globInOrder_perm
           (oneFile blankLines) (str "in") (str "out") true (str "1") [TAB]
           10%Z false blankLines [{| COLIDX := 0; FORMAT := 0 |}]);
    try discriminate; try reflexivity.
  intros record eof H. vm_compute in H.
  destruct H as [H | [H | [H | []]]]; injection H as <- <-; reflexivity.
Defined.

(** ** A record without a selected column *)

Lemma keyFields_fault : forall fields keySpecs key f,
  keyFields fields keySpecs key = Fail f -> f = Panic.
Proof.
  intros fields. induction keySpecs as [|v rest IH]; intros key f; simpl.
  - discriminate.
  - destruct (index_cases fields (COLIDX v)) as [(x & -> & _) | ->]; simpl.
    + apply IH.
    + intro H. now injection H as <-.
Qed.

(** A turn of the pass that creates the key files fails by a panic of the
    key encoder only. *)
Lemma keyStep_fault : forall sep keySpecs seekLen sortAsc keysPerSort st record
                             eof f,
  snd (keyStep (makeCompositeKeyFn sep keySpecs seekLen) sortAsc keysPerSort
               st record eof) = Fail f ->
  f = Panic.
Proof.
  intros sep keySpecs seekLen sortAsc keysPerSort st record eof f.
  unfold keyStep, makeCompositeKeyFn.
  destruct (0 <? length (Trim blank record)).
  - destruct (keyFields (Split (Trim blank record) sep) keySpecs []) as [k|f']
      eqn:Ek; cbn [bind].
    + destruct (_ && _); [|discriminate].
      destruct (todo st ++ _) as [|f1 [|f2 [|f3 rest]]]; try discriminate.
      destruct (mergeTask_total sortAsc (keys12 st) f1 f2) as ([out k12] & ->).
      discriminate.
    + intro H. injection H as <-. now apply keyFields_fault in Ek.
  - destruct (_ && _); [|discriminate].
    destruct (todo st ++ _) as [|f1 [|f2 [|f3 rest]]]; try discriminate.
    destruct (mergeTask_total sortAsc (keys12 st) f1 f2) as ([out k12] & ->).
    discriminate.
Qed.

Lemma keyLoop_short_record : forall sep keySpecs seekLen sortAsc keysPerSort
                                    record eof rds st,
  In (record, eof) rds -> nonBlank record = true ->
  ~ Forall (hasField (Split (Trim blank record) sep)) keySpecs ->
  snd (keyLoop (makeCompositeKeyFn sep keySpecs seekLen) sortAsc keysPerSort
               rds st) = Fail Panic.
Proof.
  intros sep keySpecs seekLen sortAsc keysPerSort record eof.
  induction rds as [|[r e] rds IH]; intros st Hin Hnb Hshort; [contradiction|].
  cbn [keyLoop].
  pose proof (keyStep_fault sep keySpecs seekLen sortAsc keysPerSort st r e)
    as Hfault.
  destruct (keyStep (makeCompositeKeyFn sep keySpecs seekLen) sortAsc
              keysPerSort st r e) as [st' [u|f]] eqn:Estep.
  - destruct Hin as [Heq | Hin]; [|now apply IH].
    exfalso. injection Heq as -> ->. revert Estep.
    unfold keyStep, makeCompositeKeyFn. unfold nonBlank in Hnb. rewrite Hnb.
    rewrite keyFields_Panic by assumption. discriminate.
  - simpl. f_equal. now apply Hfault.
Qed.

(** X9: a record that is not blank and has fewer fields than a selected
    column asks for makes the whole sort end in a runtime panic (the key
    encoder indexes the fields without a check), wherever the record stands
    in the source; the destination file is not created. *)
Theorem Sort_short_record_panics :
  forall glob w inFile outFile sortAsc usingFields sep keysPerSort verbose
         source keySpecs record eof,
  inFile <> [] -> outFile <> [] -> usingFields <> [] -> keysPerSort <> 0%Z ->
  files w inFile = Some source -> source <> [] ->
  keySpecsOf source usingFields sep = Ok keySpecs ->
  In (record, eof) (reads source) -> nonBlank record = true ->
  ~ Forall (hasField (Split (Trim blank record) sep)) keySpecs ->
  snd (Sort glob w inFile outFile sortAsc usingFields sep keysPerSort verbose)
    = Fail Panic /\
  files (fst (Sort glob w inFile outFile sortAsc usingFields sep keysPerSort
                   verbose)) = files w.
Proof.
  intros glob w inFile outFile sortAsc usingFields sep keysPerSort verbose
         source keySpecs record eof Hin Hout Hf Hk Hsrc Hne Hspecs Hrec Hnb
         Hshort.
  unfold Sort.
  rewrite (isEmpty_false _ Hin), (isEmpty_false _ Hout), (isEmpty_false _ Hf).
  apply Z.eqb_neq in Hk. rewrite Hk, Hsrc, (length_eqb_false _ Hne).
  unfold keySpecsOf in Hspecs.
  destruct (readString source) as [[record0 eof0] rest0].
  cbv zeta in Hspecs. cbv zeta. rewrite Hspecs.
  match goal with
  | |- context [keyLoop ?fn sortAsc keysPerSort (reads source) ?st] =>
      pose proof (keyLoop_short_record sep keySpecs
                    (Z.of_nat (length (FormatInt (Z.of_nat (length source)))))
                    sortAsc keysPerSort
                    record eof (reads source) st Hrec Hnb Hshort) as Hloop;
      destruct (keyLoop fn sortAsc keysPerSort (reads source) st)
        as [st' [u|f]]
  end; [discriminate Hloop|].
  simpl in Hloop. injection Hloop as ->. split; reflexivity.
Qed.

Lemma Sort_short_record_panics_witness :
  snd (Sort globInOrder (oneFile shortSource) (str "in") (str "out") true
            (str "2") [TAB] 10%Z false) = Fail Panic /\
  files (fst (Sort globInOrder (oneFile shortSource) (str "in") (str "out")
                   true (str "2") [TAB] 10%Z false))
    = files (oneFile shortSource).
Proof.
  apply (Sort_short_record_panics globInOrder (oneFile shortSource) (str "in")
           (str "out") true (str "2") [TAB] 10%Z false shortSource
           [{| COLIDX := 1; FORMAT := 1 |}] (str "c" ++ [NL]) false);
    try discriminate; try reflexivity.
  - vm_compute. right. now left.
  - intro H. inversion H as [|? ? Hv _]. subst. vm_compute in Hv.
    destruct Hv as [_ Hv]. discriminate Hv.
Defined.

(** ** The widths of the columns *)

Lemma index_inv {A : Type} : forall (l : list A) i x,
  index l i = Ok x ->
  (0 <= i < Z.of_nat (length l))%Z /\ nth_error l (Z.to_nat i) = Some x.
Proof.
  intros l i x. unfold index.
  destruct (i <? 0)%Z eqn:E; [discriminate|]. apply Z.ltb_ge in E.
  destruct (nth_error l (Z.to_nat i)) as [y|] eqn:En; [|discriminate].
  intro H. injection H as ->. split; [|reflexivity].
  assert (Z.to_nat i < length l) by (apply nth_error_Some; congruence). lia.
Qed.

Lemma growWidths_inv : forall fields widths ws,
  growWidths widths fields = Ok ws ->
  length fields <= length widths /\ length ws = length widths /\
  forall k,
    nth_error ws k
      = match nth_error widths k with
        | None => None
        | Some w => Some (match nth_error fields k with
                          | Some f => Nat.max w (length f)
                          | None => w
                          end)
        end.
Proof.
  induction fields as [|v fields IH]; intros widths ws H.
  - assert (E : ws = widths) by (destruct widths; simpl in H; congruence).
    subst ws. split; [simpl; lia|]. split; [reflexivity|].
    intro k. destruct (nth_error widths k); [|reflexivity].
    now destruct k.
  - destruct widths as [|w widths]; [discriminate|]. simpl in H.
    destruct (growWidths widths fields) as [ws'|f] eqn:E; [|discriminate].
    simpl in H. injection H as <-.
    destruct (IH _ _ E) as (Hle & Hlen & Hk).
    split; [simpl; lia|]. split; [simpl; now rewrite Hlen|].
    intros [|k]; [reflexivity | apply Hk].
Qed.

Lemma fieldWidths_inv : forall sep rds ws0 ws,
  fieldWidths sep rds ws0 = Ok ws ->
  length ws = length ws0 /\
  (forall k w0, nth_error ws0 k = Some w0 ->
     exists w, nth_error ws k = Some w /\ w0 <= w) /\
  (forall record eof k f, In (record, eof) rds ->
     nth_error (Split (Trim blank record) sep) k = Some f ->
     exists w, nth_error ws k = Some w /\ length f <= w) /\
  (forall k w, nth_error ws k = Some w ->
     nth_error ws0 k = Some w \/
     exists record eof f, In (record, eof) rds /\
       nth_error (Split (Trim blank record) sep) k = Some f /\ length f = w).
Proof.
  intros sep. induction rds as [|[r e] rds IH]; intros ws0 ws H.
  - injection H as <-. split; [reflexivity|]. split; [eauto|].
    split; [contradiction | auto].
  - simpl in H.
    destruct (growWidths ws0 (Split (Trim blank r) sep)) as [ws1|f] eqn:E;
      [|discriminate]. simpl in H.
    destruct (growWidths_inv _ _ _ E) as (Hle & Hlen1 & Hk1).
    destruct (IH _ _ H) as (Hlen & Hmono & Hfit & Htight).
    split; [congruence|]. split; [|split].
    + intros k w0 Hw0. specialize (Hk1 k). rewrite Hw0 in Hk1.
      destruct (Hmono _ _ Hk1) as (w & Hw & Hle'). exists w. split; [exact Hw|].
      destruct (nth_error (Split (Trim blank r) sep) k); lia.
    + intros record eof k f [Heq | Hin] Hf.
      * injection Heq as -> ->. specialize (Hk1 k). rewrite Hf in Hk1.
        destruct (nth_error ws0 k) as [w0|] eqn:E0.
        -- destruct (Hmono _ _ Hk1) as (w & Hw & Hle'). exists w.
           split; [exact Hw | lia].
        -- exfalso. apply nth_error_None in E0.
           assert (k < length (Split (Trim blank record) sep))
             by (apply nth_error_Some; congruence). lia.
      * now apply (Hfit record eof).
    + intros k w Hw.
      destruct (Htight k w Hw) as [H1 | (record & eof & f & Hin & Hf & Hl)].
      * specialize (Hk1 k). rewrite H1 in Hk1.
        destruct (nth_error ws0 k) as [w0|] eqn:E0; [|discriminate].
        injection Hk1 as Hk1.
        destruct (nth_error (Split (Trim blank r) sep) k) as [f|] eqn:Ef.
        -- destruct (Nat.max_spec w0 (length f)) as [[_ Hm] | [_ Hm]].
           ++ right. exists r, e, f. split; [now left|]. split; [exact Ef | lia].
           ++ left. f_equal. lia.
        -- left. now f_equal.
      * right. exists record, eof, f. split; [now right | now split].
Qed.

(** The widths that the pre-pass returns, against the fields it went through. *)
Lemma fieldWidths_cover : forall sep rds n ws,
  fieldWidths sep rds (repeat 0 n) = Ok ws ->
  length ws = n /\
  (forall record eof k f, In (record, eof) rds ->
     nth_error (Split (Trim blank record) sep) k = Some f ->
     exists w, nth_error ws k = Some w /\ length f <= w) /\
  (forall k w, nth_error ws k = Some w -> w <> 0 ->
     exists record eof f, In (record, eof) rds /\
       nth_error (Split (Trim blank record) sep) k = Some f /\ length f = w).
Proof.
  intros sep rds n ws H.
  destruct (fieldWidths_inv _ _ _ _ H) as (Hlen & _ & Hfit & Htight).
  split; [now rewrite Hlen, repeat_length|]. split; [exact Hfit|].
  intros k w Hw Hnz. destruct (Htight k w Hw) as [H0 | Hex]; [|exact Hex].
  exfalso. apply nth_error_In in H0. apply repeat_spec in H0. contradiction.
Qed.



(** ** The columns of the sort *)

(** The key specs, column by column. *)
Lemma makeKeySpecs_inv : forall widths cols keySpecs,
  makeKeySpecs widths cols = Ok keySpecs ->
  Forall2 (columnSpec widths) cols keySpecs.
Proof.
  intros widths. induction cols as [|col cols IH]; intros keySpecs H.
  - injection H as <-. constructor.
  - simpl in H. destruct (Atoi col) as [n|] eqn:En; [|discriminate].
    destruct (index widths (n - 1)) as [w|f] eqn:Ew; [|discriminate].
    cbn [bind] in H.
    destruct (1000000 <=? Z.of_nat w)%Z; [discriminate|].
    destruct (makeKeySpecs widths cols) as [specs|f] eqn:Es; [|discriminate].
    cbn [bind] in H. injection H as <-.
    apply index_inv in Ew. destruct Ew as [Hr Hn].
    constructor; [|now apply IH].
    exists n. repeat split; try assumption; simpl; lia.
Qed.

(** X12: when [Sort] accepts the list of columns, every key spec names a
    column of the first record: the column is a number from 1 to the number
    of fields of the first record, counted from 1, and its format pads to
    the width that the pre-pass found for that very column. *)
Theorem makeKeySpecs_columns : forall widths cols keySpecs,
  makeKeySpecs widths cols = Ok keySpecs ->
  Forall2 (columnSpec widths) cols keySpecs.
Proof. exact makeKeySpecs_inv. Qed.

Lemma makeKeySpecs_columns_witness :
  Forall2 (columnSpec [1; 2]) [str "2"; str "1"]
          [{| COLIDX := 1; FORMAT := 2 |}; {| COLIDX := 0; FORMAT := 1 |}].
Proof.
  apply (makeKeySpecs_columns [1; 2] [str "2"; str "1"]).
  reflexivity.
Defined.





(** ** Sources that can be given keys *)

Lemma fieldWidths_Ok : forall sep rds ws0,
  (forall record eof, In (record, eof) rds ->
     length (Split (Trim blank record) sep) <= length ws0) ->
  exists ws, fieldWidths sep rds ws0 = Ok ws.
Proof.
  intros sep. induction rds as [|[r e] rds IH]; intros ws0 H.
  - now exists ws0.
  - simpl. destruct (growWidths_Ok (Split (Trim blank r) sep) ws0)
      as (ws1 & -> & Hlen); [apply (H r e); now left|].
    cbn [bind]. apply IH. intros record eof Hin. rewrite Hlen.
    apply (H record eof). now right.
Qed.

Lemma makeKeySpecs_Ok : forall widths cols,
  Forall (fun col => exists n w, Atoi col = Some n /\ (1 <= n)%Z /\
            nth_error widths (Z.to_nat (n - 1)) = Some w /\
            (Z.of_nat w < 1000000)%Z) cols ->
  exists keySpecs, makeKeySpecs widths cols = Ok keySpecs.
Proof.
  intros widths. induction cols as [|col cols IH]; intro H.
  - now exists [].
  - inversion H as [|? ? (n & w & Hn & H1 & Hw & Hlt) Hrest]; subst.
    destruct (IH Hrest) as (specs & Hs). simpl. rewrite Hn.
    unfold index. replace (n - 1 <? 0)%Z with false
      by (symmetry; apply Z.ltb_ge; lia).
    rewrite Hw. cbn [bind].
    replace (1000000 <=? Z.of_nat w)%Z with false
      by (symmetry; apply Z.leb_gt; lia).
    rewrite Hs. cbn [bind]. eauto.
Qed.

Lemma entriesFrom_Ok : forall sep keySpecs seekLen rds start,
  (forall record eof, In (record, eof) rds -> nonBlank record = true ->
     Forall (hasField (Split (Trim blank record) sep)) keySpecs) ->
  exists es,
    entriesFrom (makeCompositeKeyFn sep keySpecs seekLen) rds start = Ok es.
Proof.
  intros sep keySpecs seekLen. induction rds as [|[r e] rds IH]; intros start H.
  - now exists [].
  - cbn [entriesFrom].
    destruct (IH (start + Z.of_nat (length r))%Z) as (es & Hes).
    { intros record eof Hin. apply (H record eof). now right. }
    destruct (0 <? length (Trim blank r)) eqn:Enb; [|eauto].
    unfold makeCompositeKeyFn at 1.
    destruct (keyFields_Ok (Split (Trim blank r) sep) keySpecs [])
      as (body & -> & _); [apply (H r e); [now left | exact Enb]|].
    cbn [bind]. rewrite Hes. cbn [bind]. eauto.
Qed.

(** A keyable source has entries. *)
Lemma keyable_entries : forall source usingFields sep,
  keyable source usingFields sep ->
  exists es, entriesOf source usingFields sep = Ok es /\
    map entRecord es = filter nonBlank (map fst (reads source)).
Proof.
  intros source usingFields sep (Hrect & Hsmall & Hcols).
  assert (Hw : exists ws, widthsOf source sep = Ok ws).
  { apply fieldWidths_Ok. intros record eof Hin. rewrite repeat_length.
    now apply (Hrect record eof). }
  destruct Hw as (ws & Hw).
  destruct (fieldWidths_cover _ _ _ _ Hw) as (Hlen & _ & Htight).
  assert (Hs : exists keySpecs,
            makeKeySpecs ws (Split usingFields [COMMA]) = Ok keySpecs).
  { apply makeKeySpecs_Ok. eapply Forall_impl; [|exact Hcols].
    intros col (n & Hn & Hr & _).
    destruct (nth_error ws (Z.to_nat (n - 1))) as [w|] eqn:Ew.
    - exists n, w. repeat split; try assumption; try lia.
      destruct (Nat.eq_dec w 0) as [-> | Hnz]; [lia|].
      destruct (Htight _ _ Ew Hnz) as (record & eof & f & Hin & Hf & <-).
      apply (Hsmall record eof f Hin). eapply nth_error_In; eauto.
    - apply nth_error_None in Ew. lia. }
  destruct Hs as (keySpecs & Hs).
  assert (Hspecs : keySpecsOf source usingFields sep = Ok keySpecs).
  { unfold keySpecsOf. unfold widthsOf, numFieldsOf in Hw.
    destruct (readString source) as [[record0 eof0] rest0].
    cbn [fst] in Hw. rewrite Hw. exact Hs. }
  assert (Hfields : forall record eof, In (record, eof) (reads source) ->
            nonBlank record = true ->
            Forall (hasField (Split (Trim blank record) sep)) keySpecs).
  { intros record eof Hin Hnb.
    pose proof (makeKeySpecs_inv _ _ _ Hs) as Hc.
    clear Hs Hspecs. revert Hcols.
    induction Hc as [|col v cols specs (n & Hn & Hr & Hidx & _) _ IH];
      intro Hcols; [constructor|].
    inversion Hcols as [|? ? (n' & Hn' & _ & Hhas) Hrest]; subst.
    constructor; [|now apply IH].
    unfold hasField. rewrite Hidx.
    assert (n' = n) by congruence. subst n'.
    specialize (Hhas record eof Hin Hnb). lia. }
  destruct (entriesFrom_Ok sep keySpecs (Z.of_nat (seekLenOf source))
              (reads source) 0%Z Hfields) as (es & Hes).
  assert (E : entriesOf source usingFields sep = Ok es).
  { unfold entriesOf. rewrite Hspecs. exact Hes. }
  exists es. split; [exact E | now apply entriesOf_records in E].
Qed.





(** ** The width of the keys *)

Lemma keySpecsOf_inv : forall source usingFields sep keySpecs,
  keySpecsOf source usingFields sep = Ok keySpecs ->
  exists ws, widthsOf source sep = Ok ws /\
    makeKeySpecs ws (Split usingFields [COMMA]) = Ok keySpecs.
Proof.
  intros source usingFields sep keySpecs. unfold keySpecsOf, widthsOf, numFieldsOf.
  destruct (readString source) as [[record0 eof0] rest0]. cbn [fst].
  destruct (fieldWidths sep (reads source)
              (repeat 0 (length (Split record0 sep)))) as [ws|f];
    [|discriminate].
  cbn [bind]. eauto.
Qed.

Lemma record_incl : forall source record x,
  In record (map fst (reads source)) -> In x record -> In x source.
Proof.
  intros source record x Hr Hx. rewrite <- (reads_concat source).
  apply in_concat. eauto.
Qed.

(** The offsets of the entries lie within the records read. *)
Lemma entriesFrom_offsets : forall compositeKeyFn rds start es,
  entriesFrom compositeKeyFn rds start = Ok es ->
  Forall (fun e => (start <= entOffset e)%Z /\
            (entOffset e + Z.of_nat (length (entRecord e))
             <= start + Z.of_nat (length (concat (map fst rds))))%Z) es.
Proof.
  intros compositeKeyFn. induction rds as [|[record eof] rds IH]; intros start es H.
  - injection H as <-. constructor.
  - cbn [entriesFrom] in H. cbn [map fst concat]. rewrite length_app.
    assert (Hrest : forall es',
      entriesFrom compositeKeyFn rds (start + Z.of_nat (length record))%Z
        = Ok es' ->
      Forall (fun e => (start <= entOffset e)%Z /\
                (entOffset e + Z.of_nat (length (entRecord e))
                 <= start + Z.of_nat (length record
                                      + length (concat (map fst rds))))%Z) es').
    { intros es' E. eapply Forall_impl; [|exact (IH _ _ E)].
      simpl. intros e [H1 H2]. lia. }
    destruct (0 <? length (Trim blank record)).
    + destruct (compositeKeyFn (Trim blank record) start) as [k|f];
        [|discriminate]. cbn [bind] in H.
      destruct (entriesFrom compositeKeyFn rds
                  (start + Z.of_nat (length record))%Z) as [es'|f] eqn:E;
        [|discriminate]. cbn [bind] in H. injection H as <-.
      constructor; [simpl; lia | now apply Hrest].
    + now apply Hrest.
Qed.

Lemma keyFields_length : forall fields keySpecs key k,
  (forall v f, In v keySpecs -> index fields (COLIDX v) = Ok f ->
     length (padString (FORMAT v) f) = FORMAT v) ->
  keyFields fields keySpecs key = Ok k ->
  length k = length key + list_sum (map FORMAT keySpecs).
Proof.
  intros fields. induction keySpecs as [|v rest IH]; intros key k Hpad H.
  - injection H as <-. simpl. lia.
  - simpl in H. destruct (index fields (COLIDX v)) as [f|f'] eqn:Ef;
      [|discriminate]. cbn [bind] in H.
    rewrite (IH _ _ (fun v' f' Hin => Hpad v' f' (or_intror Hin)) H).
    rewrite length_app, (Hpad v f (or_introl eq_refl) Ef). simpl. lia.
Qed.

Lemma columnSpec_width : forall ws cols keySpecs v,
  Forall2 (columnSpec ws) cols keySpecs -> In v keySpecs ->
  (0 <= COLIDX v)%Z /\ nth_error ws (Z.to_nat (COLIDX v)) = Some (FORMAT v).
Proof.
  intros ws cols keySpecs v H. induction H as [|col v' cols specs Hc _ IH];
    intro Hin; [contradiction|].
  destruct Hin as [<- | Hin]; [|now apply IH].
  destruct Hc as (n & _ & Hr & -> & Hw). split; [lia | exact Hw].
Qed.

(** In a source of ASCII bytes every selected field of an entry, once
    right-justified, has the width of its column. *)
Lemma entry_field_width : forall source usingFields sep keySpecs es e v f,
  Forall (fun c => (code c < 128)%N) source ->
  keySpecsOf source usingFields sep = Ok keySpecs ->
  entriesOf source usingFields sep = Ok es ->
  In e es -> In v keySpecs ->
  index (Split (Trim blank (entRecord e)) sep) (COLIDX v) = Ok f ->
  length (padString (FORMAT v) f) = FORMAT v.
Proof.
  intros source usingFields sep keySpecs es e v f Hascii Hspecs Hes He Hv Hf.
  destruct (keySpecsOf_inv _ _ _ _ Hspecs) as (ws & Hw & Hs).
  destruct (fieldWidths_cover _ _ _ _ Hw) as (_ & Hfit & _).
  pose proof (makeKeySpecs_inv _ _ _ Hs) as Hcols.
  pose proof (entriesOf_records _ _ _ _ Hes) as Hrecs.
  assert (Hrec : In (entRecord e) (map fst (reads source))).
  { assert (Hin : In (entRecord e) (map entRecord es)) by now apply in_map.
    rewrite Hrecs in Hin. now apply filter_In in Hin. }
  pose proof Hrec as Hrec'. apply in_map_iff in Hrec'.
  destruct Hrec' as ([r eof] & Er & Hin). simpl in Er. subst r.
  apply index_inv in Hf. destruct Hf as [_ Hf].
  destruct (columnSpec_width _ _ _ _ Hcols Hv) as [_ Hwv].
  destruct (Hfit _ _ _ _ Hin Hf) as (w & Hw' & Hle).
  assert (w = FORMAT v) by congruence. subst w.
  apply padString_length_ascii; [|exact Hle].
  rewrite Forall_forall in *. intros x Hx. apply Hascii.
  apply (record_incl source (entRecord e)); [exact Hrec|].
  apply (Trim_incl blank). apply (Split_chars _ sep f); [|exact Hx].
  eapply nth_error_In; eauto.
Qed.

(** The offset of an entry lies within the source. *)
Lemma entry_offset_bound : forall source usingFields sep es e,
  entriesOf source usingFields sep = Ok es -> In e es ->
  (0 <= entOffset e <= Z.of_nat (length source))%Z.
Proof.
  intros source usingFields sep es e Hes He. unfold entriesOf in Hes.
  destruct (keySpecsOf source usingFields sep) as [keySpecs|f]; [|discriminate].
  cbn [bind] in Hes.
  pose proof (entriesFrom_offsets _ _ _ _ Hes) as Hoffs.
  rewrite reads_concat in Hoffs. rewrite Forall_forall in Hoffs.
  specialize (Hoffs e He). lia.
Qed.

Lemma entry_key : forall source usingFields sep keySpecs es e,
  keySpecsOf source usingFields sep = Ok keySpecs ->
  entriesOf source usingFields sep = Ok es -> In e es ->
  exists body,
    keyFields (Split (Trim blank (entRecord e)) sep) keySpecs [] = Ok body /\
    entKey e = body ++ _asciiGS
                 :: padInt (Z.of_nat (seekLenOf source)) (entOffset e).
Proof.
  intros source usingFields sep keySpecs es e Hspecs Hes He.
  unfold entriesOf in Hes. rewrite Hspecs in Hes. cbn [bind] in Hes.
  destruct (entriesFrom_keys _ _ _ _ Hes) as [Hkeys _].
  rewrite Forall_forall in Hkeys. destruct (Hkeys e He) as [Hk _].
  unfold makeCompositeKeyFn in Hk.
  destruct (keyFields (Split (Trim blank (entRecord e)) sep) keySpecs [])
    as [body|f] eqn:Eb; [|discriminate].
  cbn [bind] in Hk. injection Hk as <-. now exists body.
Qed.

(** The length of the keys of a source of ASCII bytes. *)
Lemma key_lengths : forall source usingFields sep keySpecs es,
  Forall (fun c => (code c < 128)%N) source ->
  (Z.of_nat (length source) < 2 ^ 63)%Z ->
  keySpecsOf source usingFields sep = Ok keySpecs ->
  entriesOf source usingFields sep = Ok es ->
  Forall (fun e => length (entKey e)
                   = list_sum (map FORMAT keySpecs) + 1 + seekLenOf source) es.
Proof.
  intros source usingFields sep keySpecs es Hascii Hsize Hspecs Hes.
  apply Forall_forall. intros e He.
  destruct (entry_key _ _ _ _ _ _ Hspecs Hes He) as (body & Eb & ->).
  pose proof (entry_offset_bound _ _ _ _ _ Hes He) as Hoff.
  apply keyFields_length in Eb.
  - rewrite length_app, Eb. cbn [length app].
    unfold seekLenOf. rewrite padInt_length by lia. lia.
  - intros v f Hv Hf.
    exact (entry_field_width _ _ _ _ _ _ _ _ Hascii Hspecs Hes He Hv Hf).
Qed.



(** ** The merge of any two files *)

Lemma interleave_left_all {A : Type} : forall l : list A, interleave l [] l.
Proof. induction l; constructor; assumption. Qed.

Lemma interleave_right_all {A : Type} : forall l : list A, interleave [] l l.
Proof. induction l; constructor; assumption. Qed.

Lemma interleave_app_left {A : Type} : forall (l1 l2 l k : list A),
  interleave l1 l2 l -> interleave (l1 ++ k) l2 (l ++ k).
Proof.
  intros l1 l2 l k H. induction H; simpl.
  - apply interleave_left_all.
  - now constructor.
  - now constructor.
Qed.

Lemma interleave_app_right {A : Type} : forall (l1 l2 l k : list A),
  interleave l1 l2 l -> interleave l1 (l2 ++ k) (l ++ k).
Proof.
  intros l1 l2 l k H. induction H; simpl.
  - apply interleave_right_all.
  - now constructor.
  - now constructor.
Qed.

Lemma interleave_perm {A : Type} : forall l1 l2 l : list A,
  interleave l1 l2 l -> Permutation l (l1 ++ l2).
Proof.
  intros l1 l2 l H. induction H; simpl.
  - constructor.
  - now constructor.
  - eapply Permutation_trans; [apply perm_skip; eassumption|].
    apply Permutation_middle.
Qed.

(** Loading the current key of an input takes the bytes off its reader. *)
Lemma load_bytes : forall key err reader k e r,
  (err = true -> reader = []) ->
  (if isEmpty key then readString reader else (key, err, reader)) = (k, e, r) ->
  k ++ r = key ++ reader /\ (e = true -> r = []).
Proof.
  intros key err reader k e r Herr. destruct key as [|c key]; cbn [isEmpty].
  - destruct (readString_cases reader)
      as [(body & rest & _ & -> & ->) | [_ ->]]; intro H; injection H as <- <- <-.
    + split; [now rewrite <- app_assoc | discriminate].
    + split; [now rewrite app_nil_r | reflexivity].
  - intro H. injection H as <- <- <-. now split.
Qed.

Lemma mergeStep_merging : forall sortAsc s1 s2 m,
  merging s1 s2 m -> merging s1 s2 (mergeStep sortAsc m).
Proof.
  intros sortAsc s1 s2 m (a1 & a2 & E1 & E2 & Hil & H1 & H2).
  unfold mergeStep.
  destruct (if isEmpty (key1 m) then readString (reader1 m)
            else (key1 m, errKeys1 m, reader1 m)) as [[k1 e1] r1] eqn:L1.
  destruct (if isEmpty (key2 m) then readString (reader2 m)
            else (key2 m, errKeys2 m, reader2 m)) as [[k2 e2] r2] eqn:L2.
  apply load_bytes in L1; [|exact H1]. apply load_bytes in L2; [|exact H2].
  destruct L1 as [B1 R1]. destruct L2 as [B2 R2].
  destruct (if sortAsc then ltStr k1 k2 else gtStr k1 k2).
  - exists (a1 ++ k1), a2. cbn [key1 key2 reader1 reader2 writer errKeys1 errKeys2].
    split; [now rewrite <- app_assoc, E1, <- B1|].
    split; [now rewrite E2, <- B2|].
    split; [now apply interleave_app_left|]. now split.
  - exists a1, (a2 ++ k2). cbn [key1 key2 reader1 reader2 writer errKeys1 errKeys2].
    split; [now rewrite E1, <- B1|].
    split; [now rewrite <- app_assoc, E2, <- B2|].
    split; [now apply interleave_app_right|]. now split.
Qed.

Lemma mergeLoop_merging : forall sortAsc s1 s2 fuel m m',
  mergeLoop fuel sortAsc m = Ok m' -> merging s1 s2 m ->
  merging s1 s2 m' /\ mergeCond m' = false.
Proof.
  intros sortAsc s1 s2. induction fuel as [|fuel IH]; intros m m' H Hm;
    cbn [mergeLoop] in H; destruct (mergeCond m) eqn:Ec.
  - discriminate.
  - injection H as <-. now split.
  - apply (IH _ _ H). now apply mergeStep_merging.
  - injection H as <-. now split.
Qed.

Lemma drain_bytes : forall key err reader out,
  (err = true -> reader = []) ->
  snd (drain key err reader out) = out ++ key ++ reader.
Proof.
  intros key err reader out Herr. unfold drain.
  destruct err.
  - rewrite (Herr eq_refl), app_nil_r. destruct key; simpl;
      [now rewrite app_nil_r | reflexivity].
  - cbn [snd]. rewrite reads_concat. destruct key; simpl;
      [reflexivity | now rewrite <- app_assoc].
Qed.

Lemma mergeRest_merging : forall s1 s2 m,
  merging s1 s2 m -> mergeCond m = false ->
  interleave s1 s2 (fst (mergeRest m)).
Proof.
  intros s1 s2 m (a1 & a2 & E1 & E2 & Hil & H1 & H2) Hc.
  unfold mergeRest. unfold mergeCond in Hc.
  destruct (negb (isEmpty (key1 m)) || negb (errKeys1 m)) eqn:Ea.
  - (* the first input has keys left, the second is at its end *)
    cbn [andb] in Hc. apply orb_false_elim in Hc. destruct Hc as [Hk He].
    apply negb_false_iff in Hk, He.
    assert (K2 : key2 m = []) by (destruct (key2 m); [reflexivity | discriminate]).
    rewrite K2, (H2 He), app_nil_r in E2. subst a2.
    pose proof (drain_bytes (key1 m) (errKeys1 m) (reader1 m) (writer m) H1) as D.
    destruct (drain (key1 m) (errKeys1 m) (reader1 m) (writer m)) as [k1 out].
    cbn [fst snd] in *. subst out s1. now apply interleave_app_left.
  - apply orb_false_elim in Ea. destruct Ea as [Hk He].
    apply negb_false_iff in Hk, He.
    assert (K1 : key1 m = []) by (destruct (key1 m); [reflexivity | discriminate]).
    rewrite K1, (H1 He), app_nil_r in E1. subst a1.
    pose proof (drain_bytes (key2 m) (errKeys2 m) (reader2 m) (writer m) H2) as D.
    destruct (drain (key2 m) (errKeys2 m) (reader2 m) (writer m)) as [k2 out].
    cbn [fst snd] in *. subst out s2. now apply interleave_app_right.
Qed.

(** X19: a merge task ends on any two files, sorted or not, well formed or
    not, and whatever the coroutine kept in [key1] and [key2] from the task
    before: the file it writes interleaves its two inputs (each with the key
    kept for it put before), with each input's bytes in their order.  No
    byte is lost, added or written twice. *)
Theorem mergeTask_interleaves : forall sortAsc keys12 f1 f2,
  exists out k12,
    mergeTask sortAsc keys12 f1 f2 = Ok (out, k12) /\
    interleave (fst keys12 ++ f1) (snd keys12 ++ f2) out /\
    Permutation out (fst keys12 ++ f1 ++ snd keys12 ++ f2).
Proof.
  intros sortAsc keys12 f1 f2.
  pose proof (mergeTask_total sortAsc keys12 f1 f2) as ([out k12] & Ht).
  exists out, k12. split; [exact Ht|].
  unfold mergeTask in Ht.
  match type of Ht with
  | context [mergeLoop ?fuel sortAsc ?m0] =>
      destruct (mergeLoop fuel sortAsc m0) as [m|f] eqn:El; [|discriminate];
      assert (H0 : merging (fst keys12 ++ f1) (snd keys12 ++ f2) m0)
  end.
  { exists [], []. cbn [key1 key2 reader1 reader2 writer errKeys1 errKeys2 app].
    repeat split; try discriminate. constructor. }
  destruct (mergeLoop_merging _ _ _ _ _ _ El H0) as [Hm Hc].
  cbn [bind] in Ht. injection Ht as Ht.
  pose proof (mergeRest_merging _ _ _ Hm Hc) as Hil. rewrite Ht in Hil.
  cbn [fst] in Hil. split; [exact Hil|].
  rewrite app_assoc. now apply interleave_perm.
Qed.

(** ** The number of rounds *)

(** The number of files after a round. *)
Lemma mergePairs_count : forall sortAsc keys12 todo,
  exists out k12,
    mergePairs sortAsc keys12 todo = Ok (out, k12) /\
    length out = (length todo + 1) / 2.
Proof.
  intros sortAsc keys12 todo. remember (length todo) as n eqn:Hn.
  revert keys12 todo Hn. induction n as [n IH] using lt_wf_ind.
  intros keys12 todo Hn. destruct todo as [|f1 [|f2 rest]].
  - exists [], keys12. subst n. split; reflexivity.
  - exists [f1], keys12. subst n. split; reflexivity.
  - cbn [mergePairs].
    destruct (mergeTask_total sortAsc keys12 f1 f2) as (r & ->). cbn [bind].
    destruct (IH (length rest) ltac:(simpl in Hn; lia) (snd r) rest eq_refl)
      as (out & k12 & -> & Hlen).
    cbn [bind fst snd]. exists (fst r :: out), k12. split; [reflexivity|].
    subst n. cbn [length]. rewrite Hlen.
    replace (S (S (length rest)) + 1) with (length rest + 1 + 1 * 2) by lia.
    rewrite Nat.div_add by lia. lia.
Qed.

(** X20: a round of merges ends on any list of key files and leaves half as
    many files, rounded up: the files are merged two by two, and a last odd
    one is kept as it is. *)
Theorem mergePairs_halves : forall sortAsc keys12 todo,
  exists out k12,
    mergePairs sortAsc keys12 todo = Ok (out, k12) /\
    length out = (length todo + 1) / 2.
Proof. exact mergePairs_count. Qed.

Section RoundsBound.

Variable glob : nat -> list gostring -> list gostring.
Hypothesis glob_perm : forall n dir, Permutation (glob n dir) dir.

Lemma passes_within : forall sortAsc fuel round keys12 dir,
  length dir <= 2 ^ fuel ->
  exists out,
    passes glob fuel round sortAsc keys12 dir = Ok out /\ length out <= 1.
Proof.
  intros sortAsc. induction fuel as [|fuel IH]; intros round keys12 dir H;
    cbn [passes];
    pose proof (Permutation_length (glob_perm round dir)) as Hl.
  - simpl in H.
    replace (length (glob round dir) <=? 1) with true
      by (symmetry; apply Nat.leb_le; lia).
    exists (glob round dir). split; [reflexivity | lia].
  - destruct (length (glob round dir) <=? 1) eqn:E.
    + apply Nat.leb_le in E. eauto.
    + destruct (mergePairs_count sortAsc keys12 (glob round dir))
        as (out & k12 & -> & Hlen).
      cbn [bind fst snd]. apply IH. rewrite Hlen, Hl.
      rewrite Nat.pow_succ_r' in H.
      apply Nat.lt_succ_r. apply Nat.Div0.div_lt_upper_bound.
      unfold gostring in *. lia.
Qed.

Lemma passes_more_fuel : forall sortAsc fuel fuel' round keys12 dir out,
  passes glob fuel round sortAsc keys12 dir = Ok out -> fuel <= fuel' ->
  passes glob fuel' round sortAsc keys12 dir = Ok out.
Proof.
  intros sortAsc. induction fuel as [|fuel IH];
    intros fuel' round keys12 dir out H Hle.
  - cbn [passes] in H. destruct (length (glob round dir) <=? 1) eqn:E;
      [|discriminate].
    destruct fuel'; cbn [passes]; now rewrite E.
  - destruct fuel' as [|fuel']; [lia|]. cbn [passes] in *.
    destruct (length (glob round dir) <=? 1); [exact H|].
    destruct (mergePairs sortAsc keys12 (glob round dir)) as [r|f];
      [|discriminate].
    cbn [bind] in *. apply (IH fuel' _ _ _ _ H). lia.
Qed.

(** X21: the rounds of merges that follow the first pass bring [n] key files
    down to one file at most within the least number of rounds [r] with
    [n <= 2^r]: the loop over the rounds, cut off after [r] rounds, has
    already ended, with the result of the loop that is not cut off. *)
Theorem passes_log_rounds : forall sortAsc round keys12 dir fuel,
  Nat.log2_up (length dir) <= fuel ->
  exists out,
    passes glob (Nat.log2_up (length dir)) round sortAsc keys12 dir = Ok out /\
    passes glob fuel round sortAsc keys12 dir = Ok out /\
    length out <= 1.
Proof.
  intros sortAsc round keys12 dir fuel Hfuel.
  destruct (passes_within sortAsc (Nat.log2_up (length dir)) round keys12 dir)
    as (out & Hout & Hlen).
  - destruct (length dir) as [|[|n]] eqn:E; [simpl; lia | simpl; lia|].
    apply Nat.log2_up_spec. lia.
  - exists out. split; [exact Hout|]. split; [|exact Hlen].
    now apply (passes_more_fuel sortAsc (Nat.log2_up (length dir))).
Qed.

End RoundsBound.

Lemma passes_log_rounds_witness :
  exists out,
    passes globInOrder (Nat.log2_up (length [str "a"; str "b"; str "c"])) 0
           true ([], []) [str "a"; str "b"; str "c"] = Ok out /\
    passes globInOrder 3 0 true ([], []) [str "a"; str "b"; str "c"] = Ok out /\
    length out <= 1.
Proof.
  apply (passes_log_rounds globInOrder globInOrder_perm true 0 ([], [])
           [str "a"; str "b"; str "c"] 3).
  vm_compute. lia.
Defined.

(** ** The keys held in memory *)

Lemma keyStep_batch_bound : forall compositeKeyFn sortAsc keysPerSort st record
                                   eof,
  (Z.of_nat (length (keys st)) < keysPerSort)%Z ->
  (Z.of_nat (length (keys (fst (keyStep compositeKeyFn sortAsc keysPerSort st
                                        record eof)))) < keysPerSort)%Z.
Proof.
  intros compositeKeyFn sortAsc keysPerSort st record eof H. unfold keyStep.
  assert (Hpos : (0 < keysPerSort)%Z) by lia.
  match goal with
  | |- context [match ?x with Ok _ => _ | Fail _ => _ end] =>
      assert (Hk : forall keys', x = Ok keys' ->
                length keys' <= S (length (keys st)));
      [|destruct x as [keys'|f]; [specialize (Hk keys' eq_refl) | exact H]]
  end.
  { intros keys'. destruct (0 <? length (Trim blank record)).
    - destruct (compositeKeyFn (Trim blank record) (recordStart st));
        [|discriminate].
      cbn [bind]. intro E. injection E as <-. rewrite length_app. simpl. lia.
    - intro E. injection E as <-. lia. }
  destruct ((0 <? length keys') &&
            ((Z.of_nat (length keys') =? keysPerSort)%Z || eof)) eqn:Eflush.
  - destruct (todo st ++ _) as [|f1 [|f2 [|f3 rest]]]; try exact Hpos.
    destruct (mergeTask sortAsc (keys12 st) f1 f2) as [[out k12]|f];
      exact Hpos.
  - cbn [fst keys].
    destruct (Z.eq_dec (Z.of_nat (length keys')) keysPerSort) as [E | E]; [|lia].
    exfalso. apply Z.eqb_eq in E. rewrite E in Eflush.
    replace (0 <? length keys') with true in Eflush; [discriminate|].
    symmetry. apply Nat.ltb_lt. apply Z.eqb_eq in E. lia.
Qed.

(** X22: with a positive [keysPerSort], the batch of keys that the first
    pass holds in memory never grows beyond [keysPerSort] keys: at the head
    of every turn of its loop it holds fewer, and the batch is sorted,
    written to a key file and emptied as soon as it holds [keysPerSort]. *)
Theorem keyLoop_batch_bound : forall compositeKeyFn sortAsc keysPerSort rds st,
  (Z.of_nat (length (keys st)) < keysPerSort)%Z ->
  (Z.of_nat (length (keys (fst (keyLoop compositeKeyFn sortAsc keysPerSort rds
                                        st)))) < keysPerSort)%Z.
Proof.
  intros compositeKeyFn sortAsc keysPerSort.
  induction rds as [|[record eof] rds IH]; intros st H; cbn [keyLoop].
  - exact H.
  - pose proof (keyStep_batch_bound compositeKeyFn sortAsc keysPerSort st record
                  eof H) as Hstep.
    destruct (keyStep compositeKeyFn sortAsc keysPerSort st record eof)
      as [st' [u|f]]; [now apply IH | exact Hstep].
Qed.

Lemma keyLoop_batch_bound_witness :
  (Z.of_nat (length (keys (fst (keyLoop
     (makeCompositeKeyFn [TAB] [{| COLIDX := 1; FORMAT := 1 |}] 2) true 2
     (reads demoSource) startPass)))) < 2)%Z.
Proof.
  apply (keyLoop_batch_bound
           (makeCompositeKeyFn [TAB] [{| COLIDX := 1; FORMAT := 1 |}] 2) true 2
           (reads demoSource) startPass).
  simpl. lia.
Defined.

(** ** The files that the sort leaves alone *)



(** ** The batch size and the listing of the key files *)

(** X3: on a valid input the outcome of the sort and the world it leaves do
    not depend on the batch size (any [keysPerSort] other than 0, negative
    ones included) or on the order in which the key files are listed before
    each round. *)
Theorem Sort_batch_size_irrelevant :
  forall glob1 glob2,
  (forall n dir, Permutation (glob1 n dir) dir) ->
  (forall n dir, Permutation (glob2 n dir) dir) ->
  forall w inFile outFile sortAsc usingFields sep keysPerSort1 keysPerSort2
         verbose source es,
  validInput w inFile outFile usingFields sep keysPerSort1 source es ->
  keysPerSort2 <> 0%Z ->
  Sort glob1 w inFile outFile sortAsc usingFields sep keysPerSort1 verbose
    = Sort glob2 w inFile outFile sortAsc usingFields sep keysPerSort2 verbose.
Proof.
  intros glob1 glob2 Hglob1 Hglob2 w inFile outFile sortAsc usingFields sep
         keysPerSort1 keysPerSort2 verbose source es Hvalid Hk2.
  assert (Hvalid2 : validInput w inFile outFile usingFields sep keysPerSort2
                               source es).
  { unfold validInput in *.
    destruct Hvalid as (H1 & H2 & H3 & _ & Hrest). auto. }
  rewrite (Sort_sorts glob1 Hglob1 w inFile outFile sortAsc usingFields sep
             keysPerSort1 verbose source es Hvalid).
  now rewrite (Sort_sorts glob2 Hglob2 w inFile outFile sortAsc usingFields sep
                 keysPerSort2 verbose source es Hvalid2).
Qed.

Lemma Sort_batch_size_irrelevant_witness :
  Sort globInOrder (oneFile demoSource) (str "in") (str "out") false
       (str "2,1") [TAB] 1%Z false
    = Sort (fun _ dir => rev dir) (oneFile demoSource) (str "in") (str "out")
           false (str "2,1") [TAB] (-1)%Z false.
Proof.
  apply (Sort_batch_size_irrelevant globInOrder (fun _ dir => rev dir)
           globInOrder_perm
           (fun _ dir => Permutation_sym (Permutation_rev dir))
           (oneFile demoSource) (str "in") (str "out") false (str "2,1") [TAB]
           1%Z (-1)%Z false demoSource demoEntries).
  - apply validInput_demo. discriminate.
  - discriminate.
Defined.

(** ** The order of the keys *)







(** ** From the key back to the offset *)

(** X16: what the loop that writes the records reads off a key is the offset
    that the key encoder put into it: for a record without the group
    separator, the second piece of the key split at the group separator,
    parsed by [seekFile], is the offset of the record.  (The offset is
    right-justified: [seekFile] drops the spaces before the digits.) *)
Theorem key_leads_to_offset :
  forall fieldSep sortSpecs seekLen record recordStart key,
  makeCompositeKeyFn fieldSep sortSpecs seekLen record recordStart = Ok key ->
  ~ In _asciiGS record ->
  (0 <= seekLen)%Z -> (0 <= recordStart < 2 ^ 63)%Z ->
  (f <- index (Split key [_asciiGS]) 1 ;; seekFile f) = Ok recordStart.
Proof.
  intros fieldSep sortSpecs seekLen record recordStart key Hkey HGS Hlen Hstart.
  apply makeCompositeKeyFn_Ok in Hkey. destruct Hkey as (body & -> & Hbody).
  rewrite Split_at_sep.
  - rewrite index_second. cbn [bind]. now apply seekFile_padInt.
  - intro Hin. destruct (Hbody _ Hin) as [E | (f & Hf & Hx)]; [discriminate|].
    apply HGS. eapply Split_chars; eauto.
  - apply padInt_no_GS.
Qed.

Lemma key_leads_to_offset_witness :
  (f <- index (Split (str "A" ++ _asciiGS :: str " 4") [_asciiGS]) 1 ;;
   seekFile f) = Ok 4%Z.
Proof.
  apply (key_leads_to_offset [TAB] [{| COLIDX := 1; FORMAT := 1 |}] 2
           (str "2" ++ TAB :: str "A") 4).
  - reflexivity.
  - intro H. vm_compute in H. repeat (destruct H as [H | H]; [discriminate H|]).
    exact H.
  - lia.
  - lia.
Defined.

(** ** The demonstration program *)

(** *** The data it generates *)

Lemma code_ascii_of_nat : forall n, n < 256 -> code (ascii_of_nat n) = N.of_nat n.
Proof.
  intros n H. unfold code, ascii_of_nat. apply N_ascii_embedding. lia.
Qed.

Lemma demoByte_letter : forall r, r < 58 -> demoByte (ascii_of_nat (65 + r)).
Proof.
  intros r H. unfold demoByte. rewrite code_ascii_of_nat by lia. lia.
Qed.

Lemma demoByte_digit : forall r, r < 9 ->
  exists c, FormatInt (Z.of_nat (1 + r)) = [c] /\ demoByte c.
Proof.
  intros r H.
  do 9 (destruct r as [|r];
        [eexists; split; [reflexivity | vm_compute; split; discriminate]|]).
  lia.
Qed.

Lemma chars_spec : forall draws numChars fieldNum content pos,
  Forall demoByte content ->
  Forall demoByte (fst (demo.chars draws numChars fieldNum content pos)) /\
  length (fst (demo.chars draws numChars fieldNum content pos))
    = length content + numChars.
Proof.
  intros draws. induction numChars as [|n IH]; intros fieldNum content pos H.
  - simpl. split; [assumption | lia].
  - cbn [demo.chars]. unfold demo.Intn.
    destruct (fieldNum =? demo.numFields - 1).
    + destruct (demoByte_digit (draws pos mod 9)) as (c & -> & Hc).
      { apply Nat.mod_upper_bound. lia. }
      destruct (IH fieldNum (content ++ [c]) (S pos)) as [H1 H2].
      { apply Forall_app. split; [assumption | now constructor]. }
      split; [exact H1|]. rewrite H2, length_app. simpl. lia.
    + destruct (IH fieldNum (content ++ [ascii_of_nat (65 + draws pos mod 58)])
                   (S pos)) as [H1 H2].
      { apply Forall_app. split; [assumption|]. constructor; [|constructor].
        apply demoByte_letter. apply Nat.mod_upper_bound. lia. }
      split; [exact H1|]. rewrite H2, length_app. simpl. lia.
Qed.

Lemma fieldsFrom_spec : forall draws count fieldNum fields pos,
  exists cs, length cs = count /\ Forall demoField cs /\
    fst (demo.fieldsFrom draws count fieldNum fields pos)
      = fields ++ map (padString 5) cs.
Proof.
  intros draws. induction count as [|n IH]; intros fieldNum fields pos.
  - exists []. simpl. rewrite app_nil_r. repeat split. constructor.
  - cbn [demo.fieldsFrom]. unfold demo.Intn.
    set (r := draws pos mod demo.fieldWidth).
    assert (Hr : r < 5) by (apply Nat.mod_upper_bound; discriminate).
    destruct (chars_spec draws (1 + r) fieldNum [] (S pos) (Forall_nil _))
      as [Hb Hl].
    destruct (demo.chars draws (1 + r) fieldNum [] (S pos)) as [content pos2].
    cbn [fst] in Hb, Hl.
    destruct (IH (S fieldNum) (fields ++ [padString demo.fieldWidth content]) pos2)
      as (cs & Hlen & Hcs & ->).
    exists (content :: cs). split; [simpl; now rewrite Hlen|]. split.
    + constructor; [|assumption]. split; [simpl in Hl; lia | assumption].
    + rewrite <- app_assoc. reflexivity.
Qed.

Lemma records_spec : forall draws count fh pos,
  exists rs, length rs = count /\ Forall demoRecord rs /\
    fst (demo.records draws count fh pos) = fh ++ concat rs.
Proof.
  intros draws. induction count as [|n IH]; intros fh pos.
  - exists []. simpl. rewrite app_nil_r. repeat split. constructor.
  - cbn [demo.records].
    destruct (fieldsFrom_spec draws demo.numFields 0 [] pos)
      as (cs & Hlen & Hcs & Hf).
    destruct (demo.fieldsFrom draws demo.numFields 0 [] pos) as [fields pos'].
    cbn [fst app] in Hf. subst fields.
    destruct (IH (fh ++ Join (map (padString 5) cs) demo.sep ++ [NL]) pos')
      as (rs & Hrs & Hall & ->).
    exists ((Join (map (padString 5) cs) demo.sep ++ [NL]) :: rs).
    split; [simpl; now rewrite Hrs|]. split.
    + constructor; [|assumption].
      destruct cs as [|c0 [|c1 [|c2 [|c3 [|c4 [|c5 cs]]]]]]; try discriminate.
      exists c0, c1, c2, c3, c4. split; [assumption | reflexivity].
    + cbn [concat]. now rewrite <- !app_assoc.
Qed.

(** *** Separators, fields and the trim *)

Lemma splitFrom_length_byte : forall (x : byte) s cur,
  length (splitFrom [x] 0 cur s) = S (count_occ ascii_dec s x).
Proof.
  intros x. induction s as [|c s IH]; intro cur; [reflexivity|].
  cbn [splitFrom HasPrefix count_occ].
  destruct (byteEq c x) eqn:E; cbn [andb length Nat.sub].
  - apply byteEq_true in E. subst c.
    destruct (ascii_dec x x) as [_ | N]; [|congruence].
    simpl. now rewrite IH.
  - apply byteEq_false in E.
    destruct (ascii_dec c x) as [Y | _]; [congruence|]. apply IH.
Qed.

Lemma Split_length_byte : forall (x : byte) s,
  length (Split s [x]) = S (count_occ ascii_dec s x).
Proof. intros. apply splitFrom_length_byte. Qed.

Lemma splitFrom_field_length : forall sep s skip cur f,
  In f (splitFrom sep skip cur s) -> length f <= length cur + length s.
Proof.
  intros sep. induction s as [|c s IH]; intros skip cur f H.
  - simpl in H. destruct H as [<- | []]. simpl. lia.
  - cbn [splitFrom] in H. destruct skip as [|k].
    + destruct (HasPrefix (c :: s) sep).
      * destruct H as [<- | H]; [simpl; lia|].
        apply IH in H. simpl in *. lia.
      * apply IH in H. rewrite length_app in H. simpl in *. lia.
    + apply IH in H. simpl. lia.
Qed.

Lemma Split_field_length : forall s sep f,
  In f (Split s sep) -> length f <= length s.
Proof. intros s sep f H. now apply splitFrom_field_length in H. Qed.

Lemma TrimLeft_count : forall cut s x,
  cut x = false ->
  count_occ ascii_dec (TrimLeft cut s) x = count_occ ascii_dec s x.
Proof.
  intros cut s x Hx. induction s as [|c s IH]; [reflexivity|].
  cbn [TrimLeft]. destruct (cut c) eqn:E; [|reflexivity].
  rewrite IH. cbn [count_occ].
  destruct (ascii_dec c x) as [-> | _]; [congruence | reflexivity].
Qed.

Lemma Trim_count : forall cut s x,
  cut x = false ->
  count_occ ascii_dec (Trim cut s) x = count_occ ascii_dec s x.
Proof.
  intros cut s x Hx. unfold Trim, TrimRight.
  rewrite count_occ_rev, TrimLeft_count, count_occ_rev by assumption.
  now apply TrimLeft_count.
Qed.

Lemma TrimLeft_length : forall cut s, length (TrimLeft cut s) <= length s.
Proof.
  intros cut. induction s as [|c s IH]; [simpl; lia|].
  cbn [TrimLeft]. destruct (cut c); simpl in *; lia.
Qed.

Lemma Trim_length : forall cut s, length (Trim cut s) <= length s.
Proof.
  intros cut s. unfold Trim, TrimRight. rewrite length_rev.
  eapply Nat.le_trans; [apply TrimLeft_length|]. rewrite length_rev.
  apply TrimLeft_length.
Qed.

(** *** The records of the data *)

Lemma demoByte_above : forall c x, demoByte c -> (code x < 49)%N -> c <> x.
Proof. intros c x Hc Hx ->. unfold demoByte in Hc. lia. Qed.

Lemma dataByte_props : forall x,
  dataByte x -> (code x < 128)%N /\ x <> _asciiGS.
Proof.
  intros x [-> | [-> | [-> | H]]].
  - split; [reflexivity | discriminate].
  - split; [reflexivity | discriminate].
  - split; [reflexivity | discriminate].
  - split; [unfold demoByte in H; lia|].
    apply demoByte_above; [assumption | reflexivity].
Qed.

Lemma demoField_ascii : forall c,
  demoField c -> Forall (fun x => (code x < 128)%N) c.
Proof.
  intros c [_ H]. eapply Forall_impl; [|exact H].
  intros x Hx. unfold demoByte in Hx. lia.
Qed.

Lemma padString_demoField : forall c,
  demoField c ->
  padString 5 c = repeat SP (5 - length c) ++ c /\ length (padString 5 c) = 5.
Proof.
  intros c Hc. pose proof (demoField_ascii c Hc) as Ha. destruct Hc as [Hl _].
  split.
  - unfold padString. now rewrite RuneCountInString_ascii.
  - apply padString_length_ascii; [assumption | lia].
Qed.

Lemma padString_demoField_bytes : forall c x,
  demoField c -> In x (padString 5 c) -> x = SP \/ demoByte x.
Proof.
  intros c x Hc Hx. destruct (padString_demoField c Hc) as [E _].
  rewrite E in Hx. apply in_app_or in Hx. destruct Hx as [Hx | Hx].
  - left. now apply repeat_SP_spaces in Hx.
  - right. destruct Hc as [_ Hb]. rewrite Forall_forall in Hb. now apply Hb.
Qed.

Lemma padString_demoField_no : forall c x,
  demoField c -> x <> SP -> (code x < 49)%N ->
  count_occ ascii_dec (padString 5 c) x = 0.
Proof.
  intros c x Hc Hsp Hx. apply count_occ_not_In. intro Hin.
  destruct (padString_demoField_bytes c x Hc Hin) as [E | Hb]; [contradiction|].
  now apply (demoByte_above x x).
Qed.

Lemma demoRecord_shape : forall c0 c1 c2 c3 c4,
  Join (map (padString 5) [c0; c1; c2; c3; c4]) [TAB] ++ [NL]
    = padString 5 c0 ++ TAB :: padString 5 c1 ++ TAB :: padString 5 c2
        ++ TAB :: padString 5 c3 ++ TAB :: padString 5 c4 ++ [NL].
Proof.
  intros. cbn [map Join]. rewrite <- !app_assoc. cbn [app].
  repeat (rewrite <- !app_assoc; cbn [app]). reflexivity.
Qed.

Lemma demoRecord_props : forall r,
  demoRecord r ->
  length r = 30 /\ Forall dataByte r /\
  count_occ ascii_dec r TAB = 4 /\ keyLine r.
Proof.
  intros r (c0 & c1 & c2 & c3 & c4 & Hcs & ->).
  rewrite demoRecord_shape.
  inversion Hcs as [|? ? H0 Hcs1]; subst. inversion Hcs1 as [|? ? H1 Hcs2]; subst.
  inversion Hcs2 as [|? ? H2 Hcs3]; subst. inversion Hcs3 as [|? ? H3 Hcs4]; subst.
  inversion Hcs4 as [|? ? H4 _]; subst.
  assert (Hbytes : forall x,
    In x (padString 5 c0 ++ TAB :: padString 5 c1 ++ TAB :: padString 5 c2
            ++ TAB :: padString 5 c3 ++ TAB :: padString 5 c4) ->
    x = SP \/ x = TAB \/ demoByte x).
  { intros x Hx.
    repeat (apply in_app_or in Hx;
            destruct Hx as [Hx | [<- | Hx]]; [| now (right; left) |]);
      try (match goal with
           | Hc : demoField ?c, Hx : In x (padString 5 ?c) |- _ =>
               destruct (padString_demoField_bytes c x Hc Hx); tauto
           end). }
  split; [|split; [|split]].
  - repeat (rewrite length_app; cbn [length]).
    destruct (padString_demoField c0 H0) as [_ ->].
    destruct (padString_demoField c1 H1) as [_ ->].
    destruct (padString_demoField c2 H2) as [_ ->].
    destruct (padString_demoField c3 H3) as [_ ->].
    destruct (padString_demoField c4 H4) as [_ ->]. reflexivity.
  - apply Forall_forall. intros x Hx.
    replace (padString 5 c0 ++ TAB :: padString 5 c1 ++ TAB :: padString 5 c2
               ++ TAB :: padString 5 c3 ++ TAB :: padString 5 c4 ++ [NL])
      with ((padString 5 c0 ++ TAB :: padString 5 c1 ++ TAB :: padString 5 c2
               ++ TAB :: padString 5 c3 ++ TAB :: padString 5 c4) ++ [NL]) in Hx
      by (repeat (rewrite <- !app_assoc; cbn [app]); reflexivity).
    apply in_app_or in Hx. destruct Hx as [Hx | [<- | []]].
    + destruct (Hbytes x Hx) as [-> | [-> | Hb]]; unfold dataByte; tauto.
    + unfold dataByte. tauto.
  - repeat (rewrite count_occ_app; cbn [count_occ]).
    rewrite !padString_demoField_no by (assumption || discriminate || reflexivity).
    destruct (ascii_dec TAB TAB) as [_ | N]; [|congruence].
    destruct (ascii_dec NL TAB) as [Y | _]; [discriminate Y | reflexivity].
  - exists (padString 5 c0 ++ TAB :: padString 5 c1 ++ TAB :: padString 5 c2
              ++ TAB :: padString 5 c3 ++ TAB :: padString 5 c4).
    split; [repeat (rewrite <- !app_assoc; cbn [app]); reflexivity|].
    apply Forall_forall. intros x Hx ->.
    destruct (Hbytes NL Hx) as [E | [E | Hb]]; try discriminate.
    now apply (demoByte_above NL NL).
Qed.

(** *** The data as a source of the sort *)

Lemma demoRecord_fields : forall r,
  demoRecord r ->
  length (Split (Trim blank r) [TAB]) = 5 /\ nonBlank r = true.
Proof.
  intros r Hr. destruct (demoRecord_props r Hr) as (_ & _ & Hc & _).
  assert (Ht : count_occ ascii_dec (Trim blank r) TAB = 4)
    by (rewrite Trim_count; [exact Hc | reflexivity]).
  split.
  - now rewrite Split_length_byte, Ht.
  - unfold nonBlank. apply Nat.ltb_lt.
    pose proof (count_occ_bound ascii_dec TAB (Trim blank r)) as Hb.
    rewrite Ht in Hb. eapply Nat.lt_le_trans; [|exact Hb]. lia.
Qed.

Lemma concat_length_all : forall (rs : list gostring) n,
  Forall (fun r => length r = n) rs -> length (concat rs) = n * length rs.
Proof.
  intros rs n H. induction H as [|r rs Hr _ IH]; [simpl; lia|].
  cbn [concat length]. rewrite length_app, IH, Hr. lia.
Qed.

Lemma filter_all : forall (A : Type) (p : A -> bool) l,
  Forall (fun x => p x = true) l -> filter p l = l.
Proof.
  intros A p l H. induction H as [|x l Hx _ IH]; [reflexivity|].
  simpl. now rewrite Hx, IH.
Qed.

Section DemoData.

Variable rs : list gostring.
Hypothesis rs_records : Forall demoRecord rs.
Hypothesis rs_count : length rs = demo.numRecords.

Lemma demo_reads :
  reads (concat rs) = map (fun a => (a, false)) rs ++ [([], true)].
Proof.
  apply reads_lines. eapply Forall_impl; [|exact rs_records].
  intros r Hr. now apply demoRecord_props in Hr.
Qed.

Lemma demo_read : forall record eof,
  In (record, eof) (reads (concat rs)) -> demoRecord record \/ record = [].
Proof.
  intros record eof H. rewrite demo_reads in H. apply in_app_or in H.
  destruct H as [H | [H | []]].
  - apply in_map_iff in H. destruct H as (r & E & Hr). injection E as <- _.
    left. rewrite Forall_forall in rs_records. now apply rs_records.
  - injection H as <- _. now right.
Qed.

Lemma demo_length : length (concat rs) = 3000.
Proof.
  rewrite (concat_length_all rs 30).
  - now rewrite rs_count.
  - eapply Forall_impl; [|exact rs_records].
    intros r Hr. now apply demoRecord_props in Hr.
Qed.

Lemma demo_bytes : Forall dataByte (concat rs).
Proof.
  apply Forall_forall. intros x Hx. apply in_concat in Hx.
  destruct Hx as (r & Hr & Hx). rewrite Forall_forall in rs_records.
  destruct (demoRecord_props r (rs_records r Hr)) as (_ & Hb & _).
  rewrite Forall_forall in Hb. now apply Hb.
Qed.

Lemma demo_numFields : numFieldsOf (concat rs) [TAB] = 5.
Proof.
  unfold numFieldsOf. destruct rs as [|r0 rs'] eqn:E; [discriminate rs_count|].
  inversion rs_records as [|? ? H0 _]; subst.
  destruct (demoRecord_props r0 H0) as (_ & _ & Hc & key & Er & Hk).
  cbn [concat]. rewrite Er at 1. rewrite <- app_assoc. cbn [app].
  rewrite readString_line.
  - cbn [fst]. rewrite <- Er. now rewrite Split_length_byte, Hc.
  - rewrite Forall_forall in Hk. intro Hin. now apply (Hk NL).
Qed.

Lemma demo_keyable : keyable (concat rs) demo.usingFields [TAB].
Proof.
  split; [|split].
  - intros record eof H. rewrite demo_numFields.
    destruct (demo_read record eof H) as [Hr | ->].
    + apply demoRecord_fields in Hr. lia.
    + vm_compute. lia.
  - intros record eof f H Hf. apply Split_field_length in Hf.
    pose proof (Trim_length blank record) as Ht.
    destruct (demo_read record eof H) as [Hr | ->].
    + apply demoRecord_props in Hr. destruct Hr as (Hl & _).
      unfold gostring, byte in *. lia.
    + change (Trim blank []) with (@nil byte) in Hf. simpl in Hf. lia.
  - assert (E : Split demo.usingFields [COMMA] = [str "5"; str "1"])
      by reflexivity.
    rewrite E, demo_numFields.
    assert (Hcol : forall record eof, In (record, eof) (reads (concat rs)) ->
              nonBlank record = true ->
              length (Split (Trim blank record) [TAB]) = 5).
    { intros record eof H Hnb. destruct (demo_read record eof H) as [Hr | ->].
      - now apply demoRecord_fields in Hr.
      - discriminate Hnb. }
    constructor; [|constructor; [|constructor]].
    + exists 5%Z. split; [reflexivity|]. split; [lia|].
      intros record eof H Hnb. rewrite (Hcol record eof H Hnb). lia.
    + exists 1%Z. split; [reflexivity|]. split; [lia|].
      intros record eof H Hnb. rewrite (Hcol record eof H Hnb). lia.
Qed.

Lemma demo_entries :
  exists es, entriesOf (concat rs) demo.usingFields [TAB] = Ok es /\
    map entRecord es = rs.
Proof.
  destruct (keyable_entries _ _ _ demo_keyable) as (es & Hes & Hrecs).
  exists es. split; [exact Hes|]. rewrite Hrecs, demo_reads, map_app, map_map.
  cbn [map fst]. rewrite map_id, filter_app. cbn [filter].
  change (nonBlank []) with false. rewrite app_nil_r.
  apply filter_all. eapply Forall_impl; [|exact rs_records].
  intros r Hr. now apply demoRecord_fields in Hr.
Qed.

Lemma demo_key_length : forall es e,
  entriesOf (concat rs) demo.usingFields [TAB] = Ok es -> In e es ->
  length (entKey e) <= 65.
Proof.
  intros es e Hes He.
  destruct (keySpecsOf (concat rs) demo.usingFields [TAB]) as [keySpecs|f]
    eqn:Hspecs; [|unfold entriesOf in Hes; rewrite Hspecs in Hes; discriminate].
  assert (Hascii : Forall (fun c => (code c < 128)%N) (concat rs)).
  { eapply Forall_impl; [|exact demo_bytes].
    intros x Hx. now apply dataByte_props in Hx. }
  assert (Hsize : (Z.of_nat (length (concat rs)) < 2 ^ 63)%Z)
    by (rewrite demo_length; reflexivity).
  pose proof (key_lengths _ _ _ _ _ Hascii Hsize Hspecs Hes) as Hw.
  rewrite Forall_forall in Hw. rewrite (Hw e He).
  assert (Hseek : seekLenOf (concat rs) = 4)
    by (unfold seekLenOf; rewrite demo_length; reflexivity).
  rewrite Hseek.
  destruct (keySpecsOf_inv _ _ _ _ Hspecs) as (ws & Hws & Hs).
  destruct (fieldWidths_cover _ _ _ _ Hws) as (_ & _ & Htight).
  pose proof (makeKeySpecs_inv _ _ _ Hs) as Hcols.
  assert (Hfmt : forall v, In v keySpecs -> FORMAT v <= 30).
  { intros v Hv. destruct (columnSpec_width _ _ _ _ Hcols Hv) as [_ Hn].
    destruct (Nat.eq_dec (FORMAT v) 0) as [-> | Hnz]; [lia|].
    destruct (Htight _ _ Hn Hnz) as (record & eof & f & Hin & Hf & <-).
    apply nth_error_In in Hf. apply Split_field_length in Hf.
    pose proof (Trim_length blank record) as Ht.
    destruct (demo_read record eof Hin) as [Hr | ->].
    - apply demoRecord_props in Hr. destruct Hr as (Hl & _).
      unfold gostring, byte in *. lia.
    - change (Trim blank []) with (@nil byte) in Hf. simpl in Hf. lia. }
  assert (E : Split demo.usingFields [COMMA] = [str "5"; str "1"])
    by reflexivity.
  rewrite E in Hcols.
  inversion Hcols as [|? v1 ? ? _ Hcols1]; subst.
  inversion Hcols1 as [|? v2 ? ? _ Hcols2]; subst.
  inversion Hcols2; subst.
  pose proof (Hfmt v1 (or_introl eq_refl)).
  pose proof (Hfmt v2 (or_intror (or_introl eq_refl))).
  simpl. lia.
Qed.

Lemma demo_valid : forall w,
  tempDir w = [] ->
  exists es,
    validInput (createFile w demo.inFile (concat rs)) demo.inFile demo.outFile
               demo.usingFields demo.sep demo.keysPerSort (concat rs) es /\
    map entRecord es = rs.
Proof.
  intros w Htmp. destruct demo_entries as (es & Hes & Hrecs).
  exists es. split; [|exact Hrecs].
  pose proof demo_length as Hlen.
  unfold validInput.
  split; [discriminate|]. split; [discriminate|]. split; [discriminate|].
  split; [discriminate|]. split; [reflexivity|].
  split; [cbn [files createFile]; now rewrite eqStr_refl|].
  split; [exact Htmp|].
  split; [intro E; rewrite E in Hlen; discriminate Hlen|].
  split; [rewrite Hlen; reflexivity|].
  split.
  { apply forallb_forall. intros x Hx.
    pose proof demo_bytes as Hb. rewrite Forall_forall in Hb.
    destruct (dataByte_props x (Hb x Hx)) as [_ Hgs].
    apply negb_true_iff. now apply byteEq_false. }
  split; [discriminate|]. split; [exact Hes|]. split.
  { intro E. rewrite E in Hrecs. simpl in Hrecs. rewrite <- Hrecs in rs_count.
    discriminate rs_count. }
  apply forallb_forall. intros e He. apply Z.ltb_lt.
  pose proof (demo_key_length es e Hes He). unfold maxTokenSize. lia.
Qed.

End DemoData.

(** X24: the demonstration program runs to its end whatever the random
    generator draws and in whatever order the key files are listed, provided
    no key file of another run lies in the temporary directory: it writes a
    hundred records of five fields to [demo.in], [Sort] ends without halt or
    panic, and [demo.out] holds the same hundred records, none lost or
    changed, in the descending order of their keys (the last field first,
    then the first field). *)
Theorem demo_main_sorts :
  forall draws glob, (forall n dir, Permutation (glob n dir) dir) ->
  forall w, tempDir w = [] ->
  exists rs es out,
    fst (demo.records draws demo.numRecords [] 0) = concat rs /\
    length rs = 100 /\ Forall demoRecord rs /\
    entriesOf (concat rs) demo.usingFields demo.sep = Ok es /\
    map entRecord es = rs /\
    demo.main draws glob w
      = (sortedWorld (createFile w demo.inFile (concat rs)) demo.outFile
           (map entRecord out), Ok tt) /\
    Permutation out es /\ Sorted (keysInOrder false) out.
Proof.
  intros draws glob Hglob w Htmp.
  destruct (records_spec draws demo.numRecords [] 0) as (rs & Hcount & Hrs & Hdata).
  cbn [app] in Hdata.
  destruct (demo_valid rs Hrs Hcount w Htmp) as (es & Hvalid & Hrecs).
  exists rs, es, (sortEntries false es).
  split; [exact Hdata|]. split; [exact Hcount|]. split; [exact Hrs|].
  split; [apply Hvalid|]. split; [exact Hrecs|].
  split; [|split; [apply sortEntries_perm | apply sortEntries_keysInOrder]].
  unfold demo.main.
  destruct (demo.records draws demo.numRecords [] 0) as [data pos].
  cbn [fst] in Hdata. subst data.
  exact (Sort_sorts glob Hglob _ _ _ _ _ _ _ _ _ _ Hvalid).
Qed.

Lemma demo_main_sorts_witness :
  exists rs es out,
    fst (demo.records (fun n => n * 7 + n / 3) demo.numRecords [] 0)
      = concat rs /\
    length rs = 100 /\ Forall demoRecord rs /\
    entriesOf (concat rs) demo.usingFields demo.sep = Ok es /\
    map entRecord es = rs /\
    demo.main (fun n => n * 7 + n / 3) globInOrder (oneFile [])
      = (sortedWorld (createFile (oneFile []) demo.inFile (concat rs))
           demo.outFile (map entRecord out), Ok tt) /\
    Permutation out es /\ Sorted (keysInOrder false) out.
Proof.
  apply (demo_main_sorts (fun n => n * 7 + n / 3) globInOrder globInOrder_perm
           (oneFile [])).
  reflexivity.
Defined.

(** ** The offsets that [seekFile] takes *)




(** ** The reads of a file *)

(** X18: the loop [for err != io.EOF { record, err = readString(reader) }]
    goes through a file once, from its first byte to its last: the records
    read, one after the other, are the file; every read but the last
    returns a line that ends in its only newline; the last read, the one
    that reports the end of the file, returns what follows the last newline
    (nothing, when the file ends in a newline). *)
Theorem reads_partition : forall s,
  concat (map fst (reads s)) = s /\
  last (map snd (reads s)) false = true /\
  (forall r, In (r, false) (reads s) ->
     exists body, r = body ++ [NL] /\ ~ In NL body) /\
  (forall r, In (r, true) (reads s) ->
     ~ In NL r /\ exists before, reads s = before ++ [(r, true)]).
Proof.
  intro s. split; [apply reads_concat|]. split; [apply reads_last_eof|].
  pattern s. apply reads_ind; clear s.
  - intros s Hs. rewrite reads_tail by assumption. split.
    + intros r [H | []]. discriminate.
    + intros r [H | []]. injection H as <-. split; [assumption|].
      now exists [].
  - intros body rest Hb [IH1 IH2]. rewrite reads_line by assumption. split.
    + intros r [H | H]; [injection H as <-; eauto | now apply IH1].
    + intros r [H | H]; [discriminate|].
      destruct (IH2 r H) as (Hn & before & E). split; [assumption|].
      exists ((body ++ [NL], false) :: before). now rewrite E.
Qed.

(** ** A source that is already in order *)

Lemma resolves_key_offset : forall source width e1 e2,
  resolves source width e1 -> resolves source width e2 ->
  entKey e1 = entKey e2 -> entOffset e1 = entOffset e2.
Proof.
  intros source width e1 e2 (_ & _ & b1 & K1 & _) (_ & _ & b2 & K2 & _) E.
  rewrite K1, K2 in E.
  apply app_sep_inj_right in E; try apply padInt_no_GS.
  destruct E as [_ E]. now apply padInt_inj in E.
Qed.

Lemma entries_keys_distinct : forall source width es,
  Forall (resolves source width) es ->
  StronglySorted (fun a b => (entOffset a < entOffset b)%Z) es ->
  StronglySorted (fun a b => entKey a <> entKey b) es.
Proof.
  intros source width es Hres Hs. induction Hs as [|e es Hs IH Hall].
  - constructor.
  - inversion Hres as [|? ? He Hes]; subst. constructor; [now apply IH|].
    rewrite Forall_forall in *. intros x Hx E.
    pose proof (resolves_key_offset _ _ _ _ He (Hes x Hx) E).
    specialize (Hall x Hx). lia.
Qed.

Lemma sortEntries_in_order : forall sortAsc es,
  Sorted (keysInOrder sortAsc) es ->
  StronglySorted (fun a b => entKey a <> entKey b) es ->
  sortEntries sortAsc es = es.
Proof.
  intros sortAsc. induction es as [|e es IH]; intros Hs Hd; [reflexivity|].
  inversion Hs as [|? ? Hs' Hh]; subst. inversion Hd as [|? ? Hd' Hall]; subst.
  cbn [sortEntries]. rewrite (IH Hs' Hd').
  destruct es as [|x l]; [reflexivity|]. cbn [insertEntry].
  inversion Hh as [|? ? Hex]; subst.
  assert (Hne : entKey e <> entKey x) by (apply (Forall_inv Hall)).
  replace (less sortAsc (entKey e) (entKey x)) with true; [reflexivity|].
  symmetry. unfold keysInOrder, leStr in Hex. unfold less.
  destruct sortAsc; apply negb_true_iff in Hex.
  - destruct (ltStr (entKey e) (entKey x)) eqn:E; [reflexivity|].
    exfalso. apply Hne. now apply ltStr_total.
  - destruct (ltStr (entKey x) (entKey e)) eqn:E; [reflexivity|].
    exfalso. apply Hne. now apply ltStr_total.
Qed.

Lemma concat_filter_empty : forall (p : gostring -> bool) (l : list gostring),
  (forall r, In r l -> r = [] \/ p r = true) ->
  concat (filter p l) = concat l.
Proof.
  intros p. induction l as [|r l IH]; intro H; [reflexivity|].
  cbn [filter concat].
  rewrite <- (IH (fun r' Hr' => H r' (or_intror Hr'))).
  destruct (H r (or_introl eq_refl)) as [-> | ->]; [|reflexivity].
  now destruct (p []).
Qed.

(** X4: a valid source without a blank line whose records already stand
    in the order of their keys in the requested direction comes out of the
    sort byte for byte as it is. *)
Theorem Sort_sorted_source_unchanged :
  forall glob, (forall n dir, Permutation (glob n dir) dir) ->
  forall w inFile outFile sortAsc usingFields sep keysPerSort verbose source es,
  validInput w inFile outFile usingFields sep keysPerSort source es ->
  Sorted (keysInOrder sortAsc) es ->
  (forall record eof, In (record, eof) (reads source) ->
     record = [] \/ nonBlank record = true) ->
  exists written,
    Sort glob w inFile outFile sortAsc usingFields sep keysPerSort verbose
      = (sortedWorld w outFile written, Ok tt) /\
    files (sortedWorld w outFile written) outFile = Some source.
Proof.
  intros glob Hglob w inFile outFile sortAsc usingFields sep keysPerSort verbose
         source es Hvalid Hsorted Hblank.
  exists (map entRecord (sortEntries sortAsc es)).
  split; [exact (Sort_sorts glob Hglob w inFile outFile sortAsc usingFields sep
            keysPerSort verbose source es Hvalid)|].
  rewrite files_sortedWorld. f_equal.
  destruct Hvalid as (_ & _ & _ & _ & _ & _ & _ & _ & Hsize & HGS & _ & Hes & _).
  pose proof (no_separator source HGS) as HGS'.
  pose proof (entriesOf_records _ _ _ _ Hes) as Hrecs.
  unfold entriesOf in Hes.
  destruct (keySpecsOf source usingFields sep) as [keySpecs|f]; [|discriminate].
  cbn [bind] in Hes.
  destruct (entriesFrom_props source sep keySpecs HGS' Hsize source [] es
              eq_refl Hes) as [Hres _].
  destruct (entriesFrom_keys _ _ _ _ Hes) as [_ Hoffs].
  rewrite sortEntries_in_order;
    [|assumption | now apply (entries_keys_distinct source (seekLenOf source))].
  rewrite Hrecs, concat_filter_empty; [apply reads_concat|].
  intros r Hr. apply in_map_iff in Hr. destruct Hr as ([r' eof] & E & Hin).
  simpl in E. subst r'. now apply (Hblank r eof).
Qed.

Lemma Sort_sorted_source_unchanged_witness :
  exists written,
    Sort globInOrder (oneFile tiesSource) (str "in") (str "out") true
         (str "2") [TAB] 1%Z false
      = (sortedWorld (oneFile tiesSource) (str "out") written, Ok tt) /\
    files (sortedWorld (oneFile tiesSource) (str "out") written) (str "out")
      = Some tiesSource.
Proof.
  apply (Sort_sorted_source_unchanged globInOrder globInOrder_perm
           (oneFile tiesSource) (str "in") (str "out") true (str "2") [TAB]
           1%Z false tiesSource tiesEntries).
  - apply validInput_ties. discriminate.
  - repeat constructor.
  - intros record eof H. vm_compute in H.
    destruct H as [H | [H | [H | []]]]; injection H as <- <-;
      ((left; reflexivity) || (right; reflexivity)).
Defined.

(** ** The key files of the first pass *)


